(** * Secret of the Deep: token ledger, treasury, URI resolver and event scanner

    A shallow embedding of [contracts/SecretOfTheDeepNFT.sol], of
    [scripts/domain/get-token-events.ts] and of the two script functions
    that read the contract back, [getAllTokens] and [getCurrentBaseURI],
    with the properties stated about them.

    Conventions.
    - [uint256] and [address] values are binary naturals ([N]); Solidity 0.8
      checked arithmetic is written out: an addition that leaves the 256-bit
      range and a subtraction below zero abort with [Panic 0x11], an array
      access out of bounds aborts with [Panic 0x32].
    - A contract function is a computation over the contract state which
      either finishes or aborts.  An aborting computation still carries the
      state it had reached when it aborted; it is [call] that implements
      the EVM rule that a reverting call leaves no trace.
    - Events emitted by the contract are not part of the model. *)

From Stdlib Require Import NArith ZArith Lia List Bool.
From Stdlib Require Import Strings.String Strings.Byte.
From Stdlib Require Import Sorting.Sorted Sorting.Permutation.
From stdpp Require Import base option list gmap strings.

Open Scope N_scope.

(** ** Machine integers *)

Definition uint256 : Type := N.
Definition address : Type := N.

Definition MAX_UINT256 : N := 2 ^ 256 - 1.

(** Solidity error data.  [Revert] is [require(cond, reason)]; the other
    constructors are the custom errors of the inherited OpenZeppelin
    contracts and the compiler-inserted panics. *)
Inductive Error : Type :=
| Revert (reason : string)
| Panic (code : N)
| OwnableUnauthorizedAccount (account : address)
| ERC1155InvalidReceiver (receiver : address)
| ERC1155InvalidSender (sender : address)
| ERC1155InsufficientBalance (sender : address) (balance needed tokenId : uint256)
| ERC1155MissingApprovalForAll (operator owner : address)
| ERC1155InvalidArrayLength (idsLength valuesLength : N)
| ExternalCallReverted
| OutOfGas.

Definition PANIC_ARITHMETIC : N := 17.    (* 0x11 *)
Definition PANIC_INDEX : N := 50.         (* 0x32 *)

(** ** The execution monad *)

Module Exec.

Inductive Outcome (S A : Type) : Type :=
| Done (a : A) (s : S)
| Abort (e : Error) (s : S).
Arguments Done {S A} a s.
Arguments Abort {S A} e s.

Definition t (S A : Type) : Type := S -> Outcome S A.

Definition ret {S A} (a : A) : t S A := fun s => Done a s.

Definition bind {S A B} (m : t S A) (k : A -> t S B) : t S B :=
  fun s => match m s with
           | Done a s' => k a s'
           | Abort e s' => Abort e s'
           end.

Definition fail {S A} (e : Error) : t S A := fun s => Abort e s.

Definition gets {S A} (f : S -> A) : t S A := fun s => Done (f s) s.

Definition modify {S} (f : S -> S) : t S unit := fun s => Done tt (f s).

(** [require(cond, reason)] *)
Definition require {S} (cond : bool) (reason : string) : t S unit :=
  if cond then ret tt else fail (Revert reason).

(** checked [a + b] *)
Definition add {S} (a b : uint256) : t S uint256 :=
  if a + b <=? MAX_UINT256 then ret (a + b) else fail (Panic PANIC_ARITHMETIC).

(** checked [a - b] *)
Definition sub {S} (a b : uint256) : t S uint256 :=
  if b <=? a then ret (a - b) else fail (Panic PANIC_ARITHMETIC).

(** The state a run ends in, finished or not. *)
Definition final {S A} (o : Outcome S A) : S :=
  match o with
  | Done _ s => s
  | Abort _ s => s
  end.

(** The result a caller observes. *)
Inductive Result (A : Type) : Type :=
| Ok (a : A)
| Reverted (e : Error).
Arguments Ok {A} a.
Arguments Reverted {A} e.

(** A message call: the state changes of an aborting call are undone. *)
Definition call {S A} (m : t S A) (s : S) : Result A * S :=
  match m s with
  | Done a s' => (Ok a, s')
  | Abort e _ => (Reverted e, s)
  end.

End Exec.

Import Exec.

Notation "'let!' x ':=' m 'in' k" := (Exec.bind m (fun x => k))
  (at level 10, x pattern, m at level 100, k at level 200).
Notation "m ';;' k" := (Exec.bind m (fun _ => k))
  (at level 100, k at level 200, right associativity).

(** ** The failure kinds of the specification

    The specification names failures by kind.  [kind_of] maps the error
    data the contract produces to those kinds; panics have no kind of
    their own and are [Unknown]. *)
Inductive ErrorKind : Type :=
| Unauthorized | NotFound | AlreadyExists | InvalidArgument | SupplyExceeded
| InsufficientBalance | LengthMismatch | TransferFailed | Unknown.

Definition kind_of (e : Error) : ErrorKind :=
  match e with
  | OwnableUnauthorizedAccount _ => Unauthorized
  | ERC1155MissingApprovalForAll _ _ => Unauthorized
  | ERC1155InsufficientBalance _ _ _ _ => InsufficientBalance
  | ERC1155InvalidArrayLength _ _ => LengthMismatch
  | ERC1155InvalidReceiver _ | ERC1155InvalidSender _ => InvalidArgument
  | ExternalCallReverted => TransferFailed
  | Panic _ | OutOfGas => Unknown
  | Revert r =>
      if String.eqb r "Not authorized to burn" then Unauthorized
      else if String.eqb r "Token does not exist" then NotFound
      else if String.eqb r "Token already exists" then AlreadyExists
      else if String.eqb r "Exceeds max supply" then SupplyExceeded
      else if String.eqb r "Arrays length mismatch" then LengthMismatch
      else if String.eqb r "Insufficient token balance" then InsufficientBalance
      else if String.eqb r "Insufficient USDC balance" then InsufficientBalance
      else if String.eqb r "Insufficient USDC balance in wallet" then InsufficientBalance
      else if String.eqb r "USDC transfer failed" then TransferFailed
      else if String.eqb r "Max supply must be greater than 0" then InvalidArgument
      else if String.eqb r "Token amount must be greater than 0" then InvalidArgument
      else if String.eqb r "USDC amount must be greater than 0" then InvalidArgument
      else if String.eqb r "Amount must be greater than 0" then InvalidArgument
      else if String.eqb r "Invalid recipient address" then InvalidArgument
      else Unknown
  end.

(** ** External collaborators *)

(** [interface IUSDC is IERC20]: the stable-coin ledger the contract talks
    to.  [ledger] is the state of that external contract.  A call either
    reverts ([None]) or returns its boolean together with the new ledger
    state.  The first argument of [transfer] and [transferFrom] is the
    [msg.sender] of the external call. *)
Class IUSDC (ledger : Type) : Type := {
  balanceOf_usdc : ledger -> address -> uint256;
  transfer_usdc : address -> address -> uint256 -> ledger -> option (bool * ledger);
  transferFrom_usdc :
    address -> address -> address -> uint256 -> ledger -> option (bool * ledger);
}.

(** The ERC-1155 acceptance check: [accepts operator from to] tells whether
    a transfer into [to] passes it, which is the case when [to] has no
    code, or has code whose [onERC1155Received] / [onERC1155BatchReceived]
    hook answers with the expected selector. *)
Class IERC1155Receiver : Type := {
  accepts : address -> address -> address -> bool;
}.

(** ** Contract state *)

(** [struct TokenInfo] *)
Record TokenInfo : Type := mkTokenInfo {
  name : string;
  description : string;
  maxSupply : uint256;
  currentSupply : uint256;
  isActive : bool;
}.

(** The value a Solidity mapping holds at a key never written. *)
Definition noToken : TokenInfo :=
  {| name := ""; description := ""; maxSupply := 0; currentSupply := 0;
     isActive := false |}.

Record State (ledger : Type) : Type := mkState {
  this : address;                                (* address(this) *)
  _owner : address;                              (* Ownable._owner *)
  tokenInfo : gmap uint256 TokenInfo;            (* mapping(uint256 => TokenInfo) *)
  _balances : gmap uint256 (gmap address uint256); (* ERC1155._balances[id][account] *)
  _operatorApprovals : gset (address * address); (* ERC1155._operatorApprovals *)
  _baseURI : list byte;
  usdcAddress : address;
  usdc : ledger;                                 (* state of IUSDC(usdcAddress) *)
}.
Arguments mkState {ledger}.
Arguments this {ledger}.
Arguments _owner {ledger}.
Arguments tokenInfo {ledger}.
Arguments _balances {ledger}.
Arguments _operatorApprovals {ledger}.
Arguments _baseURI {ledger}.
Arguments usdcAddress {ledger}.
Arguments usdc {ledger}.

Section Storage.
Context {ledger : Type}.
Implicit Types s : State ledger.

(** [tokenInfo[tokenId]] *)
Definition info s (tokenId : uint256) : TokenInfo :=
  default noToken (tokenInfo s !! tokenId).

(** [balanceOf(account, id)], that is [_balances[id][account]] *)
Definition balanceOf s (account : address) (id : uint256) : uint256 :=
  default 0 (default ∅ (_balances s !! id) !! account).

Definition isApprovedForAll s (account operator : address) : bool :=
  bool_decide ((account, operator) ∈ _operatorApprovals s).

Definition set_info (tokenId : uint256) (i : TokenInfo) s : State ledger :=
  mkState (this s) (_owner s) (<[tokenId := i]> (tokenInfo s)) (_balances s)
          (_operatorApprovals s) (_baseURI s) (usdcAddress s) (usdc s).

Definition set_currentSupply (tokenId : uint256) (v : uint256) s : State ledger :=
  let i := info s tokenId in
  set_info tokenId
    (mkTokenInfo (name i) (description i) (maxSupply i) v (isActive i)) s.

Definition set_balance (id : uint256) (account : address) (v : uint256) s
  : State ledger :=
  mkState (this s) (_owner s) (tokenInfo s)
          (<[id := <[account := v]> (default ∅ (_balances s !! id))]> (_balances s))
          (_operatorApprovals s) (_baseURI s) (usdcAddress s) (usdc s).

Definition set_baseURI (u : list byte) s : State ledger :=
  mkState (this s) (_owner s) (tokenInfo s) (_balances s)
          (_operatorApprovals s) u (usdcAddress s) (usdc s).

Definition set_usdc (l : ledger) s : State ledger :=
  mkState (this s) (_owner s) (tokenInfo s) (_balances s)
          (_operatorApprovals s) (_baseURI s) (usdcAddress s) l.

End Storage.

(** ** The inherited ERC-1155 ledger

    Modelled from the spec: the holder-balance ledger of the OpenZeppelin
    (v5) [ERC1155] base contract, which the repository imports but does not
    contain.  "HolderBalance: mapping (address, tokenId) -> unsigned integer
    quantity held ... mutated only through mint/burn/transfer operations";
    the functions below follow the base contract's [_update], [_mint],
    [_mintBatch], [_burn] and [safeTransferFrom]. *)
Section ERC1155.
Context {ledger : Type} `{!IERC1155Receiver}.
#[local] Abbreviation M := (Exec.t (State ledger)).

(** Modelled from the spec: one round of the loop of the base contract's
    [_update(from, to, ids, values)]; a debit is checked against the
    balance, a credit is a checked addition. *)
Definition _update_one (from to : address) (id value : uint256) : M unit :=
  (if negb (from =? 0) then
     let! fromBalance := gets (fun s => balanceOf s from id) in
     if fromBalance <? value
     then fail (ERC1155InsufficientBalance from fromBalance value id)
     else modify (set_balance id from (fromBalance - value))
   else ret tt) ;;
  (if negb (to =? 0) then
     let! toBalance := gets (fun s => balanceOf s to id) in
     let! v := Exec.add toBalance value in
     modify (set_balance id to v)
   else ret tt).

(** Modelled from the spec: the loop of [_update] over the two arrays. *)
Fixpoint _update_loop (from to : address) (ids values : list uint256) : M unit :=
  match ids, values with
  | [], _ => ret tt
  | id :: ids', value :: values' =>
      _update_one from to id value ;; _update_loop from to ids' values'
  | _ :: _, [] => fail (Panic PANIC_INDEX)
  end.

(** Modelled from the spec: [_update] of the base contract. *)
Definition _update (from to : address) (ids values : list uint256) : M unit :=
  if negb (N.of_nat (length ids) =? N.of_nat (length values))
  then fail (ERC1155InvalidArrayLength (N.of_nat (length ids)) (N.of_nat (length values)))
  else _update_loop from to ids values.

(** Modelled from the spec: [_updateWithAcceptanceCheck] of the base
    contract.  The receiver's hook is asked after the balances are written;
    what the receiver does inside its hook is not modelled.  The balances
    and supplies are in their final state at that point, so a hook that
    calls back into the contract acts like a call made right after. *)
Definition _updateWithAcceptanceCheck (operator from to : address)
    (ids values : list uint256) : M unit :=
  _update from to ids values ;;
  if negb (to =? 0) then
    if accepts operator from to then ret tt else fail (ERC1155InvalidReceiver to)
  else ret tt.

(** Modelled from the spec: [_mint] of the base contract. *)
Definition _mint (operator to : address) (id value : uint256) : M unit :=
  if to =? 0 then fail (ERC1155InvalidReceiver 0)
  else _updateWithAcceptanceCheck operator 0 to [id] [value].

(** Modelled from the spec: [_mintBatch] of the base contract. *)
Definition _mintBatch (operator to : address) (ids values : list uint256) : M unit :=
  if to =? 0 then fail (ERC1155InvalidReceiver 0)
  else _updateWithAcceptanceCheck operator 0 to ids values.

(** Modelled from the spec: [_burn] of the base contract. *)
Definition _burn (operator from : address) (id value : uint256) : M unit :=
  if from =? 0 then fail (ERC1155InvalidSender 0)
  else _updateWithAcceptanceCheck operator from 0 [id] [value].

(** Modelled from the spec: [safeTransferFrom] of the base contract, the
    transfer operation on holder balances. *)
Definition safeTransferFrom (sender from to : address) (id value : uint256) : M unit :=
  let! approved := gets (fun s => isApprovedForAll s from sender) in
  if negb (from =? sender) && negb approved
  then fail (ERC1155MissingApprovalForAll sender from)
  else if to =? 0 then fail (ERC1155InvalidReceiver 0)
  else if from =? 0 then fail (ERC1155InvalidSender 0)
  else _updateWithAcceptanceCheck sender from to [id] [value].

(** Modelled from the spec: [safeBatchTransferFrom] of the base contract. *)
Definition safeBatchTransferFrom (sender from to : address) (ids values : list uint256)
  : M unit :=
  let! approved := gets (fun s => isApprovedForAll s from sender) in
  if negb (from =? sender) && negb approved
  then fail (ERC1155MissingApprovalForAll sender from)
  else if to =? 0 then fail (ERC1155InvalidReceiver 0)
  else if from =? 0 then fail (ERC1155InvalidSender 0)
  else _updateWithAcceptanceCheck sender from to ids values.

End ERC1155.

(** ** The contract [SecretOfTheDeepNFT]

    Every external function takes the caller ([msg.sender]) as its first
    argument. *)
Section SecretOfTheDeepNFT.
Context {ledger : Type} `{!IUSDC ledger} `{!IERC1155Receiver}.
#[local] Abbreviation M := (Exec.t (State ledger)).

(** Modelled from the spec: [modifier onlyOwner] of the imported [Ownable]
    base contract, "every owner-gated operation fails with [Unauthorized]
    for any other caller". *)
Definition onlyOwner (sender : address) : M unit :=
  let! owner := gets _owner in
  if negb (owner =? sender) then fail (OwnableUnauthorizedAccount sender) else ret tt.

(** [function _createToken(...) internal] *)
Definition _createToken (tokenId : uint256) (name description : string)
    (maxSupply : uint256) : M unit :=
  modify (set_info tokenId (mkTokenInfo name description maxSupply 0 true)).

(** [function createToken(uint256 tokenId, string name, string description,
    uint256 maxSupply) external onlyOwner] *)
Definition createToken (sender : address) (tokenId : uint256)
    (name description : string) (maxSupply : uint256) : M unit :=
  onlyOwner sender ;;
  let! i := gets (fun s => info s tokenId) in
  require (negb (isActive i)) "Token already exists" ;;
  require (0 <? maxSupply) "Max supply must be greater than 0" ;;
  _createToken tokenId name description maxSupply.

(** [function mint(address to, uint256 tokenId, uint256 amount) external
    onlyOwner].  The sum [currentSupply + amount] is computed once for the
    test and once for the assignment, each time with the overflow check. *)
Definition mint (sender to : address) (tokenId amount : uint256) : M unit :=
  onlyOwner sender ;;
  let! i := gets (fun s => info s tokenId) in
  require (isActive i) "Token does not exist" ;;
  let! total := Exec.add (currentSupply i) amount in
  require (total <=? maxSupply i) "Exceeds max supply" ;;
  let! supply := Exec.add (currentSupply i) amount in
  modify (set_currentSupply tokenId supply) ;;
  _mint sender to tokenId amount.

(** The first loop of [mintBatch]: pair [i] is validated against the
    supply left by pairs [0..i-1] and then counted, before pair [i+1] is
    looked at. *)
Fixpoint mintBatch_loop (tokenIds amounts : list uint256) : M unit :=
  match tokenIds, amounts with
  | [], _ => ret tt
  | tokenId :: tokenIds', amount :: amounts' =>
      let! i := gets (fun s => info s tokenId) in
      require (isActive i) "Token does not exist" ;;
      let! total := Exec.add (currentSupply i) amount in
      require (total <=? maxSupply i) "Exceeds max supply" ;;
      let! supply := Exec.add (currentSupply i) amount in
      modify (set_currentSupply tokenId supply) ;;
      mintBatch_loop tokenIds' amounts'
  | _ :: _, [] => fail (Panic PANIC_INDEX)
  end.

(** [function mintBatch(address to, uint256[] tokenIds, uint256[] amounts)
    external onlyOwner] *)
Definition mintBatch (sender to : address) (tokenIds amounts : list uint256) : M unit :=
  onlyOwner sender ;;
  require (N.of_nat (length tokenIds) =? N.of_nat (length amounts))
          "Arrays length mismatch" ;;
  mintBatch_loop tokenIds amounts ;;
  _mintBatch sender to tokenIds amounts.

(** [function burn(address from, uint256 tokenId, uint256 amount) external]:
    the supply is lowered, with the underflow check, before [_burn] looks
    at the balance. *)
Definition burn (sender from : address) (tokenId amount : uint256) : M unit :=
  let! owner := gets _owner in
  require ((sender =? from) || (sender =? owner)) "Not authorized to burn" ;;
  let! i := gets (fun s => info s tokenId) in
  let! supply := Exec.sub (currentSupply i) amount in
  modify (set_currentSupply tokenId supply) ;;
  _burn sender from tokenId amount.

(** An external call into the stable-coin contract: a revert there
    bubbles up, otherwise the ledger is replaced and the returned boolean
    handed back. *)
Definition external (c : ledger -> option (bool * ledger)) : M bool :=
  let! l := gets usdc in
  match c l with
  | None => fail ExternalCallReverted
  | Some (b, l') => modify (set_usdc l') ;; ret b
  end.

(** [function payback(address from, uint256 tokenId, uint256 tokenAmount,
    uint256 usdcAmount) external onlyOwner] *)
Definition payback (sender from : address) (tokenId tokenAmount usdcAmount : uint256)
  : M unit :=
  onlyOwner sender ;;
  let! i := gets (fun s => info s tokenId) in
  require (isActive i) "Token does not exist" ;;
  require (0 <? tokenAmount) "Token amount must be greater than 0" ;;
  let! holding := gets (fun s => balanceOf s from tokenId) in
  require (tokenAmount <=? holding) "Insufficient token balance" ;;
  require (0 <? usdcAmount) "USDC amount must be greater than 0" ;;
  let! self := gets this in
  let! treasury := gets (fun s => balanceOf_usdc (usdc s) self) in
  require (usdcAmount <=? treasury) "Insufficient USDC balance" ;;
  let! supply := Exec.sub (currentSupply i) tokenAmount in
  modify (set_currentSupply tokenId supply) ;;
  _burn sender from tokenId tokenAmount ;;
  let! sent := external (transfer_usdc self from usdcAmount) in
  require sent "USDC transfer failed".

(** [function payDividend(address to, uint256 usdcAmount) external onlyOwner] *)
Definition payDividend (sender to : address) (usdcAmount : uint256) : M unit :=
  onlyOwner sender ;;
  require (negb (to =? 0)) "Invalid recipient address" ;;
  require (0 <? usdcAmount) "USDC amount must be greater than 0" ;;
  let! self := gets this in
  let! treasury := gets (fun s => balanceOf_usdc (usdc s) self) in
  require (usdcAmount <=? treasury) "Insufficient USDC balance" ;;
  let! sent := external (transfer_usdc self to usdcAmount) in
  require sent "USDC transfer failed".

(** [function getUSDCBalance() external view] *)
Definition getUSDCBalance : M uint256 :=
  let! self := gets this in
  gets (fun s => balanceOf_usdc (usdc s) self).

(** [function withdrawUSDC(uint256 amount) external onlyOwner] *)
Definition withdrawUSDC (sender : address) (amount : uint256) : M unit :=
  onlyOwner sender ;;
  require (0 <? amount) "Amount must be greater than 0" ;;
  let! self := gets this in
  let! treasury := gets (fun s => balanceOf_usdc (usdc s) self) in
  require (amount <=? treasury) "Insufficient USDC balance" ;;
  let! owner := gets _owner in
  let! sent := external (transfer_usdc self owner amount) in
  require sent "USDC transfer failed".

(** [function addUSDC(uint256 amount) external onlyOwner] *)
Definition addUSDC (sender : address) (amount : uint256) : M unit :=
  onlyOwner sender ;;
  require (0 <? amount) "Amount must be greater than 0" ;;
  let! wallet := gets (fun s => balanceOf_usdc (usdc s) sender) in
  require (amount <=? wallet) "Insufficient USDC balance in wallet" ;;
  let! self := gets this in
  let! sent := external (transferFrom_usdc self sender self amount) in
  require sent "USDC transfer failed".

(** [function updateTokenInfo(uint256 tokenId, string name, string
    description) external onlyOwner] *)
Definition updateTokenInfo (sender : address) (tokenId : uint256)
    (name description : string) : M unit :=
  onlyOwner sender ;;
  let! i := gets (fun s => info s tokenId) in
  require (isActive i) "Token does not exist" ;;
  modify (set_info tokenId
            (mkTokenInfo name description (maxSupply i) (currentSupply i) (isActive i))).

(** [function setBaseURI(string newBaseURI) external onlyOwner] *)
Definition setBaseURI (sender : address) (newBaseURI : list byte) : M unit :=
  onlyOwner sender ;;
  modify (set_baseURI newBaseURI).

(** [function getTokenInfo(uint256 tokenId) external view returns (string
    name, string description, uint256 maxSupply, uint256 currentSupply,
    bool isActive)] *)
Definition getTokenInfo (tokenId : uint256)
  : M (string * string * uint256 * uint256 * bool) :=
  let! i := gets (fun s => info s tokenId) in
  ret (name i, description i, maxSupply i, currentSupply i, isActive i).

End SecretOfTheDeepNFT.

(** ** Metadata URI *)
Section URI.
Context {St : Type}.
#[local] Abbreviation M := (Exec.t St).

(** [b[i]] as an rvalue *)
Definition load (b : list byte) (i : nat) : M byte :=
  match b !! i with
  | Some x => ret x
  | None => fail (Panic PANIC_INDEX)
  end.

(** [b[i] = x] *)
Definition store (b : list byte) (i : nat) (x : byte) : M (list byte) :=
  if (i <? length b)%nat then ret (<[i := x]> b) else fail (Panic PANIC_INDEX).

(** checked [a - b] on a length *)
Definition sub_index (a b : nat) : M nat :=
  if (b <=? a)%nat then ret (a - b)%nat else fail (Panic PANIC_ARITHMETIC).

(** [bytes16 private constant _HEX_SYMBOLS = "0123456789abcdef"] *)
Definition _HEX_SYMBOLS : list byte := list_byte_of_string "0123456789abcdef".

(** [while (temp != 0) { digits++; temp >>= 4; }]; 64 rounds exhaust a
    256-bit value.  The source never reads [digits] afterwards. *)
Fixpoint _toHexString_digits (fuel : nat) (temp digits : uint256) : uint256 :=
  match fuel with
  | O => digits
  | S fuel' =>
      if temp =? 0 then digits
      else _toHexString_digits fuel' (N.shiftr temp 4) (digits + 1)
  end.

(** [for (uint256 i = 64; i > 0; i--) { buffer[i - 1] = ...; value >>= 4; }],
    entered with [i] rounds to go *)
Fixpoint _toHexString_for (i : nat) (buffer : list byte) (value : uint256)
  : M (list byte) :=
  match i with
  | O => ret buffer
  | S i' =>
      let! c := load _HEX_SYMBOLS (N.to_nat (N.land value 15)) in
      let! buffer := store buffer i' c in
      _toHexString_for i' buffer (N.shiftr value 4)
  end.

Definition _toHexString (value : uint256) : M (list byte) :=
  if value =? 0 then
    ret (list_byte_of_string
           "0000000000000000000000000000000000000000000000000000000000000000")
  else
    let digits := _toHexString_digits 64 value 0 in
    _toHexString_for 64 (replicate 64 x00) value.

(** The test for the pattern [{id}] at position [i]; [&&] reads the next
    byte only when the previous one matched. *)
Definition uri_match (templateBytes : list byte) (i : nat) : M bool :=
  let! c0 := load templateBytes i in
  if negb (Byte.eqb c0 x7b) then ret false else
  let! c1 := load templateBytes (i + 1) in
  if negb (Byte.eqb c1 x69) then ret false else
  let! c2 := load templateBytes (i + 2) in
  if negb (Byte.eqb c2 x64) then ret false else
  let! c3 := load templateBytes (i + 3) in
  ret (Byte.eqb c3 x7d).

(** [for (j = 0; j < tokenIdBytes.length; j++) { result[resultIndex] =
    tokenIdBytes[j]; resultIndex++; }] *)
Fixpoint uri_put (tokenIdBytes result : list byte) (resultIndex : nat)
  : M (list byte * nat) :=
  match tokenIdBytes with
  | [] => ret (result, resultIndex)
  | b :: rest =>
      let! result := store result resultIndex b in
      uri_put rest result (resultIndex + 1)
  end.

(** The scanning loop of [uri], entered at index [i]; every round
    advances [i], so [length templateBytes] rounds are enough. *)
Fixpoint uri_for (fuel : nat) (tokenId : uint256) (templateBytes : list byte)
    (i : nat) (result : list byte) (resultIndex : nat) : M (list byte * nat) :=
  if negb (i <? length templateBytes)%nat then ret (result, resultIndex) else
  match fuel with
  | O => fail OutOfGas
  | S fuel' =>
      let! bound := sub_index (length templateBytes) 3 in
      if (i <? bound)%nat then
        let! found := uri_match templateBytes i in
        if found then
          let! tokenIdBytes := _toHexString tokenId in
          let! (result, resultIndex) := uri_put tokenIdBytes result resultIndex in
          uri_for fuel' tokenId templateBytes (i + 3 + 1) result resultIndex
        else
          let! c := load templateBytes i in
          let! result := store result resultIndex c in
          uri_for fuel' tokenId templateBytes (i + 1) result (resultIndex + 1)
      else
        let! c := load templateBytes i in
        let! result := store result resultIndex c in
        uri_for fuel' tokenId templateBytes (i + 1) result (resultIndex + 1)
  end.

(** [for (i = 0; i < resultIndex; i++) { finalResult[i] = result[i]; }],
    entered at index [i] with [n] rounds to go *)
Fixpoint uri_trim (n i : nat) (result finalResult : list byte) : M (list byte) :=
  match n with
  | O => ret finalResult
  | S n' =>
      let! c := load result i in
      let! finalResult := store finalResult i c in
      uri_trim n' (i + 1) result finalResult
  end.

(** The body of [uri] after its [require]: the template resolver. *)
Definition resolve (template : list byte) (tokenId : uint256) : M (list byte) :=
  let templateBytes := template in
  let result := replicate (length templateBytes + 64) x00 in
  let! (result, resultIndex) :=
    uri_for (length templateBytes) tokenId templateBytes 0 result 0 in
  uri_trim resultIndex 0 result (replicate resultIndex x00).

End URI.

(** [function uri(uint256 tokenId) public view] *)
Definition uri {ledger : Type} (tokenId : uint256) : Exec.t (State ledger) (list byte) :=
  let! i := gets (fun s => info s tokenId) in
  require (isActive i) "Token does not exist" ;;
  let! template := gets _baseURI in
  resolve template tokenId.

(** ** Deployment *)

Definition POLYGON_USDC : address := 0x3c499c542cEF5E3811e1192ce70d8cC03d5c3359.

(** [constructor() ERC1155("") Ownable(msg.sender)], run by [deployer] for
    a contract placed at address [self], next to a stable-coin ledger in
    state [l]. *)
Definition constructor {ledger : Type} (deployer self : address) (l : ledger)
  : State ledger :=
  let s0 := mkState self deployer ∅ ∅ ∅
    (list_byte_of_string
       "https://raw.githubusercontent.com/davevurby/nft-secret-of-the-deep/refs/heads/main/metadata/{id}.json")
    POLYGON_USDC l in
  let s1 := set_info 1 (mkTokenInfo "GOLD" "Gold" 25 0 true) s0 in
  let s2 := set_info 2 (mkTokenInfo "SILVER" "Silver" 20 0 true) s1 in
  set_info 3 (mkTokenInfo "BRONZE" "Bronze" 50 0 true) s2.

(** ** A reference stable-coin ledger

    Modelled from the spec: the external stable-coin contract, which is not
    part of the repository: "standard balance/transfer/transferFrom/allowance
    operations on an external account".  Transfers revert on a zero
    counterpart, on a balance that is too small and on an allowance that is
    too small, and return [true] otherwise; an allowance of [MAX_UINT256]
    is not consumed. *)
Module ERC20.

Record t : Type := mk {
  balances : gmap address uint256;
  allowances : gmap (address * address) uint256;
}.

Definition balanceOf (l : t) (account : address) : uint256 :=
  default 0 (balances l !! account).

Definition allowance (l : t) (owner spender : address) : uint256 :=
  default 0 (allowances l !! (owner, spender)).

Definition _transfer (from to : address) (value : uint256) (l : t) : option t :=
  if (from =? 0) || (to =? 0) then None
  else if balanceOf l from <? value then None
  else
    let b := <[from := balanceOf l from - value]> (balances l) in
    let b := <[to := default 0 (b !! to) + value]> b in
    Some (mk b (allowances l)).

Definition transfer (sender to : address) (value : uint256) (l : t) : option (bool * t) :=
  match _transfer sender to value l with
  | Some l' => Some (true, l')
  | None => None
  end.

Definition _spendAllowance (owner spender : address) (value : uint256) (l : t)
  : option t :=
  let currentAllowance := allowance l owner spender in
  if currentAllowance <? MAX_UINT256 then
    if currentAllowance <? value then None
    else Some (mk (balances l)
                  (<[(owner, spender) := currentAllowance - value]> (allowances l)))
  else Some l.

Definition transferFrom (spender from to : address) (value : uint256) (l : t)
  : option (bool * t) :=
  match _spendAllowance from spender value l with
  | Some l1 =>
      match _transfer from to value l1 with
      | Some l2 => Some (true, l2)
      | None => None
      end
  | None => None
  end.

End ERC20.

#[export] Instance ERC20_IUSDC : IUSDC ERC20.t := {
  balanceOf_usdc := ERC20.balanceOf;
  transfer_usdc := ERC20.transfer;
  transferFrom_usdc := ERC20.transferFrom;
}.

(** Receivers without code: every transfer is accepted. *)
Definition plain_accounts : IERC1155Receiver := {| accepts := fun _ _ _ => true |}.

(** ** The event scanner ([scripts/domain/get-token-events.ts])

    Block numbers, timestamps, chunk sizes and the token id a caller asks
    for are JavaScript numbers holding integers; they are modelled in [Z],
    and so are the [bigint] ids and amounts of a log entry.  The pause
    between two chunk queries and the formatting of [dateTime] are not
    modelled. *)
Module Scanner.

Open Scope Z_scope.

Inductive EventName : Type := TransferSingle | TransferBatch.

Inductive Args : Type :=
| ArgsSingle (from to : string) (id value : Z)
| ArgsBatch (from to : string) (ids values : list Z).

(** A log entry as the provider returns it. *)
Record Event : Type := mkEvent {
  blockNumber : Z;
  logIndex : Z;
  transactionHash : string;
  args : Args;
}.

Definition eventName (e : Event) : EventName :=
  match args e with
  | ArgsSingle _ _ _ _ => TransferSingle
  | ArgsBatch _ _ _ _ => TransferBatch
  end.

Record Block : Type := mkBlock { number : Z; timestamp : Z }.

(** What a rejected promise carries. *)
Inductive Thrown : Type :=
| ErrorObject (message : string)
| OtherValue.

(** The requests a scan sends to the remote ledger, in the order sent. *)
Inductive Request : Type :=
| ReqBlockNumber
| ReqQuery (kind : EventName) (fromBlock toBlock : Z)
| ReqBlock (e : Event).

(** The remote ledger.  Each answer may depend on how many requests were
    sent before it, so that a remote whose answers change while the scan
    runs is covered. *)
Record Provider : Type := mkProvider {
  getBlockNumber : nat -> Thrown + Z;
  queryFilter : nat -> EventName -> Z -> Z -> Thrown + list Event;
  getBlock : nat -> Event -> Thrown + Block;
}.

Record Contract : Type := mkContract { runner_provider : option Provider }.

(** *** Asynchronous computations

    A computation returns, throws, or has not finished when the fuel of
    the model ran out; it extends the list of requests sent so far. *)
Inductive Completion (A : Type) : Type :=
| Return (a : A)
| Throw (e : Thrown)
| Unfinished.
Arguments Return {A} a.
Arguments Throw {A} e.
Arguments Unfinished {A}.

Definition Async (A : Type) : Type := list Request -> Completion A * list Request.

Definition pure {A} (a : A) : Async A := fun tr => (Return a, tr).

Definition throw {A} (e : Thrown) : Async A := fun tr => (Throw e, tr).

Definition unfinished {A} : Async A := fun tr => (Unfinished, tr).

Definition await {A B} (m : Async A) (k : A -> Async B) : Async B :=
  fun tr => match m tr with
            | (Return a, tr') => k a tr'
            | (Throw e, tr') => (Throw e, tr')
            | (Unfinished, tr') => (Unfinished, tr')
            end.

(** [try { m; k } catch (e) { h }] where only [m] can throw *)
Definition try_catch {A B} (m : Async A) (k : A -> Async B) (h : Thrown -> Async B)
  : Async B :=
  fun tr => match m tr with
            | (Return a, tr') => k a tr'
            | (Throw e, tr') => h e tr'
            | (Unfinished, tr') => (Unfinished, tr')
            end.

Definition request {A} (r : Request) (answer : nat -> Thrown + A) : Async A :=
  fun tr => (match answer (length tr) with
             | inl e => Throw e
             | inr a => Return a
             end, tr ++ [r]).

(** [error instanceof Error && error.message.includes("range is too large")] *)
Definition is_range_too_large (error : Thrown) : bool :=
  match error with
  | ErrorObject message =>
      match String.index 0 "range is too large" message with
      | Some _ => true
      | None => false
      end
  | OtherValue => false
  end.

(** [!startFrom] for [startFrom : number | undefined] *)
Definition falsy (fromBlock : option Z) : bool :=
  match fromBlock with
  | None => true
  | Some b => b =? 0
  end.

(** The two queries of one chunk; nothing is kept of the first when the
    second fails. *)
Definition query_chunk (provider : Provider) (startBlock endBlock : Z)
  : Async (list Event) :=
  await (request (ReqQuery TransferSingle startBlock endBlock)
           (fun n => queryFilter provider n TransferSingle startBlock endBlock))
    (fun singleEvents =>
  await (request (ReqQuery TransferBatch startBlock endBlock)
           (fun n => queryFilter provider n TransferBatch startBlock endBlock))
    (fun batchEvents => pure (singleEvents ++ batchEvents))).

(** [getAllEventsInChunks] and its [for] loop.  [chunks] is the loop
    entered with the current [startBlock] and the events pushed so far;
    one unit of fuel is spent per round and per recursive call. *)
Fixpoint getAllEventsInChunks (fuel : nat) (contract : Contract)
    (fromBlock : option Z) (chunkSize : Z) {struct fuel} : Async (list Event) :=
  match fuel with
  | O => unfinished
  | S fuel' =>
      match runner_provider contract with
      | None => throw (ErrorObject "No provider found")
      | Some provider =>
          await (request ReqBlockNumber (getBlockNumber provider))
            (fun currentBlock =>
               let startFrom :=
                 if falsy fromBlock
                 then let blocksToScanBack := 100000 in
                      Z.max 0 (currentBlock - blocksToScanBack)
                 else default 0 fromBlock in
               chunks fuel' contract provider currentBlock chunkSize startFrom [])
      end
  end
with chunks (fuel : nat) (contract : Contract) (provider : Provider)
    (currentBlock chunkSize startBlock : Z) (allEvents : list Event) {struct fuel}
  : Async (list Event) :=
  match fuel with
  | O => unfinished
  | S fuel' =>
      if negb (startBlock <=? currentBlock) then pure allEvents else
      let endBlock := Z.min (startBlock + chunkSize - 1) currentBlock in
      if startBlock >? endBlock then pure allEvents else
      try_catch (query_chunk provider startBlock endBlock)
        (fun events =>
           chunks fuel' contract provider currentBlock chunkSize
                  (startBlock + chunkSize) (allEvents ++ events))
        (fun error =>
           if is_range_too_large error then
             let smallerChunkSize := Z.max 10 (chunkSize / 10) in
             try_catch
               (getAllEventsInChunks fuel' contract (Some startBlock) smallerChunkSize)
               (fun smallerEvents =>
                  (* startBlock = endBlock; then the loop's startBlock += chunkSize *)
                  chunks fuel' contract provider currentBlock chunkSize
                         (endBlock + chunkSize) (allEvents ++ smallerEvents))
               (fun nestedError =>
                  chunks fuel' contract provider currentBlock chunkSize
                         (startBlock + chunkSize) allEvents)
           else
             chunks fuel' contract provider currentBlock chunkSize
                    (startBlock + chunkSize) allEvents)
  end.

(** *** [getTokenEvents] *)

Record Stamped : Type := mkStamped {
  st_event : Event;
  st_timestamp : Z;
  st_blockNumber : Z;
}.

(** [Promise.all(allEvents.map(async (event) => ...))]: one [getBlock]
    request per event, all of them sent, in the order of the list; the
    whole fails when one of them fails (with the failure of the first such
    event of the list). *)
Fixpoint stamp_all (provider : Provider) (allEvents : list Event) : Async (list Stamped) :=
  match allEvents with
  | [] => pure []
  | event :: rest =>
      fun tr =>
        let answer := getBlock provider (length tr) event in
        let (others, tr') := stamp_all provider rest (tr ++ [ReqBlock event]) in
        (match answer, others with
         | inl e, _ => Throw e
         | inr block, Return stamped =>
             Return (mkStamped event (timestamp block) (number block) :: stamped)
         | inr _, Throw e => Throw e
         | inr _, Unfinished => Unfinished
         end, tr')
  end.

(** [Array.prototype.sort] with the comparator
    [(a, b) => a.timestamp - b.timestamp].  The built-in sort is stable;
    it is modelled by a stable insertion sort. *)
Fixpoint sort_insert (a : Stamped) (l : list Stamped) : list Stamped :=
  match l with
  | [] => [a]
  | b :: l' =>
      if st_timestamp a - st_timestamp b <=? 0 then a :: b :: l'
      else b :: sort_insert a l'
  end.

Definition sort (l : list Stamped) : list Stamped := foldr sort_insert [] l.

(** The order the result is to be in. *)
Definition by_timestamp (a b : Stamped) : Prop := st_timestamp a <= st_timestamp b.

Inductive EventType : Type := single | batch.

(** [Number(x)] for a [bigint] [x]: the double nearest to [x], the one with
    the even significand when two are equally near.  Integers of up to 53
    bits are kept as they are, longer ones are rounded to 53 significant
    bits.  The result is finite below [2^1024], which covers the [uint256]
    values of a log entry. *)
Definition Number (x : Z) : Z :=
  let m := Z.abs x in
  let e := Z.log2 m - 52 in
  if e <=? 0 then x else
  let q := Z.shiftr m e in
  let r := Z.land m (Z.ones e) in
  let half := Z.shiftl 1 (e - 1) in
  let q' := if (half <? r) || ((r =? half) && Z.odd q) then q + 1 else q in
  Z.sgn x * Z.shiftl q' e.

(** What the field [amounts] of an event holds.  The interface declares an
    array of [bigint].  [getTokenEvents] stores [args.values] there, and
    [args] is a [Result] of the ethers library, an [Array] that answers a
    property name with the argument of that name only where [Array] has no
    property of that name: [args.values] is the method [values] that
    [Array] inherits, not the argument [values] of the event. *)
Inductive Amounts : Type :=
| AmountsArray (amounts : list Z)
| ArrayValuesMethod.

(** [interface TokenTransferEvent], without [dateTime] *)
Record TokenTransferEvent : Type := mkTokenTransferEvent {
  eventType : EventType;
  tte_blockNumber : Z;
  tte_timestamp : Z;
  tte_from : string;
  tte_to : string;
  tokenId : option Z;
  amount : option Z;
  tokenIds : option (list Z);
  amounts : option Amounts;
  tte_transactionHash : string;
}.

(** One round of the loop that converts the events: the object pushed for
    [event] with its [timestamp] and [blockNumber]. *)
Definition convert (x : Stamped) : TokenTransferEvent :=
  let event := st_event x in
  match args event with
  | ArgsSingle from to id value =>
      mkTokenTransferEvent single (st_blockNumber x) (st_timestamp x) from to
        (Some (Number id)) (Some value) None None (transactionHash event)
  | ArgsBatch from to ids values =>
      mkTokenTransferEvent batch (st_blockNumber x) (st_timestamp x) from to
        None None (Some (map Number ids)) (Some ArrayValuesMethod)
        (transactionHash event)
  end.

Record EventsData : Type := mkEventsData {
  totalEvents : nat;
  singleTransfers : nat;
  batchTransfers : nat;
  events : list TokenTransferEvent;
}.

(** [interface TokenEventsInfo] *)
Record TokenEventsInfo : Type := mkTokenEventsInfo {
  success : bool;
  error : option string;
  data : option EventsData;
}.

Definition is_single (e : TokenTransferEvent) : bool :=
  match eventType e with single => true | batch => false end.

Definition is_batch (e : TokenTransferEvent) : bool :=
  match eventType e with single => false | batch => true end.

(** [getTokenEvents]; [contract] is what [ethers.getContractAt] resolved
    to.  The default chunk size of [getAllEventsInChunks] is 100. *)
Definition getTokenEvents (fuel : nat) (contract : Contract) (fromBlock : option Z)
  : Async TokenEventsInfo :=
  try_catch
    (await (getAllEventsInChunks fuel contract fromBlock 100)
       (fun allEvents =>
          match runner_provider contract with
          | None => throw (ErrorObject "No provider found")
          | Some provider => stamp_all provider allEvents
          end))
    (fun eventsWithTimestamps =>
       let sorted := sort eventsWithTimestamps in
       let events := map convert sorted in
       pure (mkTokenEventsInfo true None
               (Some (mkEventsData (length events)
                        (length (filter (fun e => is_single e = true) events))
                        (length (filter (fun e => is_batch e = true) events))
                        events))))
    (fun error =>
       pure (mkTokenEventsInfo false
               (Some (match error with
                      | ErrorObject message => message
                      | OtherValue => "Unknown error occurred"%string
                      end))
               None)).

(** *** The views on [getTokenEvents] *)

(** [function isZeroAddress(address: string): boolean] *)
Definition isZeroAddress (address : string) : bool :=
  String.eqb address "0x0000000000000000000000000000000000000000".

(** [dateRange]: the source reports the [dateTime] of the first and of the
    last event, which is the ISO rendering of their timestamps; the model
    keeps the timestamps, and [None] stands for the empty string. *)
Record DateRange : Type := mkDateRange {
  earliest : option Z;
  latest : option Z;
}.

Record SummaryData : Type := mkSummaryData {
  sd_totalEvents : nat;
  sd_singleTransfers : nat;
  sd_batchTransfers : nat;
  uniqueAddresses : nat;
  totalTokensTransferred : Z;
  dateRange : DateRange;
}.

(** [interface TokenEventsSummary] *)
Record TokenEventsSummary : Type := mkTokenEventsSummary {
  ts_success : bool;
  ts_error : option string;
  ts_data : option SummaryData;
}.

(** One round of the loop of [getTokenEventsSummary] over the set of
    addresses and the running total.  In a condition a [bigint] counts as
    true unless it is zero, an array and a function always.  The inner
    [for ... of] runs over an array; over a function it throws a
    [TypeError], the function not being iterable. *)
Definition summary_step (acc : gset string * Z) (event : TokenTransferEvent)
  : Thrown + gset string * Z :=
  let (uniqueAddresses, totalTokensTransferred) := acc in
  let uniqueAddresses :=
    if negb (isZeroAddress (tte_from event))
    then uniqueAddresses ∪ {[ tte_from event ]} else uniqueAddresses in
  let uniqueAddresses :=
    if negb (isZeroAddress (tte_to event))
    then uniqueAddresses ∪ {[ tte_to event ]} else uniqueAddresses in
  match eventType event, amount event, amounts event with
  | single, Some amount, _ =>
      inr (uniqueAddresses,
           if amount =? 0 then totalTokensTransferred
           else totalTokensTransferred + amount)
  | batch, _, Some (AmountsArray amounts) =>
      inr (uniqueAddresses, fold_left Z.add amounts totalTokensTransferred)
  | batch, _, Some ArrayValuesMethod =>
      inl (ErrorObject "event.amounts is not iterable")
  | _, _, _ => inr (uniqueAddresses, totalTokensTransferred)
  end.

(** [for (const event of events) { ... }] *)
Fixpoint summary_loop (events : list TokenTransferEvent) (acc : gset string * Z)
  : Thrown + gset string * Z :=
  match events with
  | [] => inr acc
  | event :: rest =>
      match summary_step acc event with
      | inl e => inl e
      | inr acc' => summary_loop rest acc'
      end
  end.

(** [getTokenEventsSummary]; the whole body is inside the [try]. *)
Definition getTokenEventsSummary (fuel : nat) (contract : Contract) (fromBlock : option Z)
  : Async TokenEventsSummary :=
  try_catch
    (await (getTokenEvents fuel contract fromBlock)
       (fun eventsResult =>
          match success eventsResult, data eventsResult with
          | true, Some d =>
              let events := events d in
              match summary_loop events (∅, 0) with
              | inl e => throw e
              | inr (uniqueAddresses, totalTokensTransferred) =>
                  let dateRange :=
                    match events with
                    | [] => mkDateRange None None
                    | first :: _ =>
                        mkDateRange (Some (tte_timestamp first))
                                    (Some (tte_timestamp (List.last events first)))
                    end in
                  pure (mkTokenEventsSummary true None
                          (Some (mkSummaryData (length events) (singleTransfers d)
                                   (batchTransfers d) (size uniqueAddresses)
                                   totalTokensTransferred dateRange)))
              end
          | _, _ => pure (mkTokenEventsSummary false (error eventsResult) None)
          end))
    pure
    (fun error =>
       pure (mkTokenEventsSummary false
               (Some (match error with
                      | ErrorObject message => message
                      | OtherValue => "Unknown error occurred"%string
                      end))
               None)).

(** The callback of [filter] in [getTokenEventsForToken]:
    [event.tokenId === tokenId] for a single transfer,
    [event.tokenIds?.includes(tokenId)] for a batch. *)
Definition about_token (tokenId' : Z) (event : TokenTransferEvent) : bool :=
  match eventType event with
  | single =>
      match tokenId event with
      | Some id => id =? tokenId'
      | None => false
      end
  | batch =>
      match tokenIds event with
      | Some ids => existsb (Z.eqb tokenId') ids
      | None => false
      end
  end.

(** What [getTokenEventsForToken] and [getTokenEventsForAddress] do with
    the result of [getTokenEvents], from the test of [eventsResult] to the
    object returned; [keep] is the callback of their [filter]. *)
Definition filtered_view (eventsResult : TokenEventsInfo)
    (keep : TokenTransferEvent -> bool) : TokenEventsInfo :=
  match success eventsResult, data eventsResult with
  | true, Some d =>
      let filteredEvents := List.filter keep (events d) in
      mkTokenEventsInfo true None
        (Some (mkEventsData (length filteredEvents)
                 (length (filter (fun e => is_single e = true) filteredEvents))
                 (length (filter (fun e => is_batch e = true) filteredEvents))
                 filteredEvents))
  | _, _ => mkTokenEventsInfo false (error eventsResult) None
  end.

(** The [catch] block of the two. *)
Definition caught (error : Thrown) : TokenEventsInfo :=
  mkTokenEventsInfo false
    (Some (match error with
           | ErrorObject message => message
           | OtherValue => "Unknown error occurred"%string
           end))
    None.

(** [getTokenEventsForToken] *)
Definition getTokenEventsForToken (fuel : nat) (contract : Contract) (tokenId : Z)
    (fromBlock : option Z) : Async TokenEventsInfo :=
  try_catch (getTokenEvents fuel contract fromBlock)
    (fun eventsResult => pure (filtered_view eventsResult (about_token tokenId)))
    (fun error => pure (caught error)).





End Scanner.

(** ** The scripts that read the contract

    [getAllTokens] of the metadata reader and [getCurrentBaseURI] of the
    metadata updater.  A script reads the contract through view calls,
    which are answered from the contract state [s]; a view call that
    cannot reach the remote ledger is not modelled.  A string is the list
    of the bytes of its UTF-8 encoding. *)
Module Scripts.

(** [interface TokenMetadata], without [metadata] and [statusCode] *)
Record TokenMetadata : Type := mkTokenMetadata {
  tm_id : uint256;
  tm_name : string;
  tm_description : string;
  tm_maxSupply : uint256;
  tm_currentSupply : uint256;
  tm_isActive : bool;
  tm_uri : list byte;
  accessible : bool;
}.

Section Reading.
Context {ledger : Type}.
Implicit Types s : State ledger.

(** The loop of [getAllTokens], entered at [i] with [rounds] rounds to go:
    a view call that fails leaves the loop. *)
Fixpoint getAllTokens_for (rounds : nat) (i : uint256) s (tokens : list TokenMetadata)
  : list TokenMetadata :=
  match rounds with
  | O => tokens
  | S rounds' =>
      match call (getTokenInfo i) s with
      | (Reverted _, _) => tokens
      | (Ok (name, description, maxSupply, currentSupply, isActive), _) =>
          if isActive then
            match call (uri i) s with
            | (Reverted _, _) => tokens
            | (Ok uri, _) =>
                getAllTokens_for rounds' (i + 1) s
                  (tokens ++ [mkTokenMetadata i name description maxSupply currentSupply
                                isActive uri false])
            end
          else getAllTokens_for rounds' (i + 1) s tokens
      end
  end.

(** [getAllTokens(nftContract, maxTokenIds)] *)
Definition getAllTokens s (maxTokenIds : nat) : list TokenMetadata :=
  getAllTokens_for maxTokenIds 1 s [].

(** [str.startsWith(searchValue)] *)
Fixpoint starts_with (searchValue str : list byte) : bool :=
  match searchValue, str with
  | [], _ => true
  | a :: searchValue', b :: str' => Byte.eqb a b && starts_with searchValue' str'
  | _ :: _, [] => false
  end.

(** [str.replace(searchValue, replaceValue)] for a string [searchValue]:
    the first occurrence is replaced.  The pattern used below is one ASCII
    character, which matches no part of a longer UTF-8 sequence. *)
Fixpoint replace (searchValue replaceValue str : list byte) : list byte :=
  if starts_with searchValue str
  then replaceValue ++ drop (length searchValue) str
  else match str with
       | [] => []
       | c :: rest => c :: replace searchValue replaceValue rest
       end.

(** [getCurrentBaseURI(nftContract)]; a failure carries the error of the
    view call. *)
Definition getCurrentBaseURI s : Error + list byte :=
  match call (uri 1) s with
  | (Ok uri, _) => inr (replace (list_byte_of_string "1") (list_byte_of_string "{id}") uri)
  | (Reverted error, _) => inl error
  end.

End Reading.

End Scripts.

(** ** Notions used in the statements *)

Section Observables.
Context {ledger : Type}.
Implicit Types s : State ledger.

(** [_balances[id]], the holders of a token *)
Definition holders s (id : uint256) : gmap address uint256 :=
  default ∅ (_balances s !! id).

(** The sum of a holder map. *)
Definition total (m : gmap address uint256) : N :=
  map_fold (fun _ v acc => v + acc) 0 m.

(** The sum over all addresses of the balance of token [id]. *)
Definition sum_balances s (id : uint256) : N := total (holders s id).

(** What a batch carries for token [id']. *)
Fixpoint batch_total (id' : uint256) (ids values : list uint256) : N :=
  match ids, values with
  | id :: ids', v :: values' =>
      (if id =? id' then v else 0) + batch_total id' ids' values'
  | _, _ => 0
  end.


(** The treasury: the stable-coin balance of the contract's own account. *)
Definition treasury `{!IUSDC ledger} s : uint256 := balanceOf_usdc (usdc s) (this s).

(** What holds of the token records and holder balances in every state
    the contract can be in. *)
Definition ledger_inv s : Prop :=
  forall id,
    currentSupply (info s id) <= maxSupply (info s id) /\
    sum_balances s id = currentSupply (info s id) /\
    (isActive (info s id) = false -> currentSupply (info s id) = 0) /\
    balanceOf s 0 id = 0.

(** What an authorized [burn] of more than [from] holds runs into. *)
Definition burn_failure s (from : address) (id amount : uint256) : Error :=
  if currentSupply (info s id) <? amount then Panic PANIC_ARITHMETIC
  else if from =? 0 then ERC1155InvalidSender 0
  else ERC1155InsufficientBalance from (balanceOf s from id) amount id.

(** Two states with the same token records and holder balances. *)
Definition same_tokens s s' : Prop :=
  tokenInfo s' = tokenInfo s /\ _balances s' = _balances s /\ this s' = this s.

End Observables.

(** ** Transactions and reachable states *)
Section Reachable.
Context {ledger : Type} `{!IUSDC ledger} `{!IERC1155Receiver}.

Inductive Op : Type :=
| CreateToken (tokenId : uint256) (name description : string) (maxSupply : uint256)
| Mint (to : address) (tokenId amount : uint256)
| MintBatch (to : address) (tokenIds amounts : list uint256)
| Burn (from : address) (tokenId amount : uint256)
| Payback (from : address) (tokenId tokenAmount usdcAmount : uint256)
| PayDividend (to : address) (usdcAmount : uint256)
| WithdrawUSDC (amount : uint256)
| AddUSDC (amount : uint256)
| UpdateTokenInfo (tokenId : uint256) (name description : string)
| SetBaseURI (newBaseURI : list byte)
| SafeTransferFrom (from to : address) (id value : uint256)
| SafeBatchTransferFrom (from to : address) (ids values : list uint256).

Definition run (sender : address) (op : Op) : Exec.t (State ledger) unit :=
  match op with
  | CreateToken tokenId name description maxSupply =>
      createToken sender tokenId name description maxSupply
  | Mint to tokenId amount => mint sender to tokenId amount
  | MintBatch to tokenIds amounts => mintBatch sender to tokenIds amounts
  | Burn from tokenId amount => burn sender from tokenId amount
  | Payback from tokenId tokenAmount usdcAmount =>
      payback sender from tokenId tokenAmount usdcAmount
  | PayDividend to usdcAmount => payDividend sender to usdcAmount
  | WithdrawUSDC amount => withdrawUSDC sender amount
  | AddUSDC amount => addUSDC sender amount
  | UpdateTokenInfo tokenId name description =>
      updateTokenInfo sender tokenId name description
  | SetBaseURI newBaseURI => setBaseURI sender newBaseURI
  | SafeTransferFrom from to id value => safeTransferFrom sender from to id value
  | SafeBatchTransferFrom from to ids values =>
      safeBatchTransferFrom sender from to ids values
  end.

(** The operations that carry the [onlyOwner] modifier in the source. *)
Definition owner_only (op : Op) : bool :=
  match op with
  | Burn _ _ _ | SafeTransferFrom _ _ _ _ | SafeBatchTransferFrom _ _ _ _ => false
  | _ => true
  end.

(** The states the contract can be in: the state after deployment, the
    state after a call that did not revert, and any state that differs
    from a reachable one outside the token records and holder balances
    (a change of owner or of approvals, activity on the stable-coin
    ledger).  Arguments range over all of [N], which covers every
    [uint256] and every address. *)
Inductive reachable : State ledger -> Prop :=
| reachable_deployed (deployer self : address) (l : ledger) :
    reachable (constructor deployer self l)
| reachable_call s sender op s' :
    reachable s -> call (run sender op) s = (Ok tt, s') -> reachable s'
| reachable_outside s s' :
    reachable s -> same_tokens s s' -> reachable s'.

End Reachable.

(** ** Notions used in the statements about the URI *)

(** The placeholder, [{id}]. *)
Definition placeholder : list byte := [x7b; x69; x64; x7d].

Definition starts_with_placeholder (t : list byte) : bool :=
  match t with
  | c0 :: c1 :: c2 :: c3 :: _ =>
      Byte.eqb c0 x7b && Byte.eqb c1 x69 && Byte.eqb c2 x64 && Byte.eqb c3 x7d
  | _ => false
  end.

(** The number of positions of [t] at which the placeholder occurs. *)
Fixpoint count_placeholder (t : list byte) : nat :=
  match t with
  | [] => 0
  | _ :: t' => ((if starts_with_placeholder t then 1 else 0) + count_placeholder t')%nat
  end.

(** [t] with every occurrence of the placeholder replaced by [hex]. *)
Fixpoint substitute (hex : list byte) (t : list byte) : list byte :=
  match t with
  | [] => []
  | c0 :: t1 =>
      match t1 with
      | _ :: _ :: _ :: t4 =>
          if starts_with_placeholder t then hex ++ substitute hex t4
          else c0 :: substitute hex t1
      | _ => c0 :: substitute hex t1
      end
  end.

(** The hexadecimal digit of [d < 16]. *)
Definition hex_symbol (d : N) : byte :=
  default x00 (_HEX_SYMBOLS !! N.to_nat d).

(** The [n] lowest hexadecimal digits of [value], most significant first. *)
Fixpoint hex_digits (n : nat) (value : N) : list byte :=
  match n with
  | O => []
  | S n' => hex_digits n' (N.shiftr value 4) ++ [hex_symbol (N.land value 15)]
  end.

#[global] Arguments hex_digits : simpl never.

(** What the resolver does, as a function of the template and the token
    id alone. *)
Definition resolve_outcome (t : list byte) (tokenId : uint256) : Error + list byte :=
  match t with
  | [] => inr []
  | [_] | [_; _] => inl (Panic PANIC_ARITHMETIC)
  | _ =>
      if (count_placeholder t <=? 1)%nat
      then inr (substitute (hex_digits 64 tokenId) t)
      else inl (Panic PANIC_INDEX)
  end.

(** The value of a lowercase hexadecimal digit. *)
Definition digit_value (c : byte) : option N :=
  let n := Byte.to_N c in
  if (48 <=? n) && (n <=? 57) then Some (n - 48)        (* 0-9 *)
  else if (97 <=? n) && (n <=? 102) then Some (n - 87)  (* a-f *)
  else None.

(** The number a string of lowercase hexadecimal digits denotes. *)
Fixpoint hex_value_from (acc : N) (l : list byte) : option N :=
  match l with
  | [] => Some acc
  | c :: l' =>
      match digit_value c with
      | Some d => hex_value_from (16 * acc + d) l'
      | None => None
      end
  end.

Definition hex_value (l : list byte) : option N := hex_value_from 0 l.

(** ** Sample states

    A deployment by account [100] at address [200], next to a stable-coin
    ledger on which account [7] holds funds and has approved the
    contract, and the states reached from it by a few calls. *)
Module Sample.

#[local] Existing Instance plain_accounts.

Definition deployer : address := 100.
Definition self : address := 200.
Definition holder : address := 7.
Definition other : address := 9.

Definition coins : ERC20.t :=
  ERC20.mk {[ holder := 1000; self := 100000000; deployer := 500 ]}
           {[ (holder, self) := 1000; (deployer, self) := 500 ]}.

Definition deployed : State ERC20.t := constructor deployer self coins.

(** after [mint(holder, 3, 10)] *)
Definition minted : State ERC20.t := snd (call (mint deployer holder 3 10) deployed).

(** after [mint(other, 1, 20)] *)
Definition minted_other : State ERC20.t :=
  snd (call (mint deployer other 1 20) deployed).

(** The state the body of [burn(holder, 1, 5)], sent by [holder], has
    reached when it aborts in [minted_other]. *)
Definition burn_interrupted : State ERC20.t :=
  final (burn holder holder 1 5 minted_other).


(** a base URI with two placeholders *)
Definition two_placeholders : State ERC20.t :=
  set_baseURI (list_byte_of_string "{id}/{id}") deployed.

End Sample.

(** Remote ledgers for the scanner.  [rejecting limit log tip] holds the
    events of [log], has its tip at block [tip] and rejects every query
    that spans more than [limit] blocks; [limited tip] holds three
    transfers, in blocks 5, 120 and 205, and rejects what spans more than
    20 blocks. *)
Module ScanSample.

Import Scanner.
#[local] Open Scope Z_scope.

Definition transfer (block : Z) : Event :=
  mkEvent block 0 "0x5e"
    (ArgsSingle "0x0000000000000000000000000000000000000000"
                "0x0000000000000000000000000000000000000007" 1 1).

Definition log : list Event := [transfer 5; transfer 120; transfer 205].

Definition in_range (fromBlock toBlock : Z) (e : Event) : bool :=
  (fromBlock <=? blockNumber e) && (blockNumber e <=? toBlock).

Definition of_kind (kind : EventName) (e : Event) : bool :=
  match kind, eventName e with
  | TransferSingle, TransferSingle | TransferBatch, TransferBatch => true
  | _, _ => false
  end.

Definition too_large : Thrown := ErrorObject "eth_getLogs: block range is too large".

Definition rejecting (limit : Z) (log : list Event) (tip : Z) : Provider :=
  mkProvider
    (fun _ => inr tip)
    (fun _ kind fromBlock toBlock =>
       if toBlock - fromBlock + 1 >? limit
       then inl too_large
       else inr (List.filter (fun e => in_range fromBlock toBlock e && of_kind kind e) log))
    (fun _ e => inr (mkBlock (blockNumber e) (1700000000 + 2 * blockNumber e))).

Definition limited (tip : Z) : Provider := rejecting 20 log tip.

Definition contract (tip : Z) : Contract := mkContract (Some (limited tip)).

(** The two queries of every chunk of [size] blocks from [start], [n]
    chunks long. *)
Fixpoint chunk_queries (n : nat) (start size : Z) : list Request :=
  match n with
  | O => []
  | S n' =>
      ReqQuery TransferSingle start (start + size - 1)
        :: ReqQuery TransferBatch start (start + size - 1)
        :: chunk_queries n' (start + size) size
  end.

End ScanSample.

(** A remote ledger that tells its tip and fails every other request. *)
Module FaultyRemote.

Import Scanner.
#[local] Open Scope Z_scope.

Definition down : Thrown := ErrorObject "could not detect network".

Definition failing (tip : Z) : Provider :=
  mkProvider (fun _ => inr tip) (fun _ _ _ _ => inl down) (fun _ _ => inl down).

End FaultyRemote.

(** A remote ledger whose log holds a batch transfer, in block 3, and two
    single transfers, in blocks 7 and 12, the second of a token whose id,
    [2^53 + 1], is no JavaScript number; and a remote ledger that holds the
    single transfers only.  Both have their tip at block 30.  A scan
    retrieves the single transfers of a chunk before its batch transfers. *)
Module MixedLog.

Import Scanner ScanSample.
#[local] Open Scope Z_scope.

Definition nobody : string := "0x0000000000000000000000000000000000000000".
Definition alice : string := "0x00000000000000000000000000000000000000a1".
Definition bob : string := "0x00000000000000000000000000000000000000B2".

Definition minted : Event := mkEvent 3 0 "0xa1" (ArgsBatch nobody alice [1; 2] [5; 10]).
Definition moved : Event := mkEvent 7 0 "0xa2" (ArgsSingle alice bob 1 2).
Definition odd : Event := mkEvent 12 0 "0xa3" (ArgsSingle nobody bob 9007199254740993 4).

Definition mixed : Contract := mkContract (Some (rejecting 1000 [minted; moved; odd] 30)).
Definition singles : Contract := mkContract (Some (rejecting 1000 [moved; odd] 30)).

End MixedLog.

(** * Properties *)

(** ** The URI resolver *)
Section URIFacts.
Context {St : Type}.
Implicit Types (st : St) (b result tb hex : list byte) (i ri n : nat).
#[local] Open Scope nat_scope.

Lemma load_Some b i x st : b !! i = Some x -> load b i st = Done x st.
Proof. intros E. unfold load. now rewrite E. Qed.

Lemma store_lt b i x st : i < length b -> store b i x st = Done (<[i := x]> b) st.
Proof.
  intros Hi. unfold store.
  destruct (Nat.ltb_spec i (length b)); [reflexivity | lia].
Qed.

Lemma store_ge b i x st : length b <= i -> store b i x st = Abort (Panic PANIC_INDEX) st.
Proof.
  intros Hi. unfold store.
  destruct (Nat.ltb_spec i (length b)); [lia | reflexivity].
Qed.

(** *** [_toHexString] *)

Lemma land_15_lt (v : N) : (N.land v 15 < 16)%N.
Proof.
  change 15%N with (N.ones 4). rewrite N.land_ones.
  apply N.mod_lt. discriminate.
Qed.

Lemma hex_symbol_lookup (d : N) :
  (d < 16)%N -> _HEX_SYMBOLS !! N.to_nat d = Some (hex_symbol d).
Proof.
  intros Hd. unfold hex_symbol.
  destruct (_HEX_SYMBOLS !! N.to_nat d) eqn:E; [reflexivity |].
  apply lookup_ge_None_1 in E. simpl in E. lia.
Qed.

Lemma hex_digits_S n (v : N) :
  hex_digits (S n) v = hex_digits n (N.shiftr v 4) ++ [hex_symbol (N.land v 15)].
Proof. reflexivity. Qed.

Lemma length_hex_digits n (v : N) : length (hex_digits n v) = n.
Proof.
  revert v. induction n as [|n IH]; intros v; [reflexivity |].
  rewrite hex_digits_S, length_app, IH. simpl. lia.
Qed.

Lemma _toHexString_for_spec i b (v : N) st :
  i <= length b ->
  _toHexString_for i b v st = Done (hex_digits i v ++ drop i b) st.
Proof.
  revert b v. induction i as [|i IH]; intros b v Hi.
  - reflexivity.
  - rewrite hex_digits_S. cbn [_toHexString_for]. unfold Exec.bind.
    rewrite (load_Some _ _ _ _ (hex_symbol_lookup _ (land_15_lt v))).
    rewrite store_lt by lia.
    rewrite IH by (rewrite length_insert; lia).
    rewrite <- app_assoc. simpl.
    rewrite (drop_S (<[i := hex_symbol (N.land v 15)]> b) (hex_symbol (N.land v 15)) i)
      by (apply list_lookup_insert_eq; lia).
    rewrite drop_insert_lt by lia. reflexivity.
Qed.

Lemma _toHexString_spec (v : N) st : _toHexString v st = Done (hex_digits 64 v) st.
Proof.
  unfold _toHexString. destruct (N.eqb_spec v 0) as [-> | _].
  - reflexivity.
  - rewrite _toHexString_for_spec by (rewrite length_replicate; lia).
    rewrite drop_replicate, Nat.sub_diag. cbn [replicate].
    now rewrite app_nil_r.
Qed.

(** *** The scanning loop *)

Lemma uri_match_spec tb i st :
  i + 3 < length tb ->
  uri_match tb i st = Done (starts_with_placeholder (drop i tb)) st.
Proof.
  intros Hi.
  assert (Hlen : length (drop i tb) = length tb - i) by apply length_drop.
  assert (Hk : forall k, tb !! (i + k) = drop i tb !! k)
    by (intros k; symmetry; apply lookup_drop).
  destruct (drop i tb) as [|c0 [|c1 [|c2 [|c3 t4]]]] eqn:E;
    simpl in Hlen; try lia.
  pose proof (Hk 0) as H0. pose proof (Hk 1) as H1.
  pose proof (Hk 2) as H2. pose proof (Hk 3) as H3.
  rewrite Nat.add_0_r in H0. simpl in H0, H1, H2, H3.
  unfold uri_match, Exec.bind.
  rewrite (load_Some _ _ _ _ H0). simpl.
  destruct (Byte.eqb c0 x7b); simpl; [| reflexivity].
  rewrite (load_Some _ _ _ _ H1).
  destruct (Byte.eqb c1 x69); simpl; [| reflexivity].
  rewrite (load_Some _ _ _ _ H2).
  destruct (Byte.eqb c2 x64); simpl; [| reflexivity].
  rewrite (load_Some _ _ _ _ H3). reflexivity.
Qed.

Lemma take_store ri result c :
  ri < length result ->
  take (ri + 1) (<[ri := c]> result) = take ri result ++ [c].
Proof.
  intros Hri. rewrite Nat.add_1_r.
  rewrite (take_S_r _ _ c) by (apply list_lookup_insert_eq; lia).
  now rewrite take_insert_ge by lia.
Qed.

Lemma uri_put_fits hex result ri st :
  ri + length hex <= length result ->
  exists result',
    uri_put hex result ri st = Done (result', ri + length hex) st /\
    length result' = length result /\
    take (ri + length hex) result' = take ri result ++ hex.
Proof.
  revert result ri. induction hex as [|c hex IH]; intros result ri Hfit; simpl in *.
  - exists result. rewrite Nat.add_0_r, app_nil_r. auto.
  - unfold Exec.bind. rewrite store_lt by lia.
    destruct (IH (<[ri := c]> result) (ri + 1)) as (r' & Hrun & Hlen & Htake).
    { rewrite length_insert. lia. }
    exists r'. replace (ri + S (length hex)) with (ri + 1 + length hex) by lia.
    rewrite Hrun, Hlen, Htake, length_insert, take_store by lia.
    rewrite <- app_assoc. auto.
Qed.

Lemma uri_put_overflows hex result ri st :
  ri <= length result -> length result < ri + length hex ->
  uri_put hex result ri st = Abort (Panic PANIC_INDEX) st.
Proof.
  revert result ri. induction hex as [|c hex IH]; intros result ri Hri Hover;
    simpl in *; [lia |].
  unfold Exec.bind.
  destruct (Nat.eq_dec ri (length result)) as [-> | Hne].
  - now rewrite store_ge by lia.
  - rewrite store_lt by lia. apply IH; rewrite length_insert; lia.
Qed.

(** One placeholder is 4 bytes long and no two occurrences overlap. *)
Lemma count_placeholder_match c0 c1 c2 c3 (t4 : list byte) :
  starts_with_placeholder (c0 :: c1 :: c2 :: c3 :: t4) = true ->
  count_placeholder (c0 :: c1 :: c2 :: c3 :: t4) = 1 + count_placeholder t4.
Proof.
  intros Hm. cbn [count_placeholder]. rewrite Hm.
  cbn [starts_with_placeholder] in Hm.
  apply andb_prop in Hm as [Hm H3]. apply andb_prop in Hm as [Hm H2].
  apply andb_prop in Hm as [H0 H1].
  apply Byte.byte_dec_bl in H1, H2, H3. subst c1 c2 c3.
  assert (Hno : forall t : list byte,
             match t with
             | c :: _ => Byte.eqb c x7b = false
             | [] => True
             end -> starts_with_placeholder t = false).
  { intros [|c [|d [|e [|f t]]]] Hc; simpl; try reflexivity; now rewrite Hc. }
  rewrite !Hno by reflexivity. reflexivity.
Qed.

Lemma substitute_cons4 hex c0 c1 c2 c3 (t4 : list byte) :
  substitute hex (c0 :: c1 :: c2 :: c3 :: t4) =
    if starts_with_placeholder (c0 :: c1 :: c2 :: c3 :: t4)
    then hex ++ substitute hex t4
    else c0 :: substitute hex (c1 :: c2 :: c3 :: t4).
Proof. reflexivity. Qed.

Lemma count_placeholder_cons c (t : list byte) :
  count_placeholder (c :: t) =
    (if starts_with_placeholder (c :: t) then 1 else 0) + count_placeholder t.
Proof. reflexivity. Qed.

Lemma length_substitute hex (t : list byte) :
  length hex = 64 ->
  length (substitute hex t) = length t + 60 * count_placeholder t.
Proof.
  intros Hhex.
  induction t as [t IH] using (induction_ltof1 _ (@length byte)); unfold ltof in IH.
  destruct t as [|c0 [|c1 [|c2 [|c3 t4]]]]; try reflexivity.
  rewrite substitute_cons4.
  destruct (starts_with_placeholder (c0 :: c1 :: c2 :: c3 :: t4)) eqn:Hm.
  - rewrite count_placeholder_match by exact Hm.
    rewrite length_app, IH by (simpl; lia).
    simpl. lia.
  - rewrite count_placeholder_cons, Hm.
    cbn [length]. rewrite (IH (c1 :: c2 :: c3 :: t4)) by (simpl; lia).
    simpl. lia.
Qed.

(** What one round of the loop does with the rest of the template. *)
Lemma substitute_step hex tb i c :
  tb !! i = Some c ->
  substitute hex (drop i tb) =
    if starts_with_placeholder (drop i tb)
    then hex ++ substitute hex (drop (i + 3 + 1) tb)
    else c :: substitute hex (drop (i + 1) tb).
Proof.
  intros Hc. rewrite (drop_S _ _ _ Hc).
  replace (i + 3 + 1) with (S i + 3) by lia.
  replace (i + 1) with (S i) by lia.
  rewrite <- (drop_drop tb 3 (S i)).
  destruct (drop (S i) tb) as [|c1 [|c2 [|c3 t4]]]; reflexivity.
Qed.

Lemma starts_with_placeholder_short (t : list byte) :
  length t < 4 -> starts_with_placeholder t = false.
Proof. destruct t as [|c0 [|c1 [|c2 [|c3 t4]]]]; simpl; intros; try reflexivity; lia. Qed.

(** The loop of [uri] writes [substitute hex] of the rest of the template
    behind what was written before, when the buffer can hold it. *)
Lemma uri_for_fits fuel (tokenId : uint256) tb i result ri st :
  3 <= length tb -> i <= length tb -> length tb - i <= fuel ->
  let out := substitute (hex_digits 64 tokenId) (drop i tb) in
  ri + length out <= length result ->
  exists result',
    uri_for fuel tokenId tb i result ri st = Done (result', ri + length out) st /\
    length result' = length result /\
    take (ri + length out) result' = take ri result ++ out.
Proof.
  intros H3. revert i result ri.
  induction fuel as [|fuel IH]; intros i result ri Hi Hfuel out Hfit.
  - assert (i = length tb) as -> by lia.
    subst out. rewrite drop_all in *. simpl in *.
    rewrite Nat.ltb_irrefl. simpl.
    exists result. rewrite Nat.add_0_r, app_nil_r. auto.
  - cbn [uri_for].
    destruct (Nat.ltb_spec i (length tb)) as [Hlt | Hge]; cbn [negb].
    2:{ assert (i = length tb) as -> by lia.
        subst out. rewrite drop_all in *. simpl in *.
        exists result. rewrite Nat.add_0_r, app_nil_r. auto. }
    destruct (tb !! i) as [c|] eqn:Hc; [| apply lookup_ge_None_1 in Hc; lia].
    pose proof (substitute_step (hex_digits 64 tokenId) tb i c Hc) as Hstep.
    fold out in Hstep.
    unfold Exec.bind at 1. unfold sub_index.
    destruct (Nat.leb_spec 3 (length tb)); [| lia]. cbn [Exec.ret].
    assert (Hplain :
      starts_with_placeholder (drop i tb) = false ->
      exists result',
        (let! c := load tb i in
         let! result := store result ri c in
         uri_for fuel tokenId tb (i + 1) result (ri + 1)) st
          = Done (result', ri + length out) st /\
        length result' = length result /\
        take (ri + length out) result' = take ri result ++ out).
    { intros Hno. rewrite Hno in Hstep.
      unfold Exec.bind. rewrite (load_Some _ _ _ _ Hc).
      rewrite Hstep in Hfit. cbn [length] in Hfit.
      rewrite store_lt by lia.
      destruct (IH (i + 1) (<[ri := c]> result) (ri + 1)) as (r' & Hrun & Hlen & Htake);
        [lia | lia | cbv zeta; rewrite length_insert; lia |].
      exists r'. rewrite Hstep. cbn [length].
      replace (ri + S (length (substitute (hex_digits 64 tokenId) (drop (i + 1) tb))))
        with (ri + 1 + length (substitute (hex_digits 64 tokenId) (drop (i + 1) tb)))
        by lia.
      rewrite Hrun, Hlen, Htake, length_insert, take_store by lia.
      rewrite <- app_assoc. auto. }
    destruct (Nat.ltb_spec i (length tb - 3)) as [Hin | Hout].
    + unfold Exec.bind at 1. rewrite uri_match_spec by lia.
      destruct (starts_with_placeholder (drop i tb)) eqn:Hm; [| now apply Hplain].
      unfold Exec.bind at 1. rewrite _toHexString_spec.
      rewrite Hstep in Hfit. rewrite length_app in Hfit.
      destruct (uri_put_fits (hex_digits 64 tokenId) result ri st)
        as (r1 & Hput & Hlen1 & Htake1); [lia |].
      unfold Exec.bind at 1. rewrite Hput.
      destruct (IH (i + 3 + 1) r1 (ri + length (hex_digits 64 tokenId)))
        as (r' & Hrun & Hlen & Htake); [lia | lia | cbv zeta; lia |].
      exists r'. rewrite Hstep, length_app, Nat.add_assoc.
      rewrite Hrun, Hlen, Htake, Htake1, Hlen1, <- app_assoc. auto.
    + apply Hplain. apply starts_with_placeholder_short.
      rewrite length_drop. lia.
Qed.

(** When the buffer cannot hold it, a write falls outside the buffer. *)
Lemma uri_for_overflows fuel (tokenId : uint256) tb i result ri st :
  3 <= length tb -> i <= length tb -> length tb - i <= fuel ->
  ri <= length result ->
  length result < ri + length (substitute (hex_digits 64 tokenId) (drop i tb)) ->
  uri_for fuel tokenId tb i result ri st = Abort (Panic PANIC_INDEX) st.
Proof.
  intros H3. revert i result ri.
  induction fuel as [|fuel IH]; intros i result ri Hi Hfuel Hri Hover.
  - assert (i = length tb) as -> by lia.
    rewrite drop_all in Hover. simpl in Hover. lia.
  - cbn [uri_for].
    destruct (Nat.ltb_spec i (length tb)) as [Hlt | Hge]; cbn [negb].
    2:{ assert (i = length tb) as -> by lia.
        rewrite drop_all in Hover. simpl in Hover. lia. }
    destruct (tb !! i) as [c|] eqn:Hc; [| apply lookup_ge_None_1 in Hc; lia].
    rewrite (substitute_step (hex_digits 64 tokenId) tb i c Hc) in Hover.
    unfold Exec.bind at 1. unfold sub_index.
    destruct (Nat.leb_spec 3 (length tb)); [| lia]. cbn [Exec.ret].
    assert (Hplain :
      starts_with_placeholder (drop i tb) = false ->
      (let! c := load tb i in
       let! result := store result ri c in
       uri_for fuel tokenId tb (i + 1) result (ri + 1)) st
        = Abort (Panic PANIC_INDEX) st).
    { intros Hno. rewrite Hno in Hover. cbn [length] in Hover.
      unfold Exec.bind. rewrite (load_Some _ _ _ _ Hc).
      destruct (Nat.eq_dec ri (length result)) as [-> | Hne].
      - now rewrite store_ge by lia.
      - rewrite store_lt by lia.
        rewrite IH; [reflexivity | lia | lia | rewrite length_insert; lia |
                     rewrite length_insert; lia]. }
    destruct (Nat.ltb_spec i (length tb - 3)) as [Hin | Hout].
    + unfold Exec.bind at 1. rewrite uri_match_spec by lia.
      destruct (starts_with_placeholder (drop i tb)) eqn:Hm; [| now apply Hplain].
      unfold Exec.bind at 1. rewrite _toHexString_spec.
      rewrite length_app in Hover.
      unfold Exec.bind at 1.
      destruct (Nat.le_gt_cases (ri + length (hex_digits 64 tokenId)) (length result))
        as [Hfit | Hnofit].
      * destruct (uri_put_fits (hex_digits 64 tokenId) result ri st Hfit)
          as (r1 & Hput & Hlen1 & _).
        rewrite Hput. apply IH; lia.
      * now rewrite uri_put_overflows by lia.
    + apply Hplain. apply starts_with_placeholder_short.
      rewrite length_drop. lia.
Qed.

Lemma uri_trim_spec n i result final st :
  i + n <= length result -> length final = i + n ->
  uri_trim n i result final st = Done (take i final ++ take n (drop i result)) st.
Proof.
  revert i final. induction n as [|n IH]; intros i final Hres Hfin; simpl.
  - rewrite take_0, app_nil_r, take_ge by lia. reflexivity.
  - destruct (result !! i) as [c|] eqn:Hc; [| apply lookup_ge_None_1 in Hc; lia].
    unfold Exec.bind. rewrite (load_Some _ _ _ _ Hc), store_lt by lia.
    rewrite IH by (rewrite ?length_insert; lia).
    rewrite take_store by lia. rewrite <- app_assoc. simpl.
    rewrite (drop_S _ _ _ Hc). simpl.
    now rewrite Nat.add_1_r.
Qed.

(** The resolver, for templates of three bytes and more. *)
Lemma resolve_at_most_once (t : list byte) (tokenId : uint256) st :
  3 <= length t -> count_placeholder t <= 1 ->
  resolve t tokenId st = Done (substitute (hex_digits 64 tokenId) t) st.
Proof.
  intros H3 Hcount. unfold resolve.
  pose proof (length_substitute (hex_digits 64 tokenId) t (length_hex_digits 64 tokenId))
    as Hlen.
  destruct (uri_for_fits (length t) tokenId t 0 (replicate (length t + 64) x00) 0 st)
    as (r' & Hrun & Hlen' & Htake); [lia | lia | lia | |].
  { rewrite drop_0, length_replicate. lia. }
  rewrite drop_0 in *. simpl in Hrun, Htake.
  unfold Exec.bind. rewrite Hrun.
  rewrite uri_trim_spec.
  - rewrite take_0, drop_0. simpl. now rewrite Htake.
  - rewrite Hlen', length_replicate. lia.
  - now rewrite length_replicate.
Qed.

Lemma resolve_twice_or_more (t : list byte) (tokenId : uint256) st :
  2 <= count_placeholder t ->
  resolve t tokenId st = Abort (Panic PANIC_INDEX) st.
Proof.
  intros Hcount. unfold resolve.
  pose proof (length_substitute (hex_digits 64 tokenId) t (length_hex_digits 64 tokenId))
    as Hlen.
  assert (3 <= length t).
  { destruct t as [|c0 [|c1 [|c2 t']]]; simpl in *; lia. }
  unfold Exec.bind.
  rewrite uri_for_overflows; [reflexivity | lia | lia | lia | lia |].
  rewrite drop_0, length_replicate. lia.
Qed.

(** The resolver is a function of the template and the token id. *)
Lemma resolve_total (t : list byte) (tokenId : uint256) st :
  resolve t tokenId st =
    match resolve_outcome t tokenId with
    | inr r => Done r st
    | inl e => Abort e st
    end.
Proof.
  destruct t as [|c0 [|c1 [|c2 t']]]; try reflexivity.
  unfold resolve_outcome.
  destruct (Nat.leb_spec (count_placeholder (c0 :: c1 :: c2 :: t')) 1).
  - apply resolve_at_most_once; [simpl; lia | assumption].
  - apply resolve_twice_or_more. lia.
Qed.

(** *** Templates without and with one placeholder *)

Lemma substitute_no_match hex c0 (t1 : list byte) :
  starts_with_placeholder (c0 :: t1) = false ->
  substitute hex (c0 :: t1) = c0 :: substitute hex t1.
Proof.
  intros Hno. destruct t1 as [|c1 [|c2 [|c3 t4]]]; try reflexivity.
  now rewrite substitute_cons4, Hno.
Qed.

Lemma substitute_none hex (t : list byte) :
  count_placeholder t = 0 -> substitute hex t = t.
Proof.
  induction t as [|c0 t1 IH]; [reflexivity |].
  rewrite count_placeholder_cons. intros Hcount.
  destruct (starts_with_placeholder (c0 :: t1)) eqn:Hm; [lia |].
  rewrite substitute_no_match by exact Hm. f_equal. apply IH. lia.
Qed.

Lemma starts_with_placeholder_true (t : list byte) :
  starts_with_placeholder t = true -> exists t4, t = placeholder ++ t4.
Proof.
  destruct t as [|c0 [|c1 [|c2 [|c3 t4]]]]; simpl; try discriminate.
  intros Hm.
  apply andb_prop in Hm as [Hm H3]. apply andb_prop in Hm as [Hm H2].
  apply andb_prop in Hm as [H0 H1].
  apply Byte.byte_dec_bl in H0, H1, H2, H3. subst. now exists t4.
Qed.

Lemma substitute_once hex (t : list byte) :
  count_placeholder t = 1 ->
  exists pre post, t = pre ++ placeholder ++ post /\
                   substitute hex t = pre ++ hex ++ post.
Proof.
  induction t as [|c0 t1 IH]; [discriminate |].
  intros Hcount.
  destruct (starts_with_placeholder (c0 :: t1)) eqn:Hm.
  - destruct (starts_with_placeholder_true _ Hm) as (t4 & Ht).
    exists [], t4. split; [exact Ht |].
    unfold placeholder in Ht. simpl in Ht. injection Ht as -> ->.
    rewrite count_placeholder_match in Hcount by exact Hm.
    rewrite substitute_cons4, Hm, substitute_none by lia. reflexivity.
  - rewrite count_placeholder_cons, Hm in Hcount.
    destruct IH as (pre & post & Ht & Hs); [lia |].
    exists (c0 :: pre), post.
    rewrite substitute_no_match, Hs, Ht by exact Hm. auto.
Qed.

(** *** The digits written for a token id *)

Lemma digit_value_hex_symbol (d : N) :
  (d < 16)%N -> digit_value (hex_symbol d) = Some d.
Proof.
  intros Hd.
  assert (Hcases : In d (map N.of_nat (seq 0 16))).
  { apply in_map_iff. exists (N.to_nat d). split; [lia |]. apply in_seq. lia. }
  simpl in Hcases. repeat (destruct Hcases as [<- | Hcases]; [reflexivity |]).
  contradiction.
Qed.

Lemma hex_value_from_snoc (acc : N) (l : list byte) c (d : N) :
  digit_value c = Some d ->
  hex_value_from acc (l ++ [c]) =
    match hex_value_from acc l with
    | Some x => Some (16 * x + d)%N
    | None => None
    end.
Proof.
  intros Hc. revert acc. induction l as [|a l IH]; intros acc; simpl.
  - now rewrite Hc.
  - destruct (digit_value a); [apply IH | reflexivity].
Qed.

Lemma hex_value_hex_digits n (v : N) :
  hex_value (hex_digits n v) = Some (v mod 16 ^ N.of_nat n)%N.
Proof.
  unfold hex_value. revert v. induction n as [|n IH]; intros v.
  - simpl. now rewrite N.mod_1_r.
  - rewrite hex_digits_S.
    rewrite (hex_value_from_snoc _ _ _ _ (digit_value_hex_symbol _ (land_15_lt v))).
    rewrite IH. f_equal.
    rewrite Nat2N.inj_succ, N.pow_succ_r'.
    rewrite N.Div0.mod_mul_r.
    change 15%N with (N.ones 4). rewrite N.land_ones, N.shiftr_div_pow2.
    change (2 ^ 4)%N with 16%N. lia.
Qed.

Lemma hex_value_token_id (tokenId : uint256) :
  (tokenId <= MAX_UINT256)%N -> hex_value (hex_digits 64 tokenId) = Some tokenId.
Proof.
  intros Hid. rewrite hex_value_hex_digits. f_equal.
  apply N.mod_small. unfold MAX_UINT256 in Hid.
  change (16 ^ N.of_nat 64)%N with (2 ^ 256)%N.
  assert (0 < 2 ^ 256)%N by (apply N.neq_0_lt_0; apply N.pow_nonzero; discriminate).
  lia.
Qed.

End URIFacts.

(** ** Running computations *)
Section ExecFacts.
Context {St A B : Type}.
Implicit Types (s : St).

Lemma bind_Done (m : Exec.t St A) (k : A -> Exec.t St B) s b s' :
  Exec.bind m k s = Done b s' -> exists a s1, m s = Done a s1 /\ k a s1 = Done b s'.
Proof.
  unfold Exec.bind. destruct (m s) as [a s1 | e s1]; [eauto | discriminate].
Qed.

Lemma ret_Done (a a' : A) s s' : Exec.ret a s = Done a' s' -> a' = a /\ s' = s.
Proof. unfold Exec.ret. now intros [= -> ->]. Qed.

Lemma gets_Done (f : St -> A) s a s' : gets f s = Done a s' -> a = f s /\ s' = s.
Proof. unfold gets. now intros [= <- <-]. Qed.

Lemma modify_Done (f : St -> St) s u s' : modify f s = Done u s' -> s' = f s.
Proof. unfold modify. now intros [= <-]. Qed.

Lemma require_Done (c : bool) r s u s' :
  require c r s = Done u s' -> c = true /\ s' = s.
Proof. unfold require. destruct c; [now intros [= <-] | discriminate]. Qed.

Lemma add_Done (x y : uint256) s v s' :
  Exec.add x y s = Done v s' -> v = x + y /\ x + y <= MAX_UINT256 /\ s' = s.
Proof.
  unfold Exec.add. destruct (N.leb_spec (x + y) MAX_UINT256); [| discriminate].
  now intros [= <- <-].
Qed.

Lemma sub_Done (x y : uint256) s v s' :
  Exec.sub x y s = Done v s' -> v = x - y /\ y <= x /\ s' = s.
Proof.
  unfold Exec.sub. destruct (N.leb_spec y x); [| discriminate].
  now intros [= <- <-].
Qed.

(** A call that reverts leaves the state as it was. *)
Lemma call_Reverted (m : Exec.t St A) s e s' : call m s = (Reverted e, s') -> s' = s.
Proof. unfold call. destruct (m s); now intros [= <-]. Qed.

Lemma call_Ok (m : Exec.t St A) s a s' : call m s = (Ok a, s') <-> m s = Done a s'.
Proof.
  unfold call. destruct (m s); split; intros [=]; subst; reflexivity.
Qed.

End ExecFacts.

Ltac exec_unfold :=
  unfold Exec.bind, Exec.ret, Exec.fail, Exec.gets, Exec.modify, Exec.require,
    Exec.add, Exec.sub in *.

Tactic Notation "exec_cbv" :=
  cbv [Exec.bind Exec.ret Exec.fail Exec.gets Exec.modify Exec.require
       Exec.add Exec.sub].
Tactic Notation "exec_cbv" "in" hyp(H) :=
  cbv [Exec.bind Exec.ret Exec.fail Exec.gets Exec.modify Exec.require
       Exec.add Exec.sub] in H.

(** Takes a finished run apart, one step of the body at a time. *)
Ltac exec_inv H :=
  cbv beta in H;
  lazymatch type of H with
  | Exec.bind _ _ _ = Done _ _ =>
      let a := fresh "a" in
      let s1 := fresh "s" in
      let H1 := fresh "Hrun" in
      apply bind_Done in H as (a & s1 & H1 & H);
      try (is_var a; lazymatch type of a with unit => destruct a end);
      exec_inv H1; exec_inv H
  | Exec.require _ _ _ = Done _ _ => apply require_Done in H as [? ?]; subst
  | Exec.gets _ _ = Done _ _ => apply gets_Done in H as [? ?]; subst
  | Exec.modify _ _ = Done _ _ => apply modify_Done in H; subst
  | Exec.ret _ _ = Done _ _ => apply ret_Done in H as [? ?]; subst
  | Exec.fail _ _ = Done _ _ => discriminate H
  | Exec.add _ _ _ = Done _ _ => apply add_Done in H as (? & ? & ?); subst
  | Exec.sub _ _ _ = Done _ _ => apply sub_Done in H as (? & ? & ?); subst
  | (if ?c then _ else _) _ = Done _ _ => destruct c eqn:?; exec_inv H
  | (match ?x with _ => _ end) _ = Done _ _ => destruct x eqn:?; exec_inv H
  | _ => idtac
  end.

Ltac bool_to_prop :=
  repeat match goal with
    | H : negb _ = false |- _ => apply negb_false_iff in H
    | H : negb _ = true |- _ => apply negb_true_iff in H
    | H : (_ && _) = true |- _ => apply andb_prop in H as [? ?]
    | H : (_ || _) = true |- _ => apply orb_prop in H as [? | ?]
    | H : (_ || _) = false |- _ => apply orb_false_elim in H as [? ?]
    | H : (_ =? _) = true |- _ => apply N.eqb_eq in H
    | H : (_ =? _) = false |- _ => apply N.eqb_neq in H
    | H : (_ <=? _) = true |- _ => apply N.leb_le in H
    | H : (_ <=? _) = false |- _ => apply N.leb_gt in H
    | H : (_ <? _) = true |- _ => apply N.ltb_lt in H
    | H : (_ <? _) = false |- _ => apply N.ltb_ge in H
    end.

(** ** The token ledger *)

Section LedgerFacts.
Context {ledger : Type} `{!IUSDC ledger} `{!IERC1155Receiver}.
Implicit Types (s : State ledger) (id : uint256) (a : address).

(** *** Storage *)

Lemma info_set_info id i s id' :
  info (set_info id i s) id' = if decide (id' = id) then i else info s id'.
Proof.
  unfold info, set_info; simpl. case_decide as Hid.
  - subst. now rewrite lookup_insert_eq.
  - now rewrite lookup_insert_ne by congruence.
Qed.

Lemma info_set_currentSupply id v s id' :
  info (set_currentSupply id v s) id' =
    if decide (id' = id)
    then mkTokenInfo (name (info s id)) (description (info s id))
                     (maxSupply (info s id)) v (isActive (info s id))
    else info s id'.
Proof. unfold set_currentSupply. apply info_set_info. Qed.

Lemma holders_set_balance id a v s id' :
  holders (set_balance id a v s) id' =
    if decide (id' = id) then <[a := v]> (holders s id) else holders s id'.
Proof.
  unfold holders, set_balance; simpl. case_decide as Hid.
  - subst. now rewrite lookup_insert_eq.
  - now rewrite lookup_insert_ne by congruence.
Qed.

Lemma balanceOf_holders s a id : balanceOf s a id = default 0 (holders s id !! a).
Proof. reflexivity. Qed.

Lemma balanceOf_set_balance id a v s a' id' :
  balanceOf (set_balance id a v s) a' id' =
    if decide (id' = id /\ a' = a) then v else balanceOf s a' id'.
Proof.
  rewrite !balanceOf_holders, holders_set_balance.
  destruct (decide (id' = id)) as [-> | Hid].
  - destruct (decide (a' = a)) as [-> | Ha].
    + rewrite lookup_insert_eq. now rewrite decide_True.
    + rewrite lookup_insert_ne by congruence. now rewrite decide_False by tauto.
  - now rewrite decide_False by tauto.
Qed.

(** *** Sums of holder maps *)

Lemma total_insert_fresh (m : gmap address uint256) a v :
  m !! a = None -> total (<[a := v]> m) = v + total m.
Proof.
  intros Hfresh. unfold total.
  rewrite map_fold_insert_L; [reflexivity | intros; lia | exact Hfresh].
Qed.

Lemma total_insert (m : gmap address uint256) a v :
  total (<[a := v]> m) + default 0 (m !! a) = total m + v.
Proof.
  destruct (m !! a) as [old|] eqn:Ha; simpl.
  - rewrite <- (insert_delete_eq m a v).
    rewrite total_insert_fresh by apply lookup_delete_eq.
    rewrite <- (insert_delete_id m a old Ha) at 2.
    rewrite total_insert_fresh by apply lookup_delete_eq. lia.
  - rewrite total_insert_fresh by exact Ha. lia.
Qed.

Lemma balance_le_total (m : gmap address uint256) a : default 0 (m !! a) <= total m.
Proof.
  destruct (m !! a) as [old|] eqn:Ha; simpl; [| lia].
  rewrite <- (insert_delete_id m a old Ha).
  rewrite total_insert_fresh by apply lookup_delete_eq. lia.
Qed.

Lemma sum_balances_set_balance id a v s id' :
  sum_balances (set_balance id a v s) id' + (if decide (id' = id) then balanceOf s a id else 0)
  = sum_balances s id' + (if decide (id' = id) then v else 0).
Proof.
  unfold sum_balances. rewrite holders_set_balance.
  case_decide; [subst id' | lia]. rewrite balanceOf_holders. apply total_insert.
Qed.

(** *** Running a function body *)

Lemma _update_singleton (from to : address) id value :
  _update (ledger := ledger) from to [id] [value] =
    (_update_one from to id value ;; Exec.ret tt).
Proof. reflexivity. Qed.

Lemma _mint_Done operator to id value s s' :
  _mint operator to id value s = Done tt s' ->
  to <> 0 /\ s' = set_balance id to (balanceOf s to id + value) s.
Proof.
  intros Hrun. unfold _mint, _updateWithAcceptanceCheck in Hrun.
  rewrite _update_singleton in Hrun. unfold _update_one in Hrun.
  exec_inv Hrun; bool_to_prop; try congruence; auto.
Qed.

Lemma _burn_Done operator from id value s s' :
  _burn operator from id value s = Done tt s' ->
  from <> 0 /\ value <= balanceOf s from id /\
  s' = set_balance id from (balanceOf s from id - value) s.
Proof.
  intros Hrun. unfold _burn, _updateWithAcceptanceCheck in Hrun.
  rewrite _update_singleton in Hrun. unfold _update_one in Hrun.
  exec_inv Hrun; bool_to_prop; try congruence; auto.
Qed.

Lemma onlyOwner_Done sender s s' :
  onlyOwner sender s = Done tt s' -> sender = _owner s /\ s' = s.
Proof.
  intros Hrun. unfold onlyOwner in Hrun.
  exec_inv Hrun; bool_to_prop; auto.
Qed.

Lemma external_Done (c : ledger -> option (bool * ledger)) s b s' :
  external c s = Done b s' -> exists l', c (usdc s) = Some (b, l') /\ s' = set_usdc l' s.
Proof.
  intros Hrun. unfold external in Hrun. exec_inv Hrun. eauto.
Qed.

Ltac helper_inv :=
  repeat match goal with
    | H : onlyOwner _ _ = Done _ _ |- _ => apply onlyOwner_Done in H as [? ?]; subst
    | H : _burn _ _ _ _ _ = Done _ _ |- _ => apply _burn_Done in H as (? & ? & ?); subst
    | H : _mint _ _ _ _ _ = Done _ _ |- _ => apply _mint_Done in H as (? & ?); subst
    | H : external _ _ = Done _ _ |- _ => apply external_Done in H as (? & ? & ?); subst
    end.

Lemma mint_Done sender to id amount s s' :
  mint sender to id amount s = Done tt s' ->
  sender = _owner s /\ isActive (info s id) = true /\
  currentSupply (info s id) + amount <= maxSupply (info s id) /\
  to <> 0 /\
  s' = set_balance id to (balanceOf s to id + amount)
         (set_currentSupply id (currentSupply (info s id) + amount) s).
Proof.
  intros Hrun. unfold mint in Hrun. exec_inv Hrun. helper_inv.
  bool_to_prop. auto.
Qed.

Lemma burn_Done sender from id amount s s' :
  burn sender from id amount s = Done tt s' ->
  (sender = from \/ sender = _owner s) /\
  amount <= currentSupply (info s id) /\
  from <> 0 /\ amount <= balanceOf s from id /\
  s' = set_balance id from (balanceOf s from id - amount)
         (set_currentSupply id (currentSupply (info s id) - amount) s).
Proof.
  intros Hrun. unfold burn in Hrun. exec_inv Hrun. helper_inv.
  bool_to_prop; auto 10.
Qed.

Lemma payback_Done sender from id tokenAmount usdcAmount s s' :
  payback sender from id tokenAmount usdcAmount s = Done tt s' ->
  sender = _owner s /\ isActive (info s id) = true /\
  0 < tokenAmount /\ tokenAmount <= balanceOf s from id /\
  0 < usdcAmount /\ usdcAmount <= treasury s /\
  tokenAmount <= currentSupply (info s id) /\ from <> 0 /\
  exists l',
    transfer_usdc (this s) from usdcAmount (usdc s) = Some (true, l') /\
    s' = set_usdc l'
           (set_balance id from (balanceOf s from id - tokenAmount)
              (set_currentSupply id (currentSupply (info s id) - tokenAmount) s)).
Proof.
  intros Hrun. unfold payback in Hrun. exec_inv Hrun. helper_inv.
  bool_to_prop. unfold treasury. repeat split; auto. eauto.
Qed.

Lemma createToken_Done sender id n d cap s s' :
  createToken sender id n d cap s = Done tt s' ->
  isActive (info s id) = false /\ 0 < cap /\
  s' = set_info id (mkTokenInfo n d cap 0 true) s.
Proof.
  intros Hrun. unfold createToken, _createToken in Hrun. exec_inv Hrun. helper_inv.
  bool_to_prop. auto.
Qed.

Lemma updateTokenInfo_Done sender id n d s s' :
  updateTokenInfo sender id n d s = Done tt s' ->
  s' = set_info id (mkTokenInfo n d (maxSupply (info s id)) (currentSupply (info s id))
                                (isActive (info s id))) s.
Proof.
  intros Hrun. unfold updateTokenInfo in Hrun. exec_inv Hrun. helper_inv.
  congruence.
Qed.

Lemma safeTransferFrom_Done sender from to id value s s' :
  safeTransferFrom sender from to id value s = Done tt s' ->
  from <> 0 /\ to <> 0 /\ value <= balanceOf s from id /\
  s' = (let s1 := set_balance id from (balanceOf s from id - value) s in
        set_balance id to (balanceOf s1 to id + value) s1).
Proof.
  intros Hrun. unfold safeTransferFrom, _updateWithAcceptanceCheck in Hrun.
  rewrite _update_singleton in Hrun. unfold _update_one in Hrun.
  exec_inv Hrun; bool_to_prop; try congruence; auto.
Qed.

Lemma treasury_ops_Done sender op s s' :
  match op with
  | PayDividend _ _ | WithdrawUSDC _ | AddUSDC _ | SetBaseURI _ => True
  | _ => False
  end ->
  run sender op s = Done tt s' -> same_tokens s s'.
Proof.
  intros Hop Hrun. unfold same_tokens.
  destruct op; try contradiction; simpl in Hrun;
    unfold payDividend, withdrawUSDC, addUSDC, setBaseURI in Hrun;
    exec_inv Hrun; helper_inv; auto.
Qed.

(** *** The two loops of [mintBatch] *)

Lemma info_set_balance id a v s id' : info (set_balance id a v s) id' = info s id'.
Proof. reflexivity. Qed.

Lemma sum_balances_set_info id i s id' :
  sum_balances (set_info id i s) id' = sum_balances s id'.
Proof. reflexivity. Qed.

Lemma balanceOf_set_info id i s a id' :
  balanceOf (set_info id i s) a id' = balanceOf s a id'.
Proof. reflexivity. Qed.

Lemma mintBatch_loop_balances ids amounts s :
  _balances (final (mintBatch_loop ids amounts s)) = _balances s.
Proof.
  revert amounts s. induction ids as [|id ids IH]; intros [|amount amounts] s;
    try reflexivity.
  cbn [mintBatch_loop].
  cbv [Exec.bind Exec.gets Exec.require Exec.add Exec.modify Exec.ret Exec.fail].
  destruct (isActive (info s id)); [| reflexivity].
  destruct (currentSupply (info s id) + amount <=? MAX_UINT256); [| reflexivity].
  destruct (currentSupply (info s id) + amount <=? maxSupply (info s id));
    [| reflexivity].
  now rewrite IH.
Qed.

Lemma mintBatch_loop_Done ids amounts s u s' :
  mintBatch_loop ids amounts s = Done u s' ->
  forall id',
    maxSupply (info s' id') = maxSupply (info s id') /\
    isActive (info s' id') = isActive (info s id') /\
    currentSupply (info s' id') = currentSupply (info s id') + batch_total id' ids amounts /\
    (currentSupply (info s id') <= maxSupply (info s id') ->
     currentSupply (info s' id') <= maxSupply (info s id')) /\
    (isActive (info s id') = false -> batch_total id' ids amounts = 0).
Proof.
  revert amounts s. induction ids as [|id ids IH]; intros [|amount amounts] s Hrun id';
    cbn [mintBatch_loop batch_total] in *; exec_inv Hrun;
    try (repeat split; (reflexivity || lia || auto); fail).
  bool_to_prop.
  specialize (IH _ _ Hrun id') as (Hmax & Hact & Hcur & Hle & Hoff).
  rewrite info_set_currentSupply in Hmax, Hact, Hcur, Hle, Hoff.
  destruct (N.eqb_spec id id') as [<- | Hne].
  - rewrite decide_True in * by reflexivity. simpl in *.
    repeat split; auto; try lia; intros; congruence.
  - rewrite decide_False in * by congruence.
    repeat split; auto; lia.
Qed.

Lemma sum_credit id a v s id' :
  sum_balances (set_balance id a (balanceOf s a id + v) s) id'
  = sum_balances s id' + (if id =? id' then v else 0).
Proof.
  pose proof (sum_balances_set_balance id a (balanceOf s a id + v) s id') as Hsum.
  destruct (N.eqb_spec id id') as [<- | Hne].
  - rewrite !decide_True in Hsum by reflexivity. lia.
  - rewrite !decide_False in Hsum by congruence. lia.
Qed.

Lemma sum_debit id a v s id' :
  v <= balanceOf s a id ->
  sum_balances (set_balance id a (balanceOf s a id - v) s) id'
    + (if id =? id' then v else 0)
  = sum_balances s id'.
Proof.
  intros Hv.
  pose proof (sum_balances_set_balance id a (balanceOf s a id - v) s id') as Hsum.
  destruct (N.eqb_spec id id') as [<- | Hne].
  - rewrite !decide_True in Hsum by reflexivity. lia.
  - rewrite !decide_False in Hsum by congruence. lia.
Qed.

Lemma balanceOf_zero_set_balance id a v s id' :
  a <> 0 -> balanceOf (set_balance id a v s) 0 id' = balanceOf s 0 id'.
Proof.
  intros Ha. rewrite balanceOf_set_balance.
  rewrite decide_False; [reflexivity | intros [_ ?]; congruence].
Qed.

Lemma _update_one_Done from to id value s u s' :
  _update_one from to id value s = Done u s' ->
  tokenInfo s' = tokenInfo s /\
  forall id',
    sum_balances s' id' + (if from =? 0 then 0 else if id =? id' then value else 0)
    = sum_balances s id' + (if to =? 0 then 0 else if id =? id' then value else 0) /\
    (balanceOf s 0 id' = 0 -> balanceOf s' 0 id' = 0).
Proof.
  intros Hrun. unfold _update_one in Hrun.
  destruct (N.eqb_spec from 0) as [Hf | Hf]; destruct (N.eqb_spec to 0) as [Ht | Ht];
    cbn [negb] in Hrun; exec_inv Hrun; bool_to_prop;
    (split; [reflexivity |]); intros id'.
  - split; [lia | auto].
  - rewrite sum_credit, balanceOf_zero_set_balance by exact Ht.
    split; [lia | auto].
  - pose proof (sum_debit id from value s id' ltac:(assumption)).
    rewrite balanceOf_zero_set_balance by exact Hf.
    split; [lia | auto].
  - pose proof (sum_debit id from value s id' ltac:(assumption)).
    rewrite sum_credit, !balanceOf_zero_set_balance by assumption.
    split; [lia | auto].
Qed.

Lemma _update_loop_Done from to ids values s u s' :
  _update_loop from to ids values s = Done u s' ->
  tokenInfo s' = tokenInfo s /\
  forall id',
    sum_balances s' id' + (if from =? 0 then 0 else batch_total id' ids values)
    = sum_balances s id' + (if to =? 0 then 0 else batch_total id' ids values) /\
    (balanceOf s 0 id' = 0 -> balanceOf s' 0 id' = 0).
Proof.
  revert values s. induction ids as [|id ids IH]; intros [|value values] s Hrun;
    cbn [_update_loop batch_total] in *; exec_inv Hrun.
  - split; [reflexivity |]. intros id'. split; [| auto]. now destruct (from =? 0), (to =? 0).
  - split; [reflexivity |]. intros id'. split; [| auto]. now destruct (from =? 0), (to =? 0).
  - apply _update_one_Done in Hrun0 as [Hinfo1 Hone].
    apply IH in Hrun as [Hinfo Hrest].
    split; [congruence |]. intros id'.
    destruct (Hone id') as [Hsum1 Hz1]. destruct (Hrest id') as [Hsum Hz].
    split; [| auto].
    destruct (from =? 0), (to =? 0); lia.
Qed.

Lemma same_info s s' id : tokenInfo s' = tokenInfo s -> info s' id = info s id.
Proof. unfold info. now intros ->. Qed.

Lemma mintBatch_Done sender to ids amounts s s' :
  mintBatch sender to ids amounts s = Done tt s' ->
  forall id',
    maxSupply (info s' id') = maxSupply (info s id') /\
    isActive (info s' id') = isActive (info s id') /\
    currentSupply (info s' id') = currentSupply (info s id') + batch_total id' ids amounts /\
    (currentSupply (info s id') <= maxSupply (info s id') ->
     currentSupply (info s' id') <= maxSupply (info s id')) /\
    sum_balances s' id' = sum_balances s id' + batch_total id' ids amounts /\
    (balanceOf s 0 id' = 0 -> balanceOf s' 0 id' = 0).
Proof.
  intros Hrun id'. unfold mintBatch, _mintBatch, _updateWithAcceptanceCheck, _update in Hrun.
  exec_inv Hrun; helper_inv; bool_to_prop; try congruence.
  pose proof (mintBatch_loop_balances ids amounts s) as Hbal.
  match goal with
  | H : mintBatch_loop _ _ _ = Done _ _ |- _ =>
      rewrite H in Hbal; cbn [final] in Hbal;
      apply mintBatch_loop_Done with (id' := id') in H
        as (Hmax & Hact & Hcur & Hle & _)
  end.
  match goal with
  | H : _update_loop _ _ _ _ _ = Done _ _ |- _ =>
      apply _update_loop_Done in H as [Hinfo Hsums]
  end.
  destruct (Hsums id') as [Hsum Hzero].
  rewrite !(same_info _ _ _ Hinfo).
  assert (Hs : sum_balances s1 id' = sum_balances s id')
    by (unfold sum_balances, holders; now rewrite Hbal).
  assert (Hz : balanceOf s1 0 id' = balanceOf s 0 id')
    by (unfold balanceOf; now rewrite Hbal).
  destruct (N.eqb_spec to 0); [congruence |].
  change (0 =? 0) with true in Hsum. cbv iota in Hsum.
  repeat split; auto; try lia; intros; apply Hzero; congruence.
Qed.

(** *** The invariant *)

Lemma constructor_inv deployer self (l : ledger) : ledger_inv (constructor deployer self l).
Proof.
  intros id. unfold constructor.
  rewrite !info_set_info, !sum_balances_set_info, !balanceOf_set_info.
  assert (Hsum : sum_balances (ledger := ledger)
                   (mkState self deployer ∅ ∅ ∅
                      (list_byte_of_string
                         "https://raw.githubusercontent.com/davevurby/nft-secret-of-the-deep/refs/heads/main/metadata/{id}.json")
                      POLYGON_USDC l) id = 0).
  { unfold sum_balances, holders. simpl. rewrite lookup_empty. reflexivity. }
  rewrite Hsum.
  repeat case_decide; simpl; repeat split; try lia; try discriminate;
    try reflexivity; unfold balanceOf; simpl; now rewrite lookup_empty.
Qed.

Lemma same_tokens_inv s s' : same_tokens s s' -> ledger_inv s -> ledger_inv s'.
Proof.
  intros (Hinfo & Hbal & _) Hinv id. specialize (Hinv id).
  unfold sum_balances, holders, balanceOf, info in *.
  now rewrite Hinfo, Hbal.
Qed.

Lemma credit_inv id to amount s :
  ledger_inv s -> to <> 0 ->
  currentSupply (info s id) + amount <= maxSupply (info s id) ->
  isActive (info s id) = true ->
  ledger_inv (set_balance id to (balanceOf s to id + amount)
                (set_currentSupply id (currentSupply (info s id) + amount) s)).
Proof.
  intros Hinv Hto Hcap Hact id'. destruct (Hinv id') as (Hle & Hsum & Hoff & Hz).
  set (s1 := set_currentSupply id (currentSupply (info s id) + amount) s).
  pose proof (sum_credit id to amount s1 id') as Hc.
  change (balanceOf s1 to id) with (balanceOf s to id) in Hc.
  change (sum_balances s1 id') with (sum_balances s id') in Hc.
  rewrite Hc, info_set_balance, balanceOf_zero_set_balance by exact Hto.
  subst s1. rewrite info_set_currentSupply.
  change (balanceOf (set_currentSupply id (currentSupply (info s id) + amount) s) 0 id')
    with (balanceOf s 0 id').
  destruct (N.eqb_spec id id') as [<- | Hne].
  - rewrite decide_True by reflexivity. simpl.
    repeat split; auto; try lia. congruence.
  - rewrite decide_False by congruence. repeat split; auto; lia.
Qed.

Lemma debit_inv id from amount s :
  ledger_inv s -> from <> 0 ->
  amount <= currentSupply (info s id) -> amount <= balanceOf s from id ->
  ledger_inv (set_balance id from (balanceOf s from id - amount)
                (set_currentSupply id (currentSupply (info s id) - amount) s)).
Proof.
  intros Hinv Hfrom Hcur Hbal id'. destruct (Hinv id') as (Hle & Hsum & Hoff & Hz).
  set (s1 := set_currentSupply id (currentSupply (info s id) - amount) s).
  pose proof (sum_debit id from amount s1 id' Hbal) as Hd.
  change (balanceOf s1 from id) with (balanceOf s from id) in Hd.
  change (sum_balances s1 id') with (sum_balances s id') in Hd.
  rewrite info_set_balance, balanceOf_zero_set_balance by exact Hfrom.
  subst s1. rewrite info_set_currentSupply.
  change (balanceOf (set_currentSupply id (currentSupply (info s id) - amount) s) 0 id')
    with (balanceOf s 0 id').
  destruct (N.eqb_spec id id') as [<- | Hne].
  - rewrite decide_True by reflexivity. simpl.
    repeat split; auto; try lia. intros Hoff'. specialize (Hoff Hoff'). lia.
  - rewrite decide_False by congruence. repeat split; auto; lia.
Qed.

Lemma safeBatchTransferFrom_Done sender from to ids values s s' :
  safeBatchTransferFrom sender from to ids values s = Done tt s' ->
  tokenInfo s' = tokenInfo s /\
  forall id',
    sum_balances s' id' = sum_balances s id' /\
    (balanceOf s 0 id' = 0 -> balanceOf s' 0 id' = 0).
Proof.
  intros Hrun. unfold safeBatchTransferFrom, _updateWithAcceptanceCheck, _update in Hrun.
  exec_inv Hrun; bool_to_prop; try congruence;
    match goal with
    | H : _update_loop _ _ _ _ _ = Done _ _ |- _ =>
        apply _update_loop_Done in H as [Hinfo Hsums]
    end;
    (split; [exact Hinfo |]); intros id'; destruct (Hsums id') as [Hsum Hzero];
    destruct (N.eqb_spec from 0); try congruence;
    destruct (N.eqb_spec to 0); try congruence;
    (split; [lia | exact Hzero]).
Qed.

Lemma run_inv sender op s s' :
  ledger_inv s -> run sender op s = Done tt s' -> ledger_inv s'.
Proof.
  intros Hinv Hrun. destruct op; simpl in Hrun.
  - apply createToken_Done in Hrun as (Hoff & Hcap & ->).
    intros id'. destruct (Hinv id') as (Hle & Hsum & Hoff' & Hz).
    rewrite info_set_info, sum_balances_set_info, balanceOf_set_info.
    case_decide as Hid; [subst id'; simpl | auto].
    repeat split; auto; try lia; try discriminate.
    rewrite Hsum. auto.
  - apply mint_Done in Hrun as (_ & Hact & Hcap & Hto & ->).
    now apply credit_inv.
  - intros id'. destruct (Hinv id') as (Hle & Hsum & Hoff & Hz).
    destruct (mintBatch_Done _ _ _ _ _ _ Hrun id')
      as (Hmax & Hact & Hcur & Hle' & Hsum' & Hz').
    repeat split; auto; try lia.
    intros Hoff'. rewrite Hact in Hoff'.
    unfold mintBatch in Hrun. exec_inv Hrun.
    match goal with
    | H : mintBatch_loop _ _ _ = Done _ _ |- _ =>
        apply mintBatch_loop_Done with (id' := id') in H as (_ & _ & _ & _ & Hb)
    end.
    helper_inv. rewrite Hcur, Hb, Hoff by assumption. reflexivity.
  - apply burn_Done in Hrun as (_ & Hcur & Hfrom & Hbal & ->).
    now apply debit_inv.
  - apply payback_Done in Hrun as (_ & _ & _ & Hbal & _ & _ & Hcur & Hfrom & l' & _ & ->).
    eapply same_tokens_inv; [| apply debit_inv; eassumption].
    repeat split.
  - eapply same_tokens_inv; [| exact Hinv].
    eapply (treasury_ops_Done sender (PayDividend to usdcAmount)); [exact I | exact Hrun].
  - eapply same_tokens_inv; [| exact Hinv].
    eapply (treasury_ops_Done sender (WithdrawUSDC amount)); [exact I | exact Hrun].
  - eapply same_tokens_inv; [| exact Hinv].
    eapply (treasury_ops_Done sender (AddUSDC amount)); [exact I | exact Hrun].
  - apply updateTokenInfo_Done in Hrun as ->.
    intros id'. destruct (Hinv id') as (Hle & Hsum & Hoff & Hz).
    rewrite info_set_info, sum_balances_set_info, balanceOf_set_info.
    case_decide as Hid; [subst id'; simpl | auto]. auto.
  - eapply same_tokens_inv; [| exact Hinv].
    eapply (treasury_ops_Done sender (SetBaseURI newBaseURI)); [exact I | exact Hrun].
  - apply safeTransferFrom_Done in Hrun as (Hfrom & Hto & Hbal & ->). cbv zeta.
    intros id'. destruct (Hinv id') as (Hle & Hsum & Hoff & Hz).
    rewrite sum_credit, info_set_balance, !balanceOf_zero_set_balance by assumption.
    pose proof (sum_debit id from value s id' Hbal). rewrite info_set_balance.
    repeat split; auto. lia.
  - apply safeBatchTransferFrom_Done in Hrun as [Hinfo Hsums].
    intros id'. destruct (Hinv id') as (Hle & Hsum & Hoff & Hz).
    destruct (Hsums id') as [Hsum' Hzero'].
    rewrite (same_info _ _ _ Hinfo), Hsum'. auto.
Qed.

Lemma reachable_inv s : reachable s -> ledger_inv s.
Proof.
  induction 1 as [deployer self l | s sender op s' _ IH Hcall | s s' _ IH Hsame].
  - apply constructor_inv.
  - apply call_Ok in Hcall. eapply run_inv; eassumption.
  - eapply same_tokens_inv; eassumption.
Qed.

End LedgerFacts.

(** ** Forward runs of the treasury functions *)
Section Forward.
Context {ledger : Type} `{!IUSDC ledger} `{!IERC1155Receiver}.
Implicit Types (s : State ledger).

Lemma onlyOwner_owner s : onlyOwner (_owner s) s = Done tt s.
Proof. unfold onlyOwner. exec_unfold. now rewrite N.eqb_refl. Qed.

Lemma onlyOwner_stranger sender s :
  sender <> _owner s -> onlyOwner sender s = Abort (OwnableUnauthorizedAccount sender) s.
Proof.
  intros Hne. unfold onlyOwner. exec_unfold.
  destruct (N.eqb_spec (_owner s) sender); [congruence | reflexivity].
Qed.

Lemma bind_Done_run {A B} (m : Exec.t (State ledger) A) (k : A -> Exec.t (State ledger) B)
    s a s1 :
  m s = Done a s1 -> Exec.bind m k s = k a s1.
Proof. unfold Exec.bind. now intros ->. Qed.

Lemma bind_Abort_run {A B} (m : Exec.t (State ledger) A) (k : A -> Exec.t (State ledger) B)
    s e s1 :
  m s = Abort e s1 -> Exec.bind m k s = Abort e s1.
Proof. unfold Exec.bind. now intros ->. Qed.

Lemma _burn_run operator from id value s :
  from <> 0 -> value <= balanceOf s from id ->
  _burn operator from id value s
  = Done tt (set_balance id from (balanceOf s from id - value) s).
Proof.
  intros Hfrom Hbal. unfold _burn, _updateWithAcceptanceCheck.
  rewrite _update_singleton. unfold _update_one. exec_unfold.
  destruct (N.eqb_spec from 0); [congruence |]. cbn [negb].
  destruct (N.ltb_spec (balanceOf s from id) value); [lia |].
  reflexivity.
Qed.

Lemma payback_run sender from id tokenAmount usdcAmount s l' :
  sender = _owner s -> isActive (info s id) = true ->
  0 < tokenAmount -> tokenAmount <= balanceOf s from id ->
  0 < usdcAmount -> usdcAmount <= treasury s ->
  tokenAmount <= currentSupply (info s id) -> from <> 0 ->
  transfer_usdc (this s) from usdcAmount (usdc s) = Some (true, l') ->
  payback sender from id tokenAmount usdcAmount s
  = Done tt (set_usdc l'
               (set_balance id from (balanceOf s from id - tokenAmount)
                  (set_currentSupply id (currentSupply (info s id) - tokenAmount) s))).
Proof.
  intros -> Hact Hta Hbal Hua Htr Hcur Hfrom Hsend. unfold payback, treasury in *.
  rewrite (bind_Done_run _ _ _ _ _ (onlyOwner_owner s)).
  unfold external. exec_cbv. rewrite Hact. cbv beta iota.
  destruct (N.ltb_spec 0 tokenAmount); [| lia]. cbv beta iota.
  destruct (N.leb_spec tokenAmount (balanceOf s from id)); [| lia]. cbv beta iota.
  destruct (N.ltb_spec 0 usdcAmount); [| lia]. cbv beta iota.
  destruct (N.leb_spec usdcAmount (balanceOf_usdc (usdc s) (this s))); [| lia]. cbv beta iota.
  destruct (N.leb_spec tokenAmount (currentSupply (info s id))); [| lia]. cbv beta iota.
  rewrite _burn_run by assumption. cbv beta iota.
  cbn [usdc set_balance set_currentSupply set_info]. rewrite Hsend. reflexivity.
Qed.

Lemma payback_short_of_usdc sender from id tokenAmount usdcAmount s :
  sender = _owner s -> isActive (info s id) = true ->
  0 < tokenAmount -> tokenAmount <= balanceOf s from id ->
  0 < usdcAmount -> treasury s < usdcAmount ->
  payback sender from id tokenAmount usdcAmount s
  = Abort (Revert "Insufficient USDC balance") s.
Proof.
  intros -> Hact Hta Hbal Hua Htr. unfold payback, treasury in *.
  rewrite (bind_Done_run _ _ _ _ _ (onlyOwner_owner s)).
  exec_cbv. rewrite Hact. cbv beta iota.
  destruct (N.ltb_spec 0 tokenAmount); [| lia]. cbv beta iota.
  destruct (N.leb_spec tokenAmount (balanceOf s from id)); [| lia]. cbv beta iota.
  destruct (N.ltb_spec 0 usdcAmount); [| lia]. cbv beta iota.
  destruct (N.leb_spec usdcAmount (balanceOf_usdc (usdc s) (this s))); [lia |]. cbv beta iota.
  reflexivity.
Qed.

Lemma addUSDC_run sender amount s l' :
  sender = _owner s -> 0 < amount -> amount <= balanceOf_usdc (usdc s) sender ->
  transferFrom_usdc (this s) sender (this s) amount (usdc s) = Some (true, l') ->
  addUSDC sender amount s = Done tt (set_usdc l' s).
Proof.
  intros -> Hamount Hwallet Hsend. unfold addUSDC.
  rewrite (bind_Done_run _ _ _ _ _ (onlyOwner_owner s)).
  unfold external. exec_cbv.
  destruct (N.ltb_spec 0 amount); [| lia]. cbv beta iota.
  destruct (N.leb_spec amount (balanceOf_usdc (usdc s) (_owner s))); [| lia]. cbv beta iota.
  rewrite Hsend. reflexivity.
Qed.

End Forward.

(** ** Deposits: [addUSDC] *)

Lemma ERC20_transferFrom_ok (l : ERC20.t) (spender from to : address) (value : uint256) :
  from <> 0 -> to <> 0 ->
  value <= ERC20.balanceOf l from -> value <= ERC20.allowance l from spender ->
  exists l', ERC20.transferFrom spender from to value l = Some (true, l').
Proof.
  intros Hfrom Hto Hbal Hallow. unfold ERC20.transferFrom, ERC20._spendAllowance.
  assert (Hmove : forall l1, ERC20.balances l1 = ERC20.balances l ->
                    exists l', ERC20._transfer from to value l1 = Some l').
  { intros l1 Hsame. unfold ERC20._transfer, ERC20.balanceOf. rewrite Hsame.
    destruct (N.eqb_spec from 0); [congruence |].
    destruct (N.eqb_spec to 0); [congruence |]. cbn [orb].
    fold (ERC20.balanceOf l from).
    destruct (N.ltb_spec (ERC20.balanceOf l from) value); [lia | eauto]. }
  destruct (ERC20.allowance l from spender <? MAX_UINT256).
  - destruct (N.ltb_spec (ERC20.allowance l from spender) value); [lia |].
    edestruct Hmove as (l' & ->); [| eauto]. reflexivity.
  - edestruct (Hmove l) as (l' & ->); [reflexivity | eauto].
Qed.

(** C1, as amended: [addUSDC] is owner-gated.  With a positive amount, a
    sufficient stable-coin balance and a sufficient allowance, the call of
    the owner succeeds, and the call of anyone else fails with
    [Unauthorized] and changes nothing. *)
Theorem C1_addUSDC_is_owner_gated (s : State ERC20.t) (sender : address) (amount : uint256) :
  0 < amount ->
  amount <= ERC20.balanceOf (usdc s) sender ->
  amount <= ERC20.allowance (usdc s) sender (this s) ->
  sender <> 0 -> this s <> 0 ->
  (sender = _owner s ->
     exists s', call (addUSDC sender amount) s = (Ok tt, s')) /\
  (sender <> _owner s ->
     call (addUSDC sender amount) s = (Reverted (OwnableUnauthorizedAccount sender), s) /\
     kind_of (OwnableUnauthorizedAccount sender) = Unauthorized).
Proof.
  intros Hamount Hbal Hallow Hsender Hthis. split.
  - intros Howner.
    destruct (ERC20_transferFrom_ok (usdc s) (this s) sender (this s) amount)
      as (l' & Hsend); try assumption.
    exists (set_usdc l' s). apply call_Ok.
    now apply addUSDC_run.
  - intros Hstranger. split; [| reflexivity].
    unfold call, addUSDC.
    now rewrite (bind_Abort_run _ _ _ _ _ (onlyOwner_stranger sender s Hstranger)).
Qed.

(** ** Batch minting *)

Section BatchFacts.
Context {ledger : Type} `{!IUSDC ledger} `{!IERC1155Receiver}.
Implicit Types (s : State ledger).





End BatchFacts.

(** *** What [mintBatch] does pair by pair *)
Section BatchRuns.
Context {ledger : Type} `{!IUSDC ledger} `{!IERC1155Receiver}.
Implicit Types (s : State ledger) (id amount : uint256) (a to : address)
  (ids amounts : list uint256).










End BatchRuns.


(** ** Burning *)

Section BurnFacts.
Context {ledger : Type} `{!IUSDC ledger} `{!IERC1155Receiver}.
Implicit Types (s : State ledger).

Lemma burn_unauthorized sender from id amount s :
  sender <> from -> sender <> _owner s ->
  burn sender from id amount s = Abort (Revert "Not authorized to burn") s.
Proof.
  intros Hfrom Howner. unfold burn. exec_cbv.
  destruct (N.eqb_spec sender from); [congruence |].
  destruct (N.eqb_spec sender (_owner s)); [congruence |]. reflexivity.
Qed.

Lemma burn_short_of_tokens sender from id amount s :
  sender = from \/ sender = _owner s ->
  balanceOf s from id < amount ->
  exists s1, burn sender from id amount s = Abort (burn_failure s from id amount) s1.
Proof.
  intros Hauth Hshort. unfold burn, burn_failure. exec_cbv.
  assert ((sender =? from) || (sender =? _owner s) = true) as ->.
  { destruct Hauth as [-> | ->]; rewrite N.eqb_refl; [reflexivity | apply orb_true_r]. }
  destruct (N.ltb_spec (currentSupply (info s id)) amount) as [Hlow | Hhigh].
  - destruct (N.leb_spec amount (currentSupply (info s id))); [lia | eauto].
  - destruct (N.leb_spec amount (currentSupply (info s id))); [| lia].
    unfold _burn, _updateWithAcceptanceCheck.
    destruct (from =? 0) eqn:Hfrom; [eauto |].
    rewrite _update_singleton. unfold _update_one. exec_cbv.
    rewrite Hfrom. cbn [negb]. cbv beta iota.
    change (balanceOf (set_currentSupply id (currentSupply (info s id) - amount) s) from id)
      with (balanceOf s from id).
    destruct (N.ltb_spec (balanceOf s from id) amount); [eauto | lia].
Qed.

End BurnFacts.

(** C3, as amended: [burn(from, id, amount)] fails with [Unauthorized]
    unless the caller is [from] or the owner.  When [from] holds less than
    [amount] an authorized call fails as well: with an arithmetic panic
    when [currentSupply] is below [amount], and otherwise with the error of
    the inherited ledger (invalid sender for the zero address, insufficient
    balance for any other), so that the failure is of kind
    [InsufficientBalance] exactly when the supply covers [amount] and
    [from] is not the zero address.  Every failing call leaves
    [currentSupply] and all holder balances unchanged. *)
Theorem C3_burn_failures {ledger : Type} `{!IUSDC ledger} `{!IERC1155Receiver}
    (s : State ledger) (sender from : address) (id amount : uint256) :
  (sender <> from -> sender <> _owner s ->
     call (burn sender from id amount) s = (Reverted (Revert "Not authorized to burn"), s) /\
     kind_of (Revert "Not authorized to burn") = Unauthorized) /\
  (sender = from \/ sender = _owner s -> balanceOf s from id < amount ->
     call (burn sender from id amount) s = (Reverted (burn_failure s from id amount), s)) /\
  (kind_of (burn_failure s from id amount) = InsufficientBalance <->
     amount <= currentSupply (info s id) /\ from <> 0) /\
  (forall e s', call (burn sender from id amount) s = (Reverted e, s') ->
     s' = s /\ (forall id', info s' id' = info s id') /\
     (forall a id', balanceOf s' a id' = balanceOf s a id')).
Proof.
  split; [| split; [| split]].
  - intros Hfrom Howner. split; [| reflexivity].
    unfold call. now rewrite burn_unauthorized.
  - intros Hauth Hshort.
    destruct (burn_short_of_tokens sender from id amount s Hauth Hshort) as (s1 & Hrun).
    unfold call. now rewrite Hrun.
  - unfold burn_failure.
    destruct (N.ltb_spec (currentSupply (info s id)) amount);
      [| destruct (N.eqb_spec from 0)]; cbn [kind_of];
      (split; [try discriminate | intros [? ?]; try lia; try congruence]).
    intros _. split; [lia | assumption].
  - intros e s' Hcall. apply call_Reverted in Hcall as ->. auto.
Qed.

(** ** Supply and balances in reachable states *)

(** C4: in every reachable state and for every token id,
    [0 <= currentSupply <= maxSupply]. *)
Theorem C4_supply_within_bounds {ledger : Type} `{!IUSDC ledger} `{!IERC1155Receiver}
    (s : State ledger) (id : uint256) :
  reachable s ->
  0 <= currentSupply (info s id) /\ currentSupply (info s id) <= maxSupply (info s id).
Proof.
  intros Hreach. destruct (reachable_inv s Hreach id) as (Hle & _).
  split; [apply N.le_0_l | exact Hle].
Qed.

(** C5: in every reachable state and for every token id, the balances of
    all holders add up to [currentSupply], and every call that succeeds
    from there keeps it so. *)
Theorem C5_balances_sum_to_supply {ledger : Type} `{!IUSDC ledger} `{!IERC1155Receiver}
    (s : State ledger) (id : uint256) :
  reachable s ->
  sum_balances s id = currentSupply (info s id) /\
  (forall sender op s',
     call (run sender op) s = (Ok tt, s') ->
     sum_balances s' id = currentSupply (info s' id)).
Proof.
  intros Hreach. split.
  - now destruct (reachable_inv s Hreach id) as (_ & Hsum & _).
  - intros sender op s' Hcall.
    assert (Hreach' : reachable s') by (eapply reachable_call; eassumption).
    now destruct (reachable_inv s' Hreach' id) as (_ & Hsum & _).
Qed.


(** ** Buying back: [payback] *)

Lemma ERC20_transfer_ok (l : ERC20.t) (sender to : address) (value : uint256) :
  sender <> 0 -> to <> 0 -> sender <> to -> value <= ERC20.balanceOf l sender ->
  exists l',
    ERC20.transfer sender to value l = Some (true, l') /\
    ERC20.balanceOf l' sender = ERC20.balanceOf l sender - value.
Proof.
  intros Hsender Hto Hne Hbal. unfold ERC20.transfer, ERC20._transfer.
  destruct (N.eqb_spec sender 0); [congruence |].
  destruct (N.eqb_spec to 0); [congruence |]. cbn [orb].
  destruct (N.ltb_spec (ERC20.balanceOf l sender) value); [lia |].
  eexists. split; [reflexivity |].
  unfold ERC20.balanceOf at 1. cbn [ERC20.balances].
  rewrite lookup_insert_ne by congruence. now rewrite lookup_insert_eq.
Qed.

(** Either the tokens are burned and the payment is made, or nothing
    happens. *)
Lemma payback_atomic {ledger : Type} `{!IUSDC ledger} `{!IERC1155Receiver}
    (s : State ledger) (sender from : address) (id tokenAmount usdcAmount : uint256) :
  (exists s' l',
     call (payback sender from id tokenAmount usdcAmount) s = (Ok tt, s') /\
     balanceOf s' from id + tokenAmount = balanceOf s from id /\
     currentSupply (info s' id) + tokenAmount = currentSupply (info s id) /\
     transfer_usdc (this s) from usdcAmount (usdc s) = Some (true, l') /\
     usdc s' = l') \/
  (exists e, call (payback sender from id tokenAmount usdcAmount) s = (Reverted e, s)).
Proof.
  unfold call.
  destruct (payback sender from id tokenAmount usdcAmount s) as [[] s' | e s'] eqn:Hrun;
    [left | right; eauto].
  apply payback_Done in Hrun
    as (_ & _ & _ & Hbal & _ & _ & Hcur & _ & l' & Hsend & ->).
  exists (set_usdc l'
            (set_balance id from (balanceOf s from id - tokenAmount)
               (set_currentSupply id (currentSupply (info s id) - tokenAmount) s))), l'.
  split; [reflexivity |].
  change (balanceOf (set_usdc l' ?x) from id) with (balanceOf x from id).
  change (info (set_usdc l' (set_balance id from ?v ?x)) id) with (info x id).
  rewrite balanceOf_set_balance, info_set_currentSupply, !decide_True by auto.
  cbn [currentSupply usdc set_usdc].
  repeat split; auto; lia.
Qed.

(** C6: with 100 USDC in the treasury and a holder of 10 units of the
    active token 3, [payback(holder, 3, 4, 50_000000)] by the owner
    succeeds and leaves the holder 6 units, a [currentSupply] of token 3
    lower by 4 and a treasury of 50_000000; the same call for 60_000000
    then fails with [InsufficientBalance] and changes nothing.  On any
    ledger, a [payback] burns and pays, or does neither. *)
Theorem C6_payback_scenario :
  (forall (R : IERC1155Receiver) (s : State ERC20.t) (holder : address),
     reachable s ->
     isActive (info s 3) = true ->
     balanceOf s holder 3 = 10 ->
     treasury s = 100000000 ->
     holder <> this s -> this s <> 0 ->
     exists s1,
       call (payback (_owner s) holder 3 4 50000000) s = (Ok tt, s1) /\
       balanceOf s1 holder 3 = 6 /\
       currentSupply (info s1 3) + 4 = currentSupply (info s 3) /\
       treasury s1 = 50000000 /\
       call (payback (_owner s1) holder 3 4 60000000) s1
         = (Reverted (Revert "Insufficient USDC balance"), s1) /\
       kind_of (Revert "Insufficient USDC balance") = InsufficientBalance) /\
  (forall (ledger : Type) (U : IUSDC ledger) (R : IERC1155Receiver) (s : State ledger)
          (sender from : address) (id tokenAmount usdcAmount : uint256),
     (exists s' l',
        call (payback sender from id tokenAmount usdcAmount) s = (Ok tt, s') /\
        balanceOf s' from id + tokenAmount = balanceOf s from id /\
        currentSupply (info s' id) + tokenAmount = currentSupply (info s id) /\
        transfer_usdc (this s) from usdcAmount (usdc s) = Some (true, l') /\
        usdc s' = l') \/
     (exists e, call (payback sender from id tokenAmount usdcAmount) s = (Reverted e, s))).
Proof.
  split; [| intros; apply payback_atomic].
  intros R s holder Hreach Hact Hbal Htreasury Hself Hthis.
  destruct (reachable_inv s Hreach 3) as (_ & Hsum & _ & Hzero).
  assert (Hholder : holder <> 0) by (intros ->; rewrite Hzero in Hbal; discriminate).
  assert (Hcur : 10 <= currentSupply (info s 3)).
  { rewrite <- Hsum, <- Hbal. rewrite balanceOf_holders. apply balance_le_total. }
  unfold treasury in Htreasury. cbn [balanceOf_usdc ERC20_IUSDC] in Htreasury.
  destruct (ERC20_transfer_ok (usdc s) (this s) holder 50000000)
    as (l' & Hsend & Hleft); try congruence; try lia.
  set (s1 := set_usdc l'
               (set_balance 3 holder (balanceOf s holder 3 - 4)
                  (set_currentSupply 3 (currentSupply (info s 3) - 4) s))).
  assert (Hrun : payback (_owner s) holder 3 4 50000000 s = Done tt s1).
  { apply payback_run; auto; try lia.
    unfold treasury. cbn [balanceOf_usdc ERC20_IUSDC]. lia. }
  assert (Hbal1 : balanceOf s1 holder 3 = 6).
  { subst s1.
    change (balanceOf (set_usdc l' ?x) holder 3) with (balanceOf x holder 3).
    rewrite balanceOf_set_balance, decide_True, Hbal by auto. reflexivity. }
  assert (Htreasury1 : treasury s1 = 50000000).
  { unfold treasury. subst s1. cbn [usdc this set_usdc set_balance set_currentSupply set_info
      balanceOf_usdc ERC20_IUSDC]. rewrite Hleft, Htreasury. reflexivity. }
  exists s1. split; [now apply call_Ok |]. split; [exact Hbal1 |].
  split.
  { subst s1. change (info (set_usdc l' (set_balance 3 holder ?v ?x)) 3) with (info x 3).
    rewrite info_set_currentSupply, decide_True by reflexivity.
    cbn [currentSupply]. lia. }
  split; [exact Htreasury1 |]. split; [| reflexivity].
  unfold call. rewrite payback_short_of_usdc; auto; try lia.
  subst s1. change (info (set_usdc l' (set_balance 3 holder ?v ?x)) 3) with (info x 3).
  rewrite info_set_currentSupply, decide_True by reflexivity. exact Hact.
Qed.

(** ** Metadata URIs *)

Lemma uri_run {ledger : Type} (s : State ledger) (tokenId : uint256) :
  uri tokenId s =
    if isActive (info s tokenId)
    then match resolve_outcome (_baseURI s) tokenId with
         | inr r => Done r s
         | inl e => Abort e s
         end
    else Abort (Revert "Token does not exist") s.
Proof.
  unfold uri. exec_cbv. destruct (isActive (info s tokenId)); [| reflexivity].
  apply resolve_total.
Qed.

(** C7: the resolver is a function of the template and the token id, with
    no other input.  For a template that holds the placeholder [{id}]
    exactly once, it returns the template with the placeholder replaced by
    64 lowercase hexadecimal digits whose value is the token id, everything
    else copied as it is, so that the result is 4 bytes shorter and 64
    bytes longer than the template; [uri] returns this for an active token.
    For the template [https://x/{id}.json] and token 1 the result is the
    URI with 63 zeros and a one. *)
Theorem C7_resolve_single_placeholder :
  (forall (St1 St2 : Type) (st1 : St1) (st2 : St2) (template : list byte) (tokenId : uint256),
     exists r : Error + list byte,
       resolve template tokenId st1 = match r with inr x => Done x st1 | inl e => Abort e st1 end /\
       resolve template tokenId st2 = match r with inr x => Done x st2 | inl e => Abort e st2 end) /\
  (forall (St : Type) (st : St) (template : list byte) (tokenId : uint256),
     tokenId <= MAX_UINT256 ->
     count_placeholder template = 1%nat ->
     exists pre post hex,
       template = pre ++ placeholder ++ post /\
       resolve template tokenId st = Done (pre ++ hex ++ post) st /\
       length hex = 64%nat /\
       hex_value hex = Some tokenId /\
       length (pre ++ hex ++ post) = (length template - 4 + 64)%nat /\
       (forall (ledger : Type) (s : State ledger),
          _baseURI s = template -> isActive (info s tokenId) = true ->
          call (uri tokenId) s = (Ok (pre ++ hex ++ post), s))) /\
  (forall (St : Type) (st : St),
     resolve (list_byte_of_string "https://x/{id}.json") 1 st
     = Done (list_byte_of_string
               "https://x/0000000000000000000000000000000000000000000000000000000000000001.json")
            st).
Proof.
  split; [| split].
  - intros St1 St2 st1 st2 template tokenId.
    exists (resolve_outcome template tokenId). split; apply resolve_total.
  - intros St st template tokenId Hid Hcount.
    destruct (substitute_once (hex_digits 64 tokenId) template Hcount)
      as (pre & post & Htemplate & Hsubst).
    exists pre, post, (hex_digits 64 tokenId).
    assert (Hlong : (3 <= length template)%nat).
    { rewrite Htemplate, !length_app. simpl. lia. }
    assert (Hrun : forall (St' : Type) (st' : St'),
               resolve template tokenId st' = Done (pre ++ hex_digits 64 tokenId ++ post) st').
    { intros St' st'. rewrite resolve_at_most_once by lia. now rewrite Hsubst. }
    split; [exact Htemplate |]. split; [apply Hrun |].
    split; [apply length_hex_digits |].
    split; [now apply hex_value_token_id |].
    split.
    + rewrite Htemplate, !length_app, length_hex_digits. simpl. lia.
    + intros ledger s Hbase Hact. unfold call, uri. exec_cbv.
      rewrite Hact, Hbase. cbv beta iota. now rewrite Hrun.
  - intros St st. rewrite resolve_total. reflexivity.
Qed.


(** ** The event scanner *)
Section ScannerFacts.
Import Scanner.
#[local] Open Scope Z_scope.

Lemma sort_insert_perm a l : Permutation (sort_insert a l) (a :: l).
Proof.
  induction l as [|b l IH]; simpl; [reflexivity |].
  destruct (st_timestamp a - st_timestamp b <=? 0); [reflexivity |].
  rewrite IH. apply perm_swap.
Qed.


Lemma sort_insert_sorted a l :
  StronglySorted by_timestamp l -> StronglySorted by_timestamp (sort_insert a l).
Proof.
  induction 1 as [|b l Hsorted IH Hall]; simpl.
  - repeat constructor.
  - destruct (Z.leb_spec (st_timestamp a - st_timestamp b) 0) as [Hle | Hgt].
    + constructor; [now constructor |].
      constructor; [unfold by_timestamp; lia |].
      eapply Forall_impl; [exact Hall |].
      unfold by_timestamp. intros c Hc. lia.
    + constructor; [exact IH |].
      apply (Permutation_Forall (Permutation_sym (sort_insert_perm a l))).
      constructor; [unfold by_timestamp; lia | exact Hall].
Qed.

Lemma sort_sorted l : StronglySorted by_timestamp (sort l).
Proof.
  induction l as [|a l IH]; simpl; [constructor | now apply sort_insert_sorted].
Qed.



(** Whatever the remote ledger answers, the events [getTokenEvents] hands
    out are in ascending order of timestamp. *)
Lemma getTokenEvents_sorted fuel contract fromBlock tr result tr' d :
  getTokenEvents fuel contract fromBlock tr = (Return result, tr') ->
  data result = Some d ->
  StronglySorted (fun a b => tte_timestamp a <= tte_timestamp b) (events d).
Proof.
  unfold getTokenEvents, try_catch, await. intros Hrun Hdata.
  destruct (getAllEventsInChunks fuel contract fromBlock 100 tr) as [[all | e |] tr1].
  - destruct (runner_provider contract) as [provider |].
    + destruct (stamp_all provider all tr1) as [[stamped | e |] tr2];
        cbv [pure] in Hrun; simplify_eq; simpl in Hdata; simplify_eq.
      simpl. pose proof (sort_sorted stamped) as Hsorted.
      induction Hsorted as [|x l _ IH Hall]; simpl; constructor; [exact IH |].
      apply Forall_map. eapply Forall_impl; [exact Hall |].
      intros y Hy. unfold by_timestamp in Hy.
      unfold convert. destruct (args (st_event x)), (args (st_event y)); exact Hy.
    + cbv [throw pure] in Hrun. simplify_eq; discriminate.
  - cbv [pure] in Hrun. simplify_eq; discriminate.
  - discriminate.
Qed.

(** *** More fuel does not change a scan that has finished *)

Lemma scan_fuel_mono n :
  (forall contract fromBlock chunkSize tr r tr',
      getAllEventsInChunks n contract fromBlock chunkSize tr = (r, tr') ->
      r <> Unfinished ->
      forall m, (n <= m)%nat ->
        getAllEventsInChunks m contract fromBlock chunkSize tr = (r, tr')) /\
  (forall contract provider currentBlock chunkSize startBlock allEvents tr r tr',
      chunks n contract provider currentBlock chunkSize startBlock allEvents tr = (r, tr') ->
      r <> Unfinished ->
      forall m, (n <= m)%nat ->
        chunks m contract provider currentBlock chunkSize startBlock allEvents tr = (r, tr')).
Proof.
  induction n as [|n [IHscan IHloop]].
  { split; intros; cbn in *; unfold unfinished in *; simplify_eq. }
  split.
  - intros contract fromBlock chunkSize tr r tr' Hrun Hdone m Hm.
    destruct m as [|m]; [lia |]. cbn [getAllEventsInChunks] in *.
    destruct (runner_provider contract) as [provider |]; [| exact Hrun].
    unfold await in *.
    destruct (request ReqBlockNumber (getBlockNumber provider) tr) as [[tip | e |] tr1];
      try exact Hrun.
    apply IHloop; [exact Hrun | exact Hdone | lia].
  - intros contract provider currentBlock chunkSize startBlock allEvents tr r tr'
           Hrun Hdone m Hm.
    destruct m as [|m]; [lia |]. cbn [chunks] in *.
    destruct (negb (startBlock <=? currentBlock)); [exact Hrun |].
    destruct (startBlock >? Z.min (startBlock + chunkSize - 1) currentBlock);
      [exact Hrun |].
    unfold try_catch at 1. unfold try_catch at 1 in Hrun.
    destruct (query_chunk provider startBlock _ tr) as [[events | e |] tr1];
      try exact Hrun.
    + apply IHloop; [exact Hrun | exact Hdone | lia].
    + destruct (is_range_too_large e).
      * unfold try_catch in *.
        destruct (getAllEventsInChunks n contract (Some startBlock) _ tr1)
          as [[smaller | e' |] tr2] eqn:Hinner.
        -- rewrite (IHscan _ _ _ _ _ _ Hinner ltac:(discriminate) m ltac:(lia)).
           apply IHloop; [exact Hrun | exact Hdone | lia].
        -- rewrite (IHscan _ _ _ _ _ _ Hinner ltac:(discriminate) m ltac:(lia)).
           apply IHloop; [exact Hrun | exact Hdone | lia].
        -- simplify_eq.
      * apply IHloop; [exact Hrun | exact Hdone | lia].
Qed.

Lemma getAllEventsInChunks_more_fuel n m contract fromBlock chunkSize tr events tr' :
  getAllEventsInChunks n contract fromBlock chunkSize tr = (Return events, tr') ->
  (n <= m)%nat ->
  getAllEventsInChunks m contract fromBlock chunkSize tr = (Return events, tr').
Proof.
  intros Hrun Hm. eapply (proj1 (scan_fuel_mono n)); [exact Hrun | discriminate | exact Hm].
Qed.

(** *** Scans of a remote ledger that rejects large ranges *)

Import ScanSample.

Lemma NoDup_app_In {A : Type} (l k : list A) :
  NoDup l -> NoDup k -> (forall x, In x l -> In x k -> False) -> NoDup (l ++ k).
Proof.
  intros Hl Hk Hapart. apply NoDup_app. split; [exact Hl |]. split; [| exact Hk].
  intros x Hx Hx'. apply list_elem_of_In in Hx, Hx'. eauto.
Qed.

Lemma query_chunk_accepted limit lg tip startBlock endBlock tr :
  endBlock - startBlock + 1 <= limit ->
  exists events tr',
    query_chunk (rejecting limit lg tip) startBlock endBlock tr = (Return events, tr') /\
    (forall e, In e events <-> In e lg /\ startBlock <= blockNumber e <= endBlock) /\
    (NoDup lg -> NoDup events).
Proof.
  intros Hspan. unfold query_chunk, await, request, pure.
  cbn [queryFilter rejecting].
  destruct (Z.gtb_spec (endBlock - startBlock + 1) limit); [lia |].
  eexists. eexists. split; [reflexivity |]. split.
  - intros e. rewrite in_app_iff, !filter_In. unfold in_range, of_kind.
    destruct (eventName e);
      rewrite ?andb_true_r, ?andb_false_r, andb_true_iff, !Z.leb_le;
      intuition congruence.
  - intros Hlog. apply NoDup_app_In.
    + apply NoDup_ListNoDup, List.NoDup_filter, NoDup_ListNoDup, Hlog.
    + apply NoDup_ListNoDup, List.NoDup_filter, NoDup_ListNoDup, Hlog.
    + intros e Hsingle Hbatch.
      apply filter_In in Hsingle as [_ Hsingle]. apply filter_In in Hbatch as [_ Hbatch].
      apply andb_prop in Hsingle as [_ Hsingle]. apply andb_prop in Hbatch as [_ Hbatch].
      unfold of_kind in *. destruct (eventName e); discriminate.
Qed.

Lemma query_chunk_rejected limit lg tip startBlock endBlock tr :
  limit < endBlock - startBlock + 1 ->
  query_chunk (rejecting limit lg tip) startBlock endBlock tr
  = (Throw too_large, tr ++ [ReqQuery TransferSingle startBlock endBlock]).
Proof.
  intros Hspan. unfold query_chunk, await, request.
  cbn [queryFilter rejecting].
  destruct (Z.gtb_spec (endBlock - startBlock + 1) limit); [reflexivity | lia].
Qed.

(** With chunks of 10 blocks every query is accepted, and the loop returns
    the events from its start block to the tip, each once. *)
Lemma chunks_of_ten fuel lg tip contract start acc tr :
  (0 < fuel)%nat -> tip - start + 1 <= 10 * (Z.of_nat fuel - 1) ->
  exists events tr',
    chunks fuel contract (rejecting 20 lg tip) tip 10 start acc tr
      = (Return (acc ++ events), tr') /\
    (forall e, In e events <-> In e lg /\ start <= blockNumber e <= tip) /\
    (NoDup lg -> NoDup events).
Proof.
  revert start acc tr.
  induction fuel as [|fuel IH]; intros start acc tr Hfuel Hspan; [lia |].
  cbn [chunks].
  destruct (Z.leb_spec start tip) as [Hin | Hout]; cbn [negb].
  2:{ exists [], tr. rewrite app_nil_r. split; [reflexivity |]. split.
      - intros e. simpl. intuition lia.
      - intros _. constructor. }
  destruct (Z.gtb_spec start (Z.min (start + 10 - 1) tip)); [lia |].
  destruct (query_chunk_accepted 20 lg tip start (Z.min (start + 10 - 1) tip) tr)
    as (events & tr1 & Hquery & Hevents & Honce); [lia |].
  unfold try_catch. rewrite Hquery.
  destruct (IH (start + 10) (acc ++ events) tr1)
    as (rest & tr2 & Hrest & Hin_rest & Honce_rest); [lia | lia |].
  exists (events ++ rest), tr2. rewrite Hrest, <- app_assoc.
  split; [reflexivity |]. split.
  - intros e. rewrite in_app_iff, Hevents, Hin_rest. split.
    + intros [[Hlog Hblock] | [Hlog Hblock]]; (split; [exact Hlog | lia]).
    + intros [Hlog Hblock].
      destruct (Z.le_gt_cases (blockNumber e) (start + 9)); [left | right];
        (split; [exact Hlog | lia]).
  - intros Hlog. apply NoDup_app_In; auto.
    intros e [_ Hlow]%Hevents [_ Hhigh]%Hin_rest. lia.
Qed.

Lemma getAllEventsInChunks_S fuel provider fromBlock chunkSize tr :
  getAllEventsInChunks (S fuel) (mkContract (Some provider)) fromBlock chunkSize tr
  = match getBlockNumber provider (length tr) with
    | inr currentBlock =>
        chunks fuel (mkContract (Some provider)) provider currentBlock chunkSize
          (if falsy fromBlock then Z.max 0 (currentBlock - 100000) else default 0 fromBlock)
          [] (tr ++ [ReqBlockNumber])
    | inl e => (Throw e, tr ++ [ReqBlockNumber])
    end.
Proof.
  cbn [getAllEventsInChunks runner_provider]. unfold await, request.
  destruct (getBlockNumber provider (length tr)); reflexivity.
Qed.

Lemma chunks_past_tip fuel contract provider currentBlock chunkSize startBlock allEvents tr :
  currentBlock < startBlock ->
  chunks (S fuel) contract provider currentBlock chunkSize startBlock allEvents tr
  = (Return allEvents, tr).
Proof.
  intros Hpast. cbn [chunks].
  destruct (Z.leb_spec startBlock currentBlock); [lia | reflexivity].
Qed.

Lemma chunks_rejected fuel limit lg tip contract chunkSize startBlock allEvents tr :
  startBlock <= tip -> 0 < chunkSize ->
  limit < Z.min (startBlock + chunkSize - 1) tip - startBlock + 1 ->
  chunks (S fuel) contract (rejecting limit lg tip) tip chunkSize startBlock allEvents tr
  = match getAllEventsInChunks fuel contract (Some startBlock)
            (Z.max 10 (chunkSize / 10))
            (tr ++ [ReqQuery TransferSingle startBlock
                      (Z.min (startBlock + chunkSize - 1) tip)]) with
    | (Return smallerEvents, tr') =>
        chunks fuel contract (rejecting limit lg tip) tip chunkSize
          (Z.min (startBlock + chunkSize - 1) tip + chunkSize)
          (allEvents ++ smallerEvents) tr'
    | (Throw _, tr') =>
        chunks fuel contract (rejecting limit lg tip) tip chunkSize
          (startBlock + chunkSize) allEvents tr'
    | (Unfinished, tr') => (Unfinished, tr')
    end.
Proof.
  intros Hin Hsize Hspan. cbn [chunks].
  destruct (Z.leb_spec startBlock tip); [| lia]. cbn [negb].
  destruct (Z.gtb_spec startBlock (Z.min (startBlock + chunkSize - 1) tip)); [lia |].
  unfold try_catch at 1. rewrite query_chunk_rejected by lia.
  change (is_range_too_large too_large) with true. cbv iota zeta.
  unfold try_catch.
  destruct (getAllEventsInChunks fuel contract (Some startBlock) _ _) as [[x | e |] tr'];
    reflexivity.
Qed.

(** On a remote ledger that rejects every query spanning more than 20
    blocks, the scan of the 100 blocks from [fromBlock] to the tip with
    chunk size 100 finishes and returns the events of these 100 blocks,
    each once. *)
Lemma scan_of_100_blocks lg fromBlock fuel :
  0 <= fromBlock -> (14 <= fuel)%nat ->
  exists events tr,
    getAllEventsInChunks fuel (mkContract (Some (rejecting 20 lg (fromBlock + 99))))
                         (Some fromBlock) 100 []
      = (Return events, tr) /\
    (forall e, In e events <-> In e lg /\ fromBlock <= blockNumber e <= fromBlock + 99) /\
    (NoDup lg -> NoDup events).
Proof.
  intros Hfrom Hfuel.
  destruct fuel as [|[|[|fuel]]]; try lia.
  set (tip := fromBlock + 99).
  assert (Hstart : (if falsy (Some fromBlock)
                    then Z.max 0 (tip - 100000) else default 0 (Some fromBlock))
                   = fromBlock).
  { cbn [falsy default]. destruct (Z.eqb_spec fromBlock 0); [lia | reflexivity]. }
  rewrite getAllEventsInChunks_S. cbn [getBlockNumber rejecting]. rewrite Hstart.
  rewrite chunks_rejected by lia.
  change (Z.max 10 (100 / 10)) with 10.
  rewrite getAllEventsInChunks_S. cbn [getBlockNumber rejecting]. rewrite Hstart.
  match goal with
  | |- context [chunks fuel ?c ?p tip 10 fromBlock [] ?tr0] =>
      destruct (chunks_of_ten fuel lg tip c fromBlock [] tr0)
        as (events & tr' & Hscan & Hevents & Honce); [lia | lia |];
      rewrite Hscan
  end.
  rewrite chunks_past_tip by lia.
  exists events, tr'. split; [reflexivity |]. split; [exact Hevents | exact Honce].
Qed.

(** A reattempt never uses chunks of fewer than 10 blocks: on a remote
    ledger that rejects every query spanning more than 5 blocks, a scan
    with chunk size 10 reattempts the same chunk with the same chunk size
    over and over and does not finish, whatever the fuel. *)
Lemma scan_never_finishes lg tip start fuel tr :
  start <> 0 -> start + 5 <= tip ->
  fst (getAllEventsInChunks fuel (mkContract (Some (rejecting 5 lg tip))) (Some start) 10 tr)
  = Unfinished.
Proof.
  intros Hstart Htip. revert tr.
  induction fuel as [fuel IH] using lt_wf_ind. intros tr.
  destruct fuel as [|[|fuel]]; try reflexivity.
  rewrite getAllEventsInChunks_S. cbn [getBlockNumber rejecting].
  cbn [falsy]. destruct (Z.eqb_spec start 0); [congruence |].
  change (default 0 (Some start)) with start.
  rewrite chunks_rejected by lia.
  change (Z.max 10 (10 / 10)) with 10.
  specialize (IH fuel ltac:(lia)
                ((tr ++ [ReqBlockNumber])
                   ++ [ReqQuery TransferSingle start (Z.min (start + 10 - 1) tip)])).
  destruct (getAllEventsInChunks fuel (mkContract (Some (rejecting 5 lg tip)))
              (Some start) 10 _) as [[x | e |] tr1]; simpl in IH; try discriminate.
  reflexivity.
Qed.

End ScannerFacts.

(** C8, on a remote ledger that rejects every query spanning more than 20
    blocks: scanning blocks 1 to 210 returns the one transfer of block 205
    twice.  The first chunk, blocks 1 to 100, is rejected; the reattempt
    scans from block 1 to the tip, and the loop then goes on with blocks
    200 to 210, which the reattempt has covered already. *)
Theorem C8_event_returned_twice (fuel : nat) :
  (100 <= fuel)%nat ->
  exists result d,
    fst (Scanner.getTokenEvents fuel (ScanSample.contract 210) (Some 1%Z) [])
      = Scanner.Return result /\
    Scanner.success result = true /\
    Scanner.data result = Some d /\
    map Scanner.blockNumber ScanSample.log = [5; 120; 205]%Z /\
    map Scanner.tte_blockNumber (Scanner.events d) = [5; 120; 205; 205]%Z.
Proof.
  intros Hfuel.
  eassert (Hscan : Scanner.getAllEventsInChunks 100 (ScanSample.contract 210)
                     (Some 1%Z) 100 [] = (Scanner.Return _, _))
    by (vm_compute; reflexivity).
  apply getAllEventsInChunks_more_fuel with (m := fuel) in Hscan; [| exact Hfuel].
  unfold Scanner.getTokenEvents, Scanner.try_catch, Scanner.await. rewrite Hscan.
  eexists. eexists. vm_compute. repeat split; reflexivity.
Qed.

(** C9, on the same kind of remote ledger: scanning blocks 1 to 150 with
    chunk size 100.  The query for blocks 1 to 100 is rejected and
    reattempted with chunk size 10, but the reattempt does not stop at
    block 100: it asks for the tip again and queries every chunk up to
    block 150, and returns the transfer of block 120, which lies outside
    the rejected sub-range. *)
Theorem C9_reattempt_runs_to_the_tip (fuel : nat) :
  (100 <= fuel)%nat ->
  Scanner.getAllEventsInChunks fuel (ScanSample.contract 150) (Some 1%Z) 100 []
  = (Scanner.Return [ScanSample.transfer 5; ScanSample.transfer 120],
     [Scanner.ReqBlockNumber;
      Scanner.ReqQuery Scanner.TransferSingle 1 100;
      Scanner.ReqBlockNumber]
     ++ ScanSample.chunk_queries 15 1 10).
Proof.
  intros Hfuel. apply getAllEventsInChunks_more_fuel with (n := 100%nat); [| exact Hfuel].
  vm_compute. reflexivity.
Qed.

(** ** The properties at the sample states *)
Section AtSamples.
Import Sample.
#[local] Existing Instance plain_accounts.

(** C1 as first stated does not hold: [holder] is not the owner, deposits a
    positive amount, has the balance and has approved the contract, and is
    turned away as unauthorized. *)
Lemma C1_counterexample :
  holder <> _owner deployed /\
  0 < 5 /\
  5 <= ERC20.balanceOf (usdc deployed) holder /\
  5 <= ERC20.allowance (usdc deployed) holder (this deployed) /\
  call (addUSDC holder 5) deployed = (Reverted (OwnableUnauthorizedAccount holder), deployed) /\
  kind_of (OwnableUnauthorizedAccount holder) = Unauthorized.
Proof. vm_compute. repeat split; (reflexivity || discriminate). Qed.

Lemma C1_witness :
  (deployer = _owner deployed ->
     exists s', call (addUSDC deployer 5) deployed = (Ok tt, s')) /\
  (deployer <> _owner deployed ->
     call (addUSDC deployer 5) deployed
       = (Reverted (OwnableUnauthorizedAccount deployer), deployed) /\
     kind_of (OwnableUnauthorizedAccount deployer) = Unauthorized).
Proof.
  apply (C1_addUSDC_is_owner_gated deployed deployer 5);
    vm_compute; (reflexivity || discriminate).
Defined.




(** C3 as first stated does not hold: [holder] has no unit of token 1 and
    burns 5 of its own; the call fails with an arithmetic panic, not with
    [InsufficientBalance].  And where it is the balance test that fails,
    it is not made before any mutation: the aborted run has lowered
    [currentSupply] from 20 to 15 when the test is reached. *)
Lemma C3_counterexample :
  balanceOf deployed holder 1 < 5 /\
  call (burn holder holder 1 5) deployed = (Reverted (Panic PANIC_ARITHMETIC), deployed) /\
  kind_of (Panic PANIC_ARITHMETIC) <> InsufficientBalance /\
  balanceOf minted_other holder 1 < 5 /\
  burn holder holder 1 5 minted_other
    = Abort (ERC1155InsufficientBalance holder 0 5 1) burn_interrupted /\
  currentSupply (info minted_other 1) = 20 /\
  currentSupply (info burn_interrupted 1) = 15.
Proof. vm_compute. repeat split; (reflexivity || discriminate). Qed.

Lemma C3_witness :
  call (burn holder holder 1 5) deployed
    = (Reverted (burn_failure deployed holder 1 5), deployed).
Proof.
  apply (proj1 (proj2 (C3_burn_failures deployed holder holder 1 5))).
  - left. reflexivity.
  - vm_compute. reflexivity.
Defined.

Lemma minted_reachable : reachable minted.
Proof.
  apply (reachable_call deployed deployer (Mint holder 3 10)).
  - apply reachable_deployed.
  - vm_compute. reflexivity.
Defined.

Lemma C4_witness :
  0 <= currentSupply (info minted 3) /\
  currentSupply (info minted 3) <= maxSupply (info minted 3).
Proof. apply (C4_supply_within_bounds minted 3). exact minted_reachable. Defined.

Lemma C5_witness :
  sum_balances minted 3 = currentSupply (info minted 3) /\
  (forall sender op s',
     call (run sender op) minted = (Ok tt, s') ->
     sum_balances s' 3 = currentSupply (info s' 3)).
Proof. apply (C5_balances_sum_to_supply minted 3). exact minted_reachable. Defined.

Lemma C6_witness :
  exists s1,
    call (payback (_owner minted) holder 3 4 50000000) minted = (Ok tt, s1) /\
    balanceOf s1 holder 3 = 6 /\
    currentSupply (info s1 3) + 4 = currentSupply (info minted 3) /\
    treasury s1 = 50000000 /\
    call (payback (_owner s1) holder 3 4 60000000) s1
      = (Reverted (Revert "Insufficient USDC balance"), s1) /\
    kind_of (Revert "Insufficient USDC balance") = InsufficientBalance.
Proof.
  apply (proj1 C6_payback_scenario plain_accounts minted holder).
  - exact minted_reachable.
  - vm_compute. reflexivity.
  - vm_compute. reflexivity.
  - vm_compute. reflexivity.
  - vm_compute. discriminate.
  - vm_compute. discriminate.
Defined.

Lemma C7_witness :
  exists pre post hex,
    list_byte_of_string "https://x/{id}.json" = pre ++ placeholder ++ post /\
    resolve (list_byte_of_string "https://x/{id}.json") 1 tt = Done (pre ++ hex ++ post) tt /\
    length hex = 64%nat /\
    hex_value hex = Some 1.
Proof.
  destruct (proj1 (proj2 C7_resolve_single_placeholder) unit tt
              (list_byte_of_string "https://x/{id}.json") 1)
    as (pre & post & hex & Htemplate & Hrun & Hlen & Hvalue & _).
  - vm_compute. discriminate.
  - vm_compute. reflexivity.
  - exists pre, post, hex. auto.
Defined.

Lemma C8_witness :
  exists result d,
    fst (Scanner.getTokenEvents 100 (ScanSample.contract 210) (Some 1%Z) [])
      = Scanner.Return result /\
    Scanner.success result = true /\
    Scanner.data result = Some d /\
    map Scanner.blockNumber ScanSample.log = [5; 120; 205]%Z /\
    map Scanner.tte_blockNumber (Scanner.events d) = [5; 120; 205; 205]%Z.
Proof. apply (C8_event_returned_twice 100). lia. Defined.

Lemma C9_witness :
  Scanner.getAllEventsInChunks 100 (ScanSample.contract 150) (Some 1%Z) 100 []
  = (Scanner.Return [ScanSample.transfer 5; ScanSample.transfer 120],
     [Scanner.ReqBlockNumber;
      Scanner.ReqQuery Scanner.TransferSingle 1 100;
      Scanner.ReqBlockNumber]
     ++ ScanSample.chunk_queries 15 1 10).
Proof. apply (C9_reattempt_runs_to_the_tip 100). lia. Defined.


End AtSamples.

(** * Further properties of the contract *)

(** ** Minting, burning and the token records *)
Section TokenFacts.
Context {ledger : Type} `{!IUSDC ledger} `{!IERC1155Receiver}.
Implicit Types (s : State ledger) (id amount : uint256) (a to from sender : address).

Lemma burn_run sender from id amount s :
  sender = from \/ sender = _owner s ->
  amount <= currentSupply (info s id) -> from <> 0 -> amount <= balanceOf s from id ->
  burn sender from id amount s
  = Done tt (set_balance id from (balanceOf s from id - amount)
               (set_currentSupply id (currentSupply (info s id) - amount) s)).
Proof.
  intros Hauth Hcur Hfrom Hbal. unfold burn. exec_cbv.
  assert ((sender =? from) || (sender =? _owner s) = true) as ->.
  { destruct Hauth as [-> | ->]; rewrite N.eqb_refl; [reflexivity | apply orb_true_r]. }
  destruct (N.leb_spec amount (currentSupply (info s id))); [| lia].
  cbv beta iota. rewrite _burn_run; [reflexivity | assumption | exact Hbal].
Qed.

Lemma _mint_run operator to id value s :
  to <> 0 -> balanceOf s to id + value <= MAX_UINT256 -> accepts operator 0 to = true ->
  _mint operator to id value s = Done tt (set_balance id to (balanceOf s to id + value) s).
Proof.
  intros Hto Hfit Hacc. unfold _mint, _updateWithAcceptanceCheck.
  rewrite _update_singleton. unfold _update_one. exec_cbv.
  destruct (N.eqb_spec to 0); [congruence |].
  change (0 =? 0) with true. cbn [negb]. cbv beta iota.
  destruct (N.leb_spec (balanceOf s to id + value) MAX_UINT256); [| lia].
  cbv beta iota. now rewrite Hacc.
Qed.

Lemma mint_run to id amount s :
  isActive (info s id) = true ->
  currentSupply (info s id) + amount <= maxSupply (info s id) ->
  currentSupply (info s id) + amount <= MAX_UINT256 ->
  to <> 0 -> balanceOf s to id + amount <= MAX_UINT256 ->
  accepts (_owner s) 0 to = true ->
  mint (_owner s) to id amount s
  = Done tt (set_balance id to (balanceOf s to id + amount)
               (set_currentSupply id (currentSupply (info s id) + amount) s)).
Proof.
  intros Hact Hcap Hfit Hto Hbal Hacc. unfold mint.
  rewrite (bind_Done_run _ _ _ _ _ (onlyOwner_owner s)).
  exec_cbv. rewrite Hact. cbv beta iota.
  destruct (N.leb_spec (currentSupply (info s id) + amount) MAX_UINT256); [| lia].
  cbv beta iota.
  destruct (N.leb_spec (currentSupply (info s id) + amount) (maxSupply (info s id))); [| lia].
  cbv beta iota.
  now rewrite _mint_run.
Qed.

Lemma TokenInfo_eta (i : TokenInfo) :
  mkTokenInfo (name i) (description i) (maxSupply i) (currentSupply i) (isActive i) = i.
Proof. now destruct i. Qed.

(** X1: a [mint] followed by a [burn] of the same amount from the same
    holder, sent by the holder or by the owner, succeeds and leaves every
    token record and every holder balance as before the [mint]. *)
Theorem mint_then_burn_restores s s1 sender burner to id amount :
  call (mint sender to id amount) s = (Ok tt, s1) ->
  burner = to \/ burner = _owner s ->
  exists s2,
    call (burn burner to id amount) s1 = (Ok tt, s2) /\
    (forall id', info s2 id' = info s id') /\
    (forall a id', balanceOf s2 a id' = balanceOf s a id').
Proof.
  intros Hmint Hauth. apply call_Ok in Hmint.
  apply mint_Done in Hmint as (_ & _ & _ & Hto & ->).
  match goal with
  | |- context [call _ ?st] => set (s1 := st)
  end.
  assert (Hcur : currentSupply (info s1 id) = currentSupply (info s id) + amount).
  { unfold s1. rewrite info_set_balance, info_set_currentSupply, decide_True by reflexivity.
    reflexivity. }
  assert (Hbal : balanceOf s1 to id = balanceOf s to id + amount).
  { unfold s1. rewrite balanceOf_set_balance, decide_True by auto. reflexivity. }
  eexists. split.
  { apply call_Ok. apply burn_run; [exact Hauth | lia | exact Hto | lia]. }
  rewrite Hcur, Hbal, !N.add_sub. split.
  - intros id'. rewrite info_set_balance, info_set_currentSupply.
    unfold s1. rewrite !info_set_balance, !info_set_currentSupply.
    case_decide as Hid; [subst id' | reflexivity].
    rewrite decide_True by reflexivity.
    cbn [name description maxSupply isActive]. apply TokenInfo_eta.
  - intros a id'. rewrite balanceOf_set_balance.
    change (balanceOf (set_currentSupply id ?v ?x) a id') with (balanceOf x a id').
    unfold s1. rewrite balanceOf_set_balance.
    case_decide as Hid; [| reflexivity]. now destruct Hid as [-> ->].
Qed.

(** X2: in a reachable state, a [burn] of no more than [from] holds, sent
    by [from] or by the owner, succeeds; the supply always covers a
    holder's balance, so the subtraction on [currentSupply] cannot
    underflow.  The burn lowers that balance and that supply by [amount]
    and touches nothing else. *)
Theorem burn_of_held_tokens_succeeds s sender from id amount :
  reachable s -> sender = from \/ sender = _owner s -> from <> 0 ->
  amount <= balanceOf s from id ->
  exists s',
    call (burn sender from id amount) s = (Ok tt, s') /\
    balanceOf s' from id = balanceOf s from id - amount /\
    currentSupply (info s' id) = currentSupply (info s id) - amount /\
    (forall a id', (id', a) <> (id, from) -> balanceOf s' a id' = balanceOf s a id') /\
    (forall id', id' <> id -> info s' id' = info s id').
Proof.
  intros Hreach Hauth Hfrom Hbal.
  destruct (reachable_inv s Hreach id) as (_ & Hsum & _).
  assert (Hcur : amount <= currentSupply (info s id)).
  { rewrite <- Hsum. etransitivity; [exact Hbal |].
    rewrite balanceOf_holders. apply balance_le_total. }
  eexists. split; [apply call_Ok; now apply burn_run |].
  rewrite balanceOf_set_balance, info_set_balance, info_set_currentSupply.
  rewrite !decide_True by auto. repeat split.
  - intros a id' Hne. rewrite balanceOf_set_balance.
    rewrite decide_False; [reflexivity | intros [? ?]; apply Hne; congruence].
  - intros id' Hne. rewrite info_set_balance, info_set_currentSupply.
    now rewrite decide_False.
Qed.

(** X3: in a reachable state, a [mint] by the owner of an active token
    within its cap, to an address other than zero that accepts the
    transfer, succeeds when the cap is a [uint256]: no addition can
    overflow, because a holder's balance never exceeds the supply.  The
    mint raises that balance and that supply by [amount] and touches
    nothing else. *)
Theorem mint_within_cap_succeeds s to id amount :
  reachable s -> isActive (info s id) = true ->
  currentSupply (info s id) + amount <= maxSupply (info s id) ->
  maxSupply (info s id) <= MAX_UINT256 ->
  to <> 0 -> accepts (_owner s) 0 to = true ->
  exists s',
    call (mint (_owner s) to id amount) s = (Ok tt, s') /\
    balanceOf s' to id = balanceOf s to id + amount /\
    currentSupply (info s' id) = currentSupply (info s id) + amount /\
    (forall a id', (id', a) <> (id, to) -> balanceOf s' a id' = balanceOf s a id') /\
    (forall id', id' <> id -> info s' id' = info s id').
Proof.
  intros Hreach Hact Hcap Hmax Hto Hacc.
  destruct (reachable_inv s Hreach id) as (_ & Hsum & _).
  assert (Hbal : balanceOf s to id <= currentSupply (info s id)).
  { rewrite <- Hsum, balanceOf_holders. apply balance_le_total. }
  eexists. split; [apply call_Ok; apply mint_run; auto; lia |].
  rewrite balanceOf_set_balance, info_set_balance, info_set_currentSupply.
  rewrite !decide_True by auto. repeat split.
  - intros a id' Hne. rewrite balanceOf_set_balance.
    rewrite decide_False; [reflexivity | intros [? ?]; apply Hne; congruence].
  - intros id' Hne. rewrite info_set_balance, info_set_currentSupply.
    now rewrite decide_False.
Qed.

(** X4: what a [mint] by the owner is rejected with, in the order of the
    tests: [NotFound] for a token that is not active; the arithmetic
    panic, not [SupplyExceeded], when [currentSupply + amount] leaves the
    256-bit range; [SupplyExceeded] when the sum is above the cap; and the
    invalid-receiver error of the inherited ledger for the zero address. *)
Theorem mint_rejections s to id amount :
  (isActive (info s id) = false ->
     call (mint (_owner s) to id amount) s = (Reverted (Revert "Token does not exist"), s)) /\
  (isActive (info s id) = true ->
   MAX_UINT256 < currentSupply (info s id) + amount ->
     call (mint (_owner s) to id amount) s = (Reverted (Panic PANIC_ARITHMETIC), s)) /\
  (isActive (info s id) = true ->
   currentSupply (info s id) + amount <= MAX_UINT256 ->
   maxSupply (info s id) < currentSupply (info s id) + amount ->
     call (mint (_owner s) to id amount) s = (Reverted (Revert "Exceeds max supply"), s)) /\
  (isActive (info s id) = true ->
   currentSupply (info s id) + amount <= MAX_UINT256 ->
   currentSupply (info s id) + amount <= maxSupply (info s id) ->
   to = 0 ->
     call (mint (_owner s) to id amount) s = (Reverted (ERC1155InvalidReceiver 0), s)) /\
  kind_of (Revert "Token does not exist") = NotFound /\
  kind_of (Revert "Exceeds max supply") = SupplyExceeded.
Proof.
  unfold call, mint. rewrite (bind_Done_run _ _ _ _ _ (onlyOwner_owner s)).
  exec_cbv. repeat split.
  - now intros ->.
  - intros -> Hover. cbv beta iota.
    destruct (N.leb_spec (currentSupply (info s id) + amount) MAX_UINT256); [lia |].
    reflexivity.
  - intros -> Hfit Hover. cbv beta iota.
    destruct (N.leb_spec (currentSupply (info s id) + amount) MAX_UINT256); [| lia].
    cbv beta iota.
    destruct (N.leb_spec (currentSupply (info s id) + amount) (maxSupply (info s id)));
      [lia | reflexivity].
  - intros -> Hfit Hcap ->. cbv beta iota.
    destruct (N.leb_spec (currentSupply (info s id) + amount) MAX_UINT256); [| lia].
    cbv beta iota.
    destruct (N.leb_spec (currentSupply (info s id) + amount) (maxSupply (info s id)));
      [| lia].
    reflexivity.
Qed.

(** X5: a [mintBatch] of one pair is a [mint]: from every state and for
    every caller the two calls end alike, in the same state when they
    finish and with the same error when they fail. *)
Theorem mintBatch_of_one_is_mint s sender to id amount :
  mintBatch sender to [id] [amount] s = mint sender to id amount s.
Proof.
  unfold mintBatch, mint, _mintBatch, _mint, onlyOwner. cbn [mintBatch_loop length].
  exec_cbv.
  destruct (negb (_owner s =? sender)); [reflexivity |]. cbv beta iota.
  change (N.of_nat 1 =? N.of_nat 1) with true. cbv beta iota.
  destruct (isActive (info s id)); [| reflexivity]. cbv beta iota.
  destruct (currentSupply (info s id) + amount <=? MAX_UINT256); [| reflexivity].
  cbv beta iota.
  destruct (currentSupply (info s id) + amount <=? maxSupply (info s id)); reflexivity.
Qed.

(** X6: a [payback] that succeeds does to the token records and holder
    balances what a [burn] of the same tokens by the same caller does, and
    the [burn] succeeds too; the two end states differ in the stable-coin
    ledger only, which has made the payment. *)
Theorem payback_burns_like_burn s sender from id tokenAmount usdcAmount s' :
  call (payback sender from id tokenAmount usdcAmount) s = (Ok tt, s') ->
  exists sb l',
    call (burn sender from id tokenAmount) s = (Ok tt, sb) /\
    transfer_usdc (this s) from usdcAmount (usdc s) = Some (true, l') /\
    s' = set_usdc l' sb.
Proof.
  intros Hcall. apply call_Ok in Hcall.
  apply payback_Done in Hcall
    as (Hown & _ & _ & Hbal & _ & _ & Hcur & Hfrom & l' & Hsend & ->).
  eexists. exists l'. split; [| split; [exact Hsend | reflexivity]].
  apply call_Ok. apply burn_run; auto.
Qed.

Lemma run_keeps_cap sender op s s' id :
  run sender op s = Done tt s' -> isActive (info s id) = true ->
  isActive (info s' id) = true /\ maxSupply (info s' id) = maxSupply (info s id).
Proof.
  intros Hrun Hact. destruct op; simpl in Hrun.
  - apply createToken_Done in Hrun as (Hoff & _ & ->).
    rewrite info_set_info, decide_False by congruence. auto.
  - apply mint_Done in Hrun as (_ & _ & _ & _ & ->).
    rewrite info_set_balance, info_set_currentSupply.
    case_decide; [subst |]; auto.
  - destruct (mintBatch_Done _ _ _ _ _ _ Hrun id) as (Hmax & Hact' & _).
    split; congruence.
  - apply burn_Done in Hrun as (_ & _ & _ & _ & ->).
    rewrite info_set_balance, info_set_currentSupply.
    case_decide; [subst |]; auto.
  - apply payback_Done in Hrun as (_ & _ & _ & _ & _ & _ & _ & _ & l' & _ & ->).
    change (info (set_usdc l' ?x) id) with (info x id).
    rewrite info_set_balance, info_set_currentSupply.
    case_decide; [subst |]; auto.
  - apply (treasury_ops_Done sender (PayDividend to usdcAmount)) in Hrun as (Hinfo & _);
      [| exact I]. now rewrite (same_info _ _ _ Hinfo).
  - apply (treasury_ops_Done sender (WithdrawUSDC amount)) in Hrun as (Hinfo & _);
      [| exact I]. now rewrite (same_info _ _ _ Hinfo).
  - apply (treasury_ops_Done sender (AddUSDC amount)) in Hrun as (Hinfo & _);
      [| exact I]. now rewrite (same_info _ _ _ Hinfo).
  - apply updateTokenInfo_Done in Hrun as ->.
    rewrite info_set_info. case_decide; [subst |]; auto.
  - apply (treasury_ops_Done sender (SetBaseURI newBaseURI)) in Hrun as (Hinfo & _);
      [| exact I]. now rewrite (same_info _ _ _ Hinfo).
  - apply safeTransferFrom_Done in Hrun as (_ & _ & _ & ->). cbv zeta.
    rewrite !info_set_balance. auto.
  - apply safeBatchTransferFrom_Done in Hrun as [Hinfo _].
    now rewrite (same_info _ _ _ Hinfo).
Qed.

(** X7: no call changes the cap of a token or retires it: after any call
    that succeeds, a token that was active is active and has the
    [maxSupply] it had. *)
Theorem caps_are_permanent s sender op s' id :
  call (run sender op) s = (Ok tt, s') -> isActive (info s id) = true ->
  isActive (info s' id) = true /\ maxSupply (info s' id) = maxSupply (info s id).
Proof. intros Hcall. apply call_Ok in Hcall. now apply (run_keeps_cap sender op). Qed.

Lemma reachable_keeps_cap id cap :
  (forall deployer self l,
      isActive (info (constructor (ledger := ledger) deployer self l) id) = true /\
      maxSupply (info (constructor (ledger := ledger) deployer self l) id) = cap) ->
  forall s, reachable s -> isActive (info s id) = true /\ maxSupply (info s id) = cap.
Proof.
  intros Hstart s Hreach.
  induction Hreach as [deployer self l | s sender op s' _ IH Hcall | s s' _ IH Hsame].
  - apply Hstart.
  - destruct IH as [Hact Hmax]. apply call_Ok in Hcall.
    destruct (run_keeps_cap _ _ _ _ id Hcall Hact) as [Hact' Hmax']. split; congruence.
  - destruct Hsame as (Hinfo & _). now rewrite (same_info _ _ _ Hinfo).
Qed.

(** X8: the three tokens created by the constructor stay active with the
    caps they were given, 25, 20 and 50, in every reachable state, and the
    holders of each never hold more than its cap between them. *)
Theorem deployed_caps_hold_forever s :
  reachable s ->
  (isActive (info s 1) = true /\ maxSupply (info s 1) = 25 /\ sum_balances s 1 <= 25) /\
  (isActive (info s 2) = true /\ maxSupply (info s 2) = 20 /\ sum_balances s 2 <= 20) /\
  (isActive (info s 3) = true /\ maxSupply (info s 3) = 50 /\ sum_balances s 3 <= 50).
Proof.
  intros Hreach.
  assert (Hall : forall id cap,
             (forall deployer self l,
                 isActive (info (constructor (ledger := ledger) deployer self l) id) = true /\
                 maxSupply (info (constructor (ledger := ledger) deployer self l) id) = cap) ->
             isActive (info s id) = true /\ maxSupply (info s id) = cap /\
             sum_balances s id <= cap).
  { intros id cap Hstart.
    destruct (reachable_keeps_cap id cap Hstart s Hreach) as [Hact Hmax].
    destruct (reachable_inv s Hreach id) as (Hle & Hsum & _).
    repeat split; auto. lia. }
  split; [| split]; apply Hall; intros; unfold constructor;
    rewrite !info_set_info; repeat case_decide; try lia; auto.
Qed.

(** X9: each of the nine functions that carry [onlyOwner], [createToken],
    [mint], [mintBatch], [payback], [payDividend], [withdrawUSDC],
    [addUSDC], [updateTokenInfo] and [setBaseURI], turns away every caller
    but the owner with [Unauthorized], whatever the arguments, and changes
    nothing. *)
Theorem strangers_are_turned_away s sender op :
  owner_only op = true -> sender <> _owner s ->
  call (run sender op) s = (Reverted (OwnableUnauthorizedAccount sender), s) /\
  kind_of (OwnableUnauthorizedAccount sender) = Unauthorized.
Proof.
  intros Hop Hne. split; [| reflexivity]. unfold call.
  pose proof (onlyOwner_stranger sender s Hne) as Hgate.
  destruct op; try discriminate; simpl;
    unfold createToken, mint, mintBatch, payback, payDividend, withdrawUSDC, addUSDC,
      updateTokenInfo, setBaseURI;
    now rewrite (bind_Abort_run _ _ _ _ _ Hgate).
Qed.

(** X10: in a reachable state, [createToken] by the owner for an id that
    is not active and with a positive cap succeeds; the new token has the
    name, description and cap given, a supply of zero and no holder, and
    the other tokens are as before. *)
Theorem createToken_starts_empty s id n d cap :
  reachable s -> isActive (info s id) = false -> 0 < cap ->
  exists s',
    call (createToken (_owner s) id n d cap) s = (Ok tt, s') /\
    info s' id = mkTokenInfo n d cap 0 true /\
    (forall a, balanceOf s' a id = 0) /\
    (forall id', id' <> id -> info s' id' = info s id').
Proof.
  intros Hreach Hoff Hcap.
  exists (set_info id (mkTokenInfo n d cap 0 true) s). split.
  { apply call_Ok. unfold createToken, _createToken.
    rewrite (bind_Done_run _ _ _ _ _ (onlyOwner_owner s)).
    exec_cbv. rewrite Hoff. cbn [negb]. cbv beta iota.
    destruct (N.ltb_spec 0 cap); [reflexivity | lia]. }
  rewrite info_set_info, decide_True by reflexivity. repeat split.
  - intros a. rewrite balanceOf_set_info.
    destruct (reachable_inv s Hreach id) as (_ & Hsum & Hzero & _).
    specialize (Hzero Hoff). rewrite Hzero in Hsum.
    pose proof (balance_le_total (holders s id) a) as Hle.
    rewrite <- balanceOf_holders in Hle. unfold sum_balances in Hsum. lia.
  - intros id' Hne. now rewrite info_set_info, decide_False.
Qed.

(** X11: [createToken] by the owner fails with [AlreadyExists] for an id
    that is active, so that a token cannot be created twice or reset, and
    with [InvalidArgument] for a cap of zero; the first test comes
    first. *)
Theorem createToken_rejections s id n d cap :
  (isActive (info s id) = true ->
     call (createToken (_owner s) id n d cap) s
       = (Reverted (Revert "Token already exists"), s)) /\
  (isActive (info s id) = false -> cap = 0 ->
     call (createToken (_owner s) id n d cap) s
       = (Reverted (Revert "Max supply must be greater than 0"), s)) /\
  kind_of (Revert "Token already exists") = AlreadyExists /\
  kind_of (Revert "Max supply must be greater than 0") = InvalidArgument.
Proof.
  unfold call, createToken. rewrite (bind_Done_run _ _ _ _ _ (onlyOwner_owner s)).
  exec_cbv. repeat split.
  - now intros ->.
  - now intros -> ->.
Qed.

(** X12: [withdrawUSDC] and [payDividend] for more than the treasury
    holds fail with [InsufficientBalance] before the stable-coin contract
    is asked to move anything. *)
Theorem payout_above_treasury_fails s to amount :
  treasury s < amount ->
  call (withdrawUSDC (_owner s) amount) s
    = (Reverted (Revert "Insufficient USDC balance"), s) /\
  (to <> 0 ->
   call (payDividend (_owner s) to amount) s
     = (Reverted (Revert "Insufficient USDC balance"), s)) /\
  kind_of (Revert "Insufficient USDC balance") = InsufficientBalance.
Proof.
  intros Hshort. unfold treasury in Hshort.
  unfold call, withdrawUSDC, payDividend.
  rewrite !(bind_Done_run _ _ _ _ _ (onlyOwner_owner s)).
  exec_cbv. repeat split.
  - destruct (N.ltb_spec 0 amount); [| lia]. cbv beta iota.
    destruct (N.leb_spec amount (balanceOf_usdc (usdc s) (this s))); [lia | reflexivity].
  - intros Hto. destruct (N.eqb_spec to 0); [congruence |]. cbn [negb]. cbv beta iota.
    destruct (N.ltb_spec 0 amount); [| lia]. cbv beta iota.
    destruct (N.leb_spec amount (balanceOf_usdc (usdc s) (this s))); [lia | reflexivity].
Qed.

(** X14: [updateTokenInfo] by the owner for an active token, followed by
    [getTokenInfo], gives back the new name and description together with
    the cap and the supply the token had; the other token records and all
    holder balances are untouched.  For a token that is not active
    [updateTokenInfo] fails with [NotFound]. *)
Theorem updateTokenInfo_then_getTokenInfo s id n d :
  (isActive (info s id) = true ->
   exists s',
     call (updateTokenInfo (_owner s) id n d) s = (Ok tt, s') /\
     call (getTokenInfo id) s'
       = (Ok (n, d, maxSupply (info s id), currentSupply (info s id), true), s') /\
     (forall id', id' <> id -> info s' id' = info s id') /\
     (forall a id', balanceOf s' a id' = balanceOf s a id')) /\
  (isActive (info s id) = false ->
   call (updateTokenInfo (_owner s) id n d) s
     = (Reverted (Revert "Token does not exist"), s)).
Proof.
  unfold call at 1 3, updateTokenInfo.
  rewrite !(bind_Done_run _ _ _ _ _ (onlyOwner_owner s)). exec_cbv.
  split; intros Hact; rewrite Hact; cbv beta iota; [| reflexivity].
  eexists. split; [reflexivity |]. split; [| split].
  - unfold call, getTokenInfo. exec_cbv.
    rewrite info_set_info, decide_True by reflexivity. reflexivity.
  - intros id' Hne. now rewrite info_set_info, decide_False.
  - intros a id'. apply balanceOf_set_info.
Qed.

End TokenFacts.

(** ** The treasury on the reference stable-coin ledger *)

Lemma ERC20_transfer_moves (l : ERC20.t) (sender to : address) (value : uint256) :
  sender <> 0 -> to <> 0 -> sender <> to -> value <= ERC20.balanceOf l sender ->
  exists l',
    ERC20.transfer sender to value l = Some (true, l') /\
    ERC20.balanceOf l' sender = ERC20.balanceOf l sender - value /\
    ERC20.balanceOf l' to = ERC20.balanceOf l to + value /\
    (forall a, a <> sender -> a <> to -> ERC20.balanceOf l' a = ERC20.balanceOf l a).
Proof.
  intros Hsender Hto Hne Hbal. unfold ERC20.transfer, ERC20._transfer.
  destruct (N.eqb_spec sender 0); [congruence |].
  destruct (N.eqb_spec to 0); [congruence |]. cbn [orb].
  destruct (N.ltb_spec (ERC20.balanceOf l sender) value); [lia |].
  eexists. split; [reflexivity |].
  unfold ERC20.balanceOf. cbn [ERC20.balances]. repeat split.
  - rewrite lookup_insert_ne by congruence. now rewrite lookup_insert_eq.
  - rewrite lookup_insert_eq. now rewrite lookup_insert_ne by congruence.
  - intros a Ha Ha'. now rewrite !lookup_insert_ne by congruence.
Qed.

Section TreasuryFacts.
Context `{!IERC1155Receiver}.
Implicit Types (s : State ERC20.t) (amount : uint256).

(** X13: on the reference stable-coin ledger, [withdrawUSDC] by the owner
    of a positive amount that the treasury covers succeeds: the amount
    goes from the contract's account to the owner's, no other account
    changes, and the token records and holder balances stay as they
    are. *)
Theorem withdrawUSDC_pays_the_owner s amount :
  0 < amount -> amount <= treasury s ->
  _owner s <> 0 -> this s <> 0 -> _owner s <> this s ->
  exists s',
    call (withdrawUSDC (_owner s) amount) s = (Ok tt, s') /\
    treasury s' = treasury s - amount /\
    ERC20.balanceOf (usdc s') (_owner s) = ERC20.balanceOf (usdc s) (_owner s) + amount /\
    (forall a, a <> this s -> a <> _owner s ->
       ERC20.balanceOf (usdc s') a = ERC20.balanceOf (usdc s) a) /\
    same_tokens s s'.
Proof.
  intros Hamount Hfunds Howner Hthis Hne. unfold treasury in *.
  cbn [balanceOf_usdc ERC20_IUSDC] in *.
  destruct (ERC20_transfer_moves (usdc s) (this s) (_owner s) amount)
    as (l' & Hsend & Hfrom & Hto & Hrest); auto.
  exists (set_usdc l' s). split.
  { apply call_Ok. unfold withdrawUSDC.
    rewrite (bind_Done_run _ _ _ _ _ (onlyOwner_owner s)).
    unfold external. exec_cbv.
    destruct (N.ltb_spec 0 amount); [| lia]. cbv beta iota.
    cbn [balanceOf_usdc transfer_usdc ERC20_IUSDC].
    destruct (N.leb_spec amount (ERC20.balanceOf (usdc s) (this s))); [| lia].
    cbv beta iota. rewrite Hsend. reflexivity. }
  cbn [usdc this _owner set_usdc]. repeat split; auto.
Qed.

End TreasuryFacts.

(** ** Templates and URIs *)
Section TemplateFacts.
Context {ledger : Type} `{!IUSDC ledger} `{!IERC1155Receiver}.
Implicit Types (s : State ledger) (id : uint256) (t : list byte).

(** X15: [setBaseURI] stores whatever the owner hands in, without a look
    at it: a template of one or two bytes is accepted, and from then on
    [uri] fails for every active token with the arithmetic panic, on
    [templateBytes.length - 3]. *)
Theorem setBaseURI_accepts_unusable_templates s t id :
  (length t = 1 \/ length t = 2)%nat -> isActive (info s id) = true ->
  exists s',
    call (setBaseURI (_owner s) t) s = (Ok tt, s') /\
    _baseURI s' = t /\
    call (uri id) s' = (Reverted (Panic PANIC_ARITHMETIC), s').
Proof.
  intros Hlen Hact. exists (set_baseURI t s). split; [| split; [reflexivity |]].
  - apply call_Ok. unfold setBaseURI.
    now rewrite (bind_Done_run _ _ _ _ _ (onlyOwner_owner s)).
  - unfold call. rewrite uri_run.
    change (info (set_baseURI t s) id) with (info s id). rewrite Hact.
    cbn [_baseURI set_baseURI].
    destruct t as [|c0 [|c1 [|c2 t']]]; simpl in Hlen; try lia; reflexivity.
Qed.

(** X16: with a base URI that holds no placeholder, and is empty or at
    least three bytes long, [uri] returns the base URI itself for every
    active token. *)
Theorem uri_without_placeholder_is_the_template s id :
  count_placeholder (_baseURI s) = 0%nat ->
  (length (_baseURI s) <> 1 /\ length (_baseURI s) <> 2)%nat ->
  isActive (info s id) = true ->
  call (uri id) s = (Ok (_baseURI s), s).
Proof.
  intros Hcount [H1 H2] Hact. unfold call. rewrite uri_run, Hact.
  unfold resolve_outcome.
  destruct (_baseURI s) as [|c0 [|c1 [|c2 t']]] eqn:Ht; simpl in H1, H2; try lia;
    [reflexivity |].
  rewrite Hcount. cbn [Nat.leb]. now rewrite substitute_none.
Qed.

Lemma substitute_injective (h1 h2 t : list byte) :
  count_placeholder t = 1%nat -> length h1 = length h2 ->
  substitute h1 t = substitute h2 t -> h1 = h2.
Proof.
  intros Hcount Hlen. induction t as [|c0 t1 IH]; [discriminate |].
  destruct (starts_with_placeholder (c0 :: t1)) eqn:Hm.
  - destruct (starts_with_placeholder_true _ Hm) as (t4 & Ht).
    unfold placeholder in Ht. simpl in Ht. injection Ht as -> ->.
    rewrite count_placeholder_match in Hcount by exact Hm.
    rewrite !substitute_cons4, Hm, !substitute_none by lia.
    intros Heq. now apply app_inv_tail in Heq.
  - rewrite count_placeholder_cons, Hm in Hcount.
    rewrite !substitute_no_match by exact Hm.
    intros Heq. injection Heq as Heq. apply IH; [lia | exact Heq].
Qed.

(** X17: with a base URI that holds the placeholder once, two different
    active tokens have different URIs. *)
Theorem uri_tells_tokens_apart s id1 id2 :
  count_placeholder (_baseURI s) = 1%nat ->
  id1 <= MAX_UINT256 -> id2 <= MAX_UINT256 ->
  isActive (info s id1) = true -> isActive (info s id2) = true ->
  id1 <> id2 ->
  exists u1 u2,
    call (uri id1) s = (Ok u1, s) /\ call (uri id2) s = (Ok u2, s) /\ u1 <> u2.
Proof.
  intros Hcount Hid1 Hid2 Hact1 Hact2 Hne. unfold call. rewrite !uri_run, Hact1, Hact2.
  unfold resolve_outcome.
  destruct (_baseURI s) as [|c0 [|c1 [|c2 t']]] eqn:Ht; try discriminate.
  rewrite Hcount. cbn [Nat.leb].
  eexists. eexists. split; [reflexivity |]. split; [reflexivity |].
  intros Heq.
  apply substitute_injective in Heq;
    [| exact Hcount | now rewrite !length_hex_digits].
  pose proof (hex_value_token_id id1 Hid1) as H1.
  pose proof (hex_value_token_id id2 Hid2) as H2.
  rewrite Heq in H1. congruence.
Qed.

End TemplateFacts.

(** * Further properties of the event scanner *)
Section ScanFacts.
Import Scanner ScanSample.
#[local] Open Scope Z_scope.

Lemma count_by_type (l : list TokenTransferEvent) :
  (length (filter (fun e => is_single e = true) l)
   + length (filter (fun e => is_batch e = true) l) = length l)%nat.
Proof.
  induction l as [|e l IH]; [reflexivity |].
  rewrite !filter_cons. unfold is_single, is_batch in *.
  destruct (eventType e); repeat case_decide; try discriminate; try congruence;
    cbn [length]; lia.
Qed.

Lemma getTokenEvents_no_Throw fuel contract fromBlock tr e tr' :
  getTokenEvents fuel contract fromBlock tr <> (Throw e, tr').
Proof.
  unfold getTokenEvents, try_catch, await.
  destruct (getAllEventsInChunks fuel contract fromBlock 100 tr) as [[all | e1 |] tr1];
    [| discriminate | discriminate].
  destruct (runner_provider contract) as [provider |]; [| discriminate].
  destruct (stamp_all provider all tr1) as [[stamped | e1 |] tr2]; discriminate.
Qed.

Lemma getTokenEvents_Return fuel contract fromBlock tr result tr' :
  getTokenEvents fuel contract fromBlock tr = (Return result, tr') ->
  (success result = true /\ error result = None /\
   exists d, data result = Some d /\
     totalEvents d = length (events d) /\
     (singleTransfers d + batchTransfers d)%nat = totalEvents d) \/
  (success result = false /\ data result = None /\
   exists message, error result = Some message).
Proof.
  unfold getTokenEvents, try_catch, await.
  destruct (getAllEventsInChunks fuel contract fromBlock 100 tr) as [[all | e |] tr1].
  - destruct (runner_provider contract) as [provider |].
    + destruct (stamp_all provider all tr1) as [[stamped | e |] tr2];
        cbv [pure]; intros Hrun; simplify_eq; cbn.
      * left. split; [reflexivity |]. split; [reflexivity |].
        eexists. split; [reflexivity |]. cbn.
        split; [reflexivity | apply count_by_type].
      * right. eauto.
    + cbv [throw pure]. intros Hrun. simplify_eq. right. cbn. eauto.
  - cbv [pure]. intros Hrun. simplify_eq. right. cbn. eauto.
  - discriminate.
Qed.

(** X18: [getTokenEvents] never throws: whatever the remote ledger does,
    a scan that ends returns an object.  The object either reports
    success, with no error, a list of events and counts that fit the list,
    the single and the batch transfers adding up to the total, or it
    reports failure, with an error message and no data. *)
Theorem getTokenEvents_always_answers fuel contract fromBlock tr :
  match fst (getTokenEvents fuel contract fromBlock tr) with
  | Return result =>
      if success result
      then error result = None /\
           exists d, data result = Some d /\
             totalEvents d = length (events d) /\
             (singleTransfers d + batchTransfers d)%nat = totalEvents d
      else data result = None /\ exists message, error result = Some message
  | Throw _ => False
  | Unfinished => True
  end.
Proof.
  destruct (getTokenEvents fuel contract fromBlock tr) as [[result | e |] tr'] eqn:Hrun;
    cbn [fst].
  - destruct (getTokenEvents_Return _ _ _ _ _ _ Hrun)
      as [(-> & Herr & Hdata) | (-> & Hdata & Herr)]; auto.
  - now apply getTokenEvents_no_Throw in Hrun.
  - exact I.
Qed.



(** Token ids of up to 53 bits are shown as they are. *)
Lemma Number_exact (x : Z) : Z.abs x < 2 ^ 53 -> Number x = x.
Proof.
  intros Hx. unfold Number.
  destruct (Z.leb_spec (Z.log2 (Z.abs x) - 52) 0) as [_ | Hlog]; [reflexivity |].
  assert (Hpos : 0 < Z.abs x).
  { destruct (Z.abs x) eqn:Habs; [cbn in Hlog |..]; lia. }
  apply (Z.log2_lt_pow2 _ 53) in Hx; [lia | exact Hpos].
Qed.







(** *** Scans of a remote ledger that accepts the chunks *)

Lemma chunks_accepted fuel limit lg tip contract chunkSize start acc tr :
  0 < chunkSize <= limit -> (0 < fuel)%nat ->
  tip - start + 1 <= chunkSize * (Z.of_nat fuel - 1) ->
  exists events tr',
    chunks fuel contract (rejecting limit lg tip) tip chunkSize start acc tr
      = (Return (acc ++ events), tr') /\
    (forall e, In e events <-> In e lg /\ start <= blockNumber e <= tip) /\
    (NoDup lg -> NoDup events).
Proof.
  intros Hsize. revert start acc tr.
  induction fuel as [|fuel IH]; intros start acc tr Hfuel Hspan; [lia |].
  cbn [chunks].
  destruct (Z.leb_spec start tip) as [Hin | Hout]; cbn [negb].
  2:{ exists [], tr. rewrite app_nil_r. split; [reflexivity |]. split.
      - intros e. simpl. intuition lia.
      - intros _. constructor. }
  destruct (Z.gtb_spec start (Z.min (start + chunkSize - 1) tip)); [lia |].
  destruct (query_chunk_accepted limit lg tip start (Z.min (start + chunkSize - 1) tip) tr)
    as (events & tr1 & Hquery & Hevents & Honce); [lia |].
  unfold try_catch. rewrite Hquery.
  destruct (IH (start + chunkSize) (acc ++ events) tr1)
    as (rest & tr2 & Hrest & Hin_rest & Honce_rest); [nia | nia |].
  exists (events ++ rest), tr2. rewrite Hrest, <- app_assoc.
  split; [reflexivity |]. split.
  - intros e. rewrite in_app_iff, Hevents, Hin_rest. split.
    + intros [[Hlog Hblock] | [Hlog Hblock]]; (split; [exact Hlog | lia]).
    + intros [Hlog Hblock].
      destruct (Z.le_gt_cases (blockNumber e) (start + chunkSize - 1)); [left | right];
        (split; [exact Hlog | lia]).
  - intros Hlog. apply NoDup_app_In; auto.
    intros e [_ Hlow]%Hevents [_ Hhigh]%Hin_rest. lia.
Qed.

Lemma scan_accepted fuel limit lg tip chunkSize fromBlock tr :
  let startFrom := if falsy fromBlock then Z.max 0 (tip - 100000) else default 0 fromBlock in
  0 < chunkSize <= limit -> (2 <= fuel)%nat ->
  tip - startFrom + 1 <= chunkSize * (Z.of_nat fuel - 2) ->
  exists events tr',
    getAllEventsInChunks fuel (mkContract (Some (rejecting limit lg tip))) fromBlock
                         chunkSize tr
      = (Return events, tr') /\
    (forall e, In e events <-> In e lg /\ startFrom <= blockNumber e <= tip) /\
    (NoDup lg -> NoDup events).
Proof.
  intros startFrom Hsize Hfuel Hspan.
  destruct fuel as [|fuel]; [lia |].
  rewrite getAllEventsInChunks_S. cbn [getBlockNumber rejecting]. fold startFrom.
  destruct (chunks_accepted fuel limit lg tip
              (mkContract (Some (rejecting limit lg tip))) chunkSize startFrom []
              (tr ++ [ReqBlockNumber]))
    as (events & tr' & Hrun & Hevents & Honce); [exact Hsize | lia | lia |].
  exists events, tr'. auto.
Qed.

(** X20: on a remote ledger that accepts every query of [chunkSize]
    blocks, a scan from a block other than 0 finishes and returns the
    events of the log from that block to the tip, all of them and each
    once. *)
Theorem scan_within_the_limit_is_exact fuel limit lg tip chunkSize fromBlock tr :
  0 < chunkSize <= limit -> fromBlock <> 0 -> (2 <= fuel)%nat ->
  tip - fromBlock + 1 <= chunkSize * (Z.of_nat fuel - 2) ->
  exists events tr',
    getAllEventsInChunks fuel (mkContract (Some (rejecting limit lg tip))) (Some fromBlock)
                         chunkSize tr
      = (Return events, tr') /\
    (forall e, In e events <-> In e lg /\ fromBlock <= blockNumber e <= tip) /\
    (NoDup lg -> NoDup events).
Proof.
  intros Hsize Hfrom Hfuel Hspan.
  pose proof (scan_accepted fuel limit lg tip chunkSize (Some fromBlock) tr) as Hscan.
  cbn [falsy] in Hscan. destruct (Z.eqb_spec fromBlock 0); [congruence |].
  change (default 0 (Some fromBlock)) with fromBlock in Hscan.
  now apply Hscan.
Qed.

(** X21: a scan asked to start at block 0 starts where a scan with no
    start block does, 100000 blocks before the tip ([!startFrom] holds of
    0 as it does of [undefined]): on a remote ledger that accepts the
    chunks it returns the events of the last 100000 blocks and none
    before. *)
Theorem scan_from_block_zero_looks_back_100000 fuel limit lg tip chunkSize fromBlock tr :
  0 < chunkSize <= limit -> fromBlock = None \/ fromBlock = Some 0 -> (2 <= fuel)%nat ->
  tip - Z.max 0 (tip - 100000) + 1 <= chunkSize * (Z.of_nat fuel - 2) ->
  exists events tr',
    getAllEventsInChunks fuel (mkContract (Some (rejecting limit lg tip))) fromBlock
                         chunkSize tr
      = (Return events, tr') /\
    (forall e, In e events <->
               In e lg /\ Z.max 0 (tip - 100000) <= blockNumber e <= tip).
Proof.
  intros Hsize Hfrom Hfuel Hspan.
  pose proof (scan_accepted fuel limit lg tip chunkSize fromBlock tr) as Hscan.
  assert (Hfalsy : falsy fromBlock = true) by (destruct Hfrom as [-> | ->]; reflexivity).
  rewrite Hfalsy in Hscan.
  destruct Hscan as (events & tr' & Hrun & Hevents & _); auto.
  eauto.
Qed.

(** *** Scans of a remote ledger that fails *)

Lemma chunks_skipped fuel contract provider tip chunkSize start acc tr :
  (forall n kind a b,
      exists e, queryFilter provider n kind a b = inl e /\ is_range_too_large e = false) ->
  0 < chunkSize -> (0 < fuel)%nat ->
  tip - start + 1 <= chunkSize * (Z.of_nat fuel - 1) ->
  exists tr', chunks fuel contract provider tip chunkSize start acc tr = (Return acc, tr').
Proof.
  intros Hfail Hsize. revert start tr.
  induction fuel as [|fuel IH]; intros start tr Hfuel Hspan; [lia |].
  cbn [chunks].
  destruct (Z.leb_spec start tip) as [Hin | Hout]; cbn [negb]; [| now exists tr].
  destruct (Z.gtb_spec start (Z.min (start + chunkSize - 1) tip)); [lia |].
  unfold try_catch at 1, query_chunk, await, request.
  destruct (Hfail (length tr) TransferSingle start (Z.min (start + chunkSize - 1) tip))
    as (e & -> & ->).
  apply IH; nia.
Qed.

(** X22: a remote ledger that tells its tip and then fails every query,
    with an error other than the one about the range, makes
    [getTokenEvents] report success with no event: each chunk is given up
    in silence, and the failures do not show in the result. *)
Theorem failing_queries_read_as_no_events provider tip fromBlock fuel tr :
  (forall n, getBlockNumber provider n = inr tip) ->
  (forall n kind a b,
      exists e, queryFilter provider n kind a b = inl e /\ is_range_too_large e = false) ->
  fromBlock <> 0 -> (2 <= fuel)%nat ->
  tip - fromBlock + 1 <= 100 * (Z.of_nat fuel - 2) ->
  exists tr',
    getTokenEvents fuel (mkContract (Some provider)) (Some fromBlock) tr
    = (Return (mkTokenEventsInfo true None (Some (mkEventsData 0 0 0 []))), tr').
Proof.
  intros Htip Hfail Hfrom Hfuel Hspan.
  destruct fuel as [|fuel]; [lia |].
  unfold getTokenEvents, try_catch, await.
  rewrite getAllEventsInChunks_S, Htip. cbn [falsy].
  destruct (Z.eqb_spec fromBlock 0); [congruence |].
  change (default 0 (Some fromBlock)) with fromBlock.
  destruct (chunks_skipped fuel (mkContract (Some provider)) provider tip 100 fromBlock []
              (tr ++ [ReqBlockNumber]) Hfail)
    as (tr' & ->); [lia | lia | lia |].
  cbn. eauto.
Qed.

(** X23: on a remote ledger that rejects every query of ten blocks, a
    scan of ten blocks or more with a chunk size of ten or more does not
    end: the reattempt of a rejected chunk uses chunks of
    [max(10, chunkSize / 10)] blocks, which are rejected again, and so
    on, whatever the fuel. *)
Theorem scan_below_ten_blocks_never_ends limit lg tip start chunkSize fuel tr :
  limit < 10 -> 10 <= chunkSize -> start <> 0 -> start + 9 <= tip ->
  fst (getAllEventsInChunks fuel (mkContract (Some (rejecting limit lg tip)))
         (Some start) chunkSize tr)
  = Unfinished.
Proof.
  intros Hlimit Hsize Hstart Htip. revert chunkSize Hsize tr.
  induction fuel as [fuel IH] using lt_wf_ind. intros chunkSize Hsize tr.
  destruct fuel as [|[|fuel]]; try reflexivity.
  rewrite getAllEventsInChunks_S. cbn [getBlockNumber rejecting].
  cbn [falsy]. destruct (Z.eqb_spec start 0); [congruence |].
  change (default 0 (Some start)) with start.
  rewrite chunks_rejected by lia.
  specialize (IH fuel ltac:(lia) (Z.max 10 (chunkSize / 10)) ltac:(lia)
                ((tr ++ [ReqBlockNumber])
                   ++ [ReqQuery TransferSingle start (Z.min (start + chunkSize - 1) tip)])).
  destruct (getAllEventsInChunks fuel (mkContract (Some (rejecting limit lg tip)))
              (Some start) (Z.max 10 (chunkSize / 10)) _) as [[x | e |] tr1];
    simpl in IH; try discriminate.
  reflexivity.
Qed.

(** *** The views *)

Lemma getTokenEvents_data fuel contract fromBlock tr result tr' :
  getTokenEvents fuel contract fromBlock tr = (Return result, tr') ->
  match data result with
  | None => success result = false
  | Some d =>
      success result = true /\ error result = None /\
      exists stamped,
        events d = map convert stamped /\
        totalEvents d = length (events d) /\
        singleTransfers d = length (filter (fun e => is_single e = true) (events d)) /\
        batchTransfers d = length (filter (fun e => is_batch e = true) (events d))
  end.
Proof.
  unfold getTokenEvents, try_catch, await.
  destruct (getAllEventsInChunks fuel contract fromBlock 100 tr) as [[all | e |] tr1].
  - destruct (runner_provider contract) as [provider |].
    + destruct (stamp_all provider all tr1) as [[stamped | e |] tr2];
        cbv [pure]; intros Hrun; simplify_eq; cbn; [| reflexivity].
      split; [reflexivity |]. split; [reflexivity |]. exists (sort stamped). auto.
    + cbv [throw pure]. intros Hrun. now simplify_eq.
  - cbv [pure]. intros Hrun. now simplify_eq.
  - discriminate.
Qed.

Lemma last_nonempty {A : Type} (l : list A) (b d d' : A) :
  List.last (b :: l) d = List.last (b :: l) d'.
Proof.
  revert b. induction l as [|c l IH]; intros b; [reflexivity |].
  change (List.last (b :: c :: l) d) with (List.last (c :: l) d).
  change (List.last (b :: c :: l) d') with (List.last (c :: l) d').
  apply IH.
Qed.

Lemma last_of_nonempty {A : Type} (l : list A) (b d : A) :
  last (b :: l) = Some (List.last (b :: l) d).
Proof.
  revert b. induction l as [|c l IH]; intros b; [reflexivity |].
  change (List.last (b :: c :: l) d) with (List.last (c :: l) d).
  rewrite <- IH. reflexivity.
Qed.

Lemma sorted_ends (l : list TokenTransferEvent) first :
  StronglySorted (fun a b => tte_timestamp a <= tte_timestamp b) (first :: l) ->
  forall e, In e (first :: l) ->
    tte_timestamp first <= tte_timestamp e <= tte_timestamp (List.last (first :: l) first).
Proof.
  revert first. induction l as [|b l IH]; intros first Hsorted e Hin.
  - destruct Hin as [<- | []]. cbn. lia.
  - apply StronglySorted_inv in Hsorted as [Hrest Hall].
    rewrite List.Forall_forall in Hall.
    change (List.last (first :: b :: l) first) with (List.last (b :: l) first).
    pose proof (last_nonempty l b first b) as Hlast.
    rewrite Hlast.
    pose proof (IH b Hrest) as Hb.
    destruct Hin as [<- | Hin].
    + split; [lia |].
      specialize (Hb b (or_introl eq_refl)).
      specialize (Hall b (or_introl eq_refl)). lia.
    + specialize (Hb e Hin). split; [| lia].
      specialize (Hall e Hin). lia.
Qed.

(** The loop of the summary stops at the first batch transfer that
    [getTokenEvents] has converted. *)
Lemma summary_loop_batch (l : list Stamped) (acc : gset string * Z) :
  existsb (fun e => match eventType e with batch => true | single => false end)
          (map convert l) = true ->
  summary_loop (map convert l) acc = inl (ErrorObject "event.amounts is not iterable").
Proof.
  revert acc. induction l as [|x l IH]; intros [u t] Hbatch; [discriminate |].
  cbn [map existsb summary_loop] in *.
  assert (Hhead : (eventType (convert x) = single /\ exists a, amount (convert x) = Some a)
                  \/ (eventType (convert x) = batch /\
                      amounts (convert x) = Some ArrayValuesMethod)).
  { unfold convert. destruct (args (st_event x)); cbn; eauto. }
  unfold summary_step.
  destruct Hhead as [(Htype & a & Ha) | (Htype & Ha)]; rewrite Htype, Ha in *;
    cbv beta iota zeta; [| reflexivity].
  apply IH. exact Hbatch.
Qed.

(** Without a batch transfer the loop runs to its end. *)
Lemma summary_loop_singles (l : list TokenTransferEvent) (u : gset string) (t : Z) :
  existsb (fun e => match eventType e with batch => true | single => false end) l = false ->
  summary_loop l (u, t)
  = inr (u ∪ list_to_set
               (List.filter
                  (fun x => negb (String.eqb x "0x0000000000000000000000000000000000000000"))
                  (flat_map (fun e => [tte_from e; tte_to e]) l)),
         t + foldr Z.add 0 (map (fun e => default 0 (amount e)) l)).
Proof.
  revert u t. induction l as [|e l IH]; intros u t Hsingle.
  - cbn. rewrite (right_id_L ∅ (∪)). f_equal. f_equal. lia.
  - cbn [existsb] in Hsingle. apply orb_false_elim in Hsingle as [He Hl].
    cbn [summary_loop flat_map map foldr app List.filter].
    unfold summary_step, isZeroAddress.
    destruct (eventType e); [| discriminate].
    destruct (amount e) as [a |];
      destruct (String.eqb (tte_from e) _), (String.eqb (tte_to e) _);
      cbn [negb]; rewrite IH by exact Hl; f_equal; f_equal;
      try (cbn [list_to_set]; rewrite <- ?(assoc_L (∪)); reflexivity);
      cbn [default]; unfold id; try (destruct (Z.eqb_spec a 0)); lia.
Qed.

Lemma no_batch_all_single (l : list TokenTransferEvent) :
  existsb (fun e => match eventType e with batch => true | single => false end) l = false ->
  length (filter (fun e => is_single e = true) l) = length l /\
  length (filter (fun e => is_batch e = true) l) = 0%nat.
Proof.
  induction l as [|e l IH]; [now split |]. cbn [existsb]. intros Hno.
  apply orb_false_elim in Hno as [He Hl]. destruct (IH Hl) as [IH1 IH2].
  rewrite !filter_cons. unfold is_single, is_batch in *.
  destruct (eventType e); [| discriminate].
  repeat case_decide; try congruence. cbn [length]. now rewrite IH1, IH2.
Qed.

(** X24: [getTokenEventsSummary] answers whenever [getTokenEvents] does,
    and hands on its failure as it is.  Of a scan that succeeded and holds
    a batch transfer it reports a failure, "event.amounts is not iterable":
    the amounts of a batch transfer are not there to be added up.  Of a
    scan that succeeded with single transfers only it reports the number of
    events as [totalEvents] and as [singleTransfers], no batch transfer,
    the number of different addresses that occur as sender or receiver,
    the zero address left out, and the sum of the amounts; [dateRange] is
    empty when there is no event, and otherwise holds the timestamps of the
    first and of the last event, which are the lowest and the highest of
    all. *)
Theorem summary_of_a_scan fuel contract fromBlock tr result tr' :
  getTokenEvents fuel contract fromBlock tr = (Return result, tr') ->
  exists summary,
    getTokenEventsSummary fuel contract fromBlock tr = (Return summary, tr') /\
    match data result with
    | None => summary = mkTokenEventsSummary false (error result) None
    | Some d =>
        if existsb (fun e => match eventType e with batch => true | single => false end)
                   (events d)
        then summary
             = mkTokenEventsSummary false (Some "event.amounts is not iterable") None
        else
          let addresses : gset string :=
            list_to_set
              (List.filter
                 (fun x => negb (String.eqb x "0x0000000000000000000000000000000000000000"))
                 (flat_map (fun e => [tte_from e; tte_to e]) (events d))) in
          let total := foldr Z.add 0 (map (fun e => default 0 (amount e)) (events d)) in
          exists range,
            summary
            = mkTokenEventsSummary true None
                (Some (mkSummaryData (length (events d)) (length (events d)) 0
                         (size addresses) total range)) /\
            match events d with
            | [] => range = mkDateRange None None
            | first :: _ =>
                exists final,
                  last (events d) = Some final /\
                  range = mkDateRange (Some (tte_timestamp first))
                                      (Some (tte_timestamp final)) /\
                  forall e, In e (events d) ->
                    tte_timestamp first <= tte_timestamp e <= tte_timestamp final
            end
    end.
Proof.
  intros Hscan.
  pose proof (getTokenEvents_data _ _ _ _ _ _ Hscan) as Hdata.
  unfold getTokenEventsSummary, try_catch, await. rewrite Hscan.
  destruct (data result) as [d |] eqn:Hd.
  2:{ rewrite Hdata. eexists. split; reflexivity. }
  destruct Hdata as (Hok & _ & stamped & Hevents & Htotal & Hsingle & Hbatch).
  pose proof (getTokenEvents_sorted _ _ _ _ _ _ _ Hscan Hd) as Hsorted.
  rewrite Hok. cbv zeta.
  destruct (existsb _ (events d)) eqn:Hany.
  - rewrite Hevents in Hany |- *. rewrite (summary_loop_batch _ _ Hany).
    eexists. split; reflexivity.
  - rewrite (summary_loop_singles _ _ _ Hany).
    destruct (no_batch_all_single _ Hany) as [Hall Hnone].
    rewrite Hsingle, Hbatch, Hall, Hnone.
    eexists. split; [reflexivity |].
    eexists. split; [rewrite (left_id_L ∅ (∪)); reflexivity |].
    destruct (events d) as [|first rest]; [reflexivity |].
    exists (List.last (first :: rest) first).
    split; [apply last_of_nonempty |]. split; [reflexivity |].
    now apply sorted_ends.
Qed.

Lemma filtered_sorted (keep : TokenTransferEvent -> bool) (l : list TokenTransferEvent) :
  StronglySorted (fun a b => tte_timestamp a <= tte_timestamp b) l ->
  StronglySorted (fun a b => tte_timestamp a <= tte_timestamp b) (List.filter keep l).
Proof.
  induction 1 as [|a l Hsorted IH Hall]; cbn; [constructor |].
  destruct (keep a); [| exact IH].
  constructor; [exact IH |].
  rewrite List.Forall_forall in *. intros x [Hx _]%filter_In. now apply Hall.
Qed.


Lemma count_single (l : list TokenTransferEvent) :
  length (filter (fun e => is_single e = true) l)
  = length (List.filter (fun e => match eventType e with
                                  | single => true
                                  | batch => false
                                  end) l).
Proof.
  induction l as [|e l IH]; [reflexivity |].
  rewrite filter_cons. cbn [List.filter]. unfold is_single in *.
  destruct (eventType e); case_decide; try congruence; cbn [length]; now rewrite IH.
Qed.

Lemma count_batch (l : list TokenTransferEvent) :
  length (filter (fun e => is_batch e = true) l)
  = length (List.filter (fun e => match eventType e with
                                  | single => false
                                  | batch => true
                                  end) l).
Proof.
  induction l as [|e l IH]; [reflexivity |].
  rewrite filter_cons. cbn [List.filter]. unfold is_batch in *.
  destruct (eventType e); case_decide; try congruence; cbn [length]; now rewrite IH.
Qed.

(** X25: [getTokenEventsForToken] answers whenever [getTokenEvents] does,
    and hands on its failure as it is.  Of a scan that succeeded it keeps
    the single transfers whose token id, as the JavaScript number
    [getTokenEvents] made of it, is the id asked for, and the batch
    transfers that list it, in the order they had, so that they are still
    in ascending order of timestamp; the three counts are those of the
    events kept. *)
Theorem getTokenEventsForToken_is_a_view fuel contract (tokenId' : Z) fromBlock tr
    result tr' :
  getTokenEvents fuel contract fromBlock tr = (Return result, tr') ->
  exists view,
    getTokenEventsForToken fuel contract tokenId' fromBlock tr = (Return view, tr') /\
    match data result with
    | None => view = mkTokenEventsInfo false (error result) None
    | Some d0 =>
        exists d,
          view = mkTokenEventsInfo true None (Some d) /\
          events d
          = List.filter
              (fun e => match eventType e with
                        | single =>
                            match tokenId e with
                            | Some id => id =? tokenId'
                            | None => false
                            end
                        | batch =>
                            match tokenIds e with
                            | Some ids => existsb (fun id => id =? tokenId') ids
                            | None => false
                            end
                        end)
              (events d0) /\
          (forall e, In e (events d) <->
                     In e (events d0) /\
                     match eventType e with
                     | single => tokenId e = Some tokenId'
                     | batch => exists ids, tokenIds e = Some ids /\ In tokenId' ids
                     end) /\
          StronglySorted (fun a b => tte_timestamp a <= tte_timestamp b) (events d) /\
          totalEvents d = length (events d) /\
          singleTransfers d
          = length (List.filter (fun e => match eventType e with
                                          | single => true
                                          | batch => false
                                          end) (events d)) /\
          batchTransfers d
          = length (List.filter (fun e => match eventType e with
                                          | single => false
                                          | batch => true
                                          end) (events d))
    end.
Proof.
  intros Hscan.
  pose proof (getTokenEvents_data _ _ _ _ _ _ Hscan) as Hdata.
  unfold getTokenEventsForToken, try_catch. rewrite Hscan. unfold filtered_view.
  destruct (data result) as [d0 |] eqn:Hd0.
  2:{ rewrite Hdata. eexists. split; reflexivity. }
  destruct Hdata as (Hok & _ & _).
  pose proof (getTokenEvents_sorted _ _ _ _ _ _ _ Hscan Hd0) as Hsorted.
  rewrite Hok. eexists. split; [reflexivity |].
  eexists. split; [reflexivity |]. cbn [events totalEvents singleTransfers batchTransfers].
  assert (Hkeep : forall e,
            about_token tokenId' e
            = match eventType e with
              | single =>
                  match tokenId e with
                  | Some id => id =? tokenId'
                  | None => false
                  end
              | batch =>
                  match tokenIds e with
                  | Some ids => existsb (fun id => id =? tokenId') ids
                  | None => false
                  end
              end).
  { intros e. unfold about_token. destruct (eventType e); [reflexivity |].
    destruct (tokenIds e) as [ids |]; [| reflexivity].
    induction ids as [|id ids IH]; [reflexivity |]. cbn [existsb].
    now rewrite IH, (Z.eqb_sym tokenId' id). }
  split; [apply List.filter_ext, Hkeep |].
  split.
  { intros e. rewrite filter_In. unfold about_token.
    destruct (eventType e).
    - destruct (tokenId e) as [id |].
      + rewrite Z.eqb_eq. split; intros [Hin Hid]; (split; [exact Hin | congruence]).
      + split; intros [Hin Hid]; discriminate.
    - destruct (tokenIds e) as [ids |].
      + rewrite existsb_exists. split.
        * intros (Hin & id & Hids & Hid). apply Z.eqb_eq in Hid. subst id.
          split; [exact Hin | eauto].
        * intros (Hin & ids' & [= <-] & Hids). split; [exact Hin |].
          exists tokenId'. split; [exact Hids | apply Z.eqb_refl].
      + split; [intros [_ Hid]; discriminate | intros (_ & ids & Hids & _); discriminate]. }
  split; [apply filtered_sorted, Hsorted |].
  split; [reflexivity |]. split; [apply count_single | apply count_batch].
Qed.




End ScanFacts.

(** * Properties of the scripts that read the contract *)
Section ScriptFacts.
Import Scripts.
Context {ledger : Type}.
Implicit Types s : State ledger.

Lemma getTokenInfo_run s (tokenId : uint256) :
  call (getTokenInfo tokenId) s
  = (Ok (name (info s tokenId), description (info s tokenId), maxSupply (info s tokenId),
         currentSupply (info s tokenId), isActive (info s tokenId)), s).
Proof. reflexivity. Qed.

Lemma getAllTokens_for_ids s rounds (k : nat) tokens :
  (forall id, exists u, resolve_outcome (_baseURI s) id = inr u) ->
  map tm_id (getAllTokens_for rounds (N.of_nat k) s tokens)
  = map tm_id tokens
    ++ List.filter (fun i => isActive (info s i)) (map N.of_nat (seq k rounds)).
Proof.
  intros Hfine. revert k tokens.
  induction rounds as [|rounds IH]; intros k tokens.
  - cbn. now rewrite app_nil_r.
  - cbn [getAllTokens_for seq map List.filter]. rewrite getTokenInfo_run.
    replace (N.of_nat k + 1) with (N.of_nat (S k)) by lia.
    destruct (isActive (info s (N.of_nat k))) eqn:Hact; [| apply IH].
    unfold call. rewrite uri_run, Hact.
    destruct (Hfine (N.of_nat k)) as (u & ->).
    rewrite IH, map_app, <- app_assoc. reflexivity.
Qed.

(** X27: with a base URI that [uri] can resolve, [getAllTokens] lists the
    active tokens among the ids 1 to [maxTokenIds], in ascending order of
    id; an id that is not in use does not end the listing, since
    [getTokenInfo] answers for it too. *)
Theorem getAllTokens_lists_every_active_token s (maxTokenIds : nat) :
  (count_placeholder (_baseURI s) <= 1)%nat ->
  (length (_baseURI s) <> 1 /\ length (_baseURI s) <> 2)%nat ->
  map tm_id (getAllTokens s maxTokenIds)
  = List.filter (fun i => isActive (info s i)) (map N.of_nat (seq 1 maxTokenIds)).
Proof.
  intros Hcount [H1 H2]. unfold getAllTokens.
  change 1 with (N.of_nat 1). rewrite getAllTokens_for_ids; [reflexivity |].
  intros id. unfold resolve_outcome.
  destruct (_baseURI s) as [|c0 [|c1 [|c2 t']]]; simpl in H1, H2; try lia; [eauto |].
  destruct (Nat.leb_spec (count_placeholder (c0 :: c1 :: c2 :: t')) 1); [eauto | lia].
Qed.

(** X28: with a base URI that [uri] cannot resolve, because it holds the
    placeholder twice or more or is one or two bytes long, [getAllTokens]
    finds no token at all, however many are active: the first active
    token makes [uri] fail, which ends the listing. *)
Theorem getAllTokens_finds_nothing_when_uri_fails s (maxTokenIds : nat) :
  (2 <= count_placeholder (_baseURI s))%nat \/
  (length (_baseURI s) = 1 \/ length (_baseURI s) = 2)%nat ->
  getAllTokens s maxTokenIds = [].
Proof.
  intros Hbad. unfold getAllTokens.
  assert (Hfail : forall id, exists e, resolve_outcome (_baseURI s) id = inl e).
  { intros id. unfold resolve_outcome.
    destruct (_baseURI s) as [|c0 [|c1 [|c2 t']]]; simpl in Hbad; try lia; eauto.
    destruct (Nat.leb_spec (count_placeholder (c0 :: c1 :: c2 :: t')) 1); [| eauto].
    simpl in *. lia. }
  generalize 1 as i. generalize (@nil TokenMetadata) as tokens.
  induction maxTokenIds as [|rounds IH]; intros tokens i; [reflexivity |].
  cbn [getAllTokens_for]. rewrite getTokenInfo_run.
  destruct (isActive (info s i)) eqn:Hact.
  - unfold call. rewrite uri_run, Hact. now destruct (Hfail i) as (e & ->).
  - apply IH.
Qed.

Lemma replace_first (c : byte) (replaceValue pre rest : list byte) :
  ~ In c pre ->
  replace [c] replaceValue (pre ++ c :: rest) = pre ++ replaceValue ++ rest.
Proof.
  induction pre as [|a pre IH]; intros Hpre.
  - cbn. rewrite (Byte.byte_dec_lb (eq_refl c)). cbn. now rewrite drop_0.
  - cbn [app replace starts_with].
    destruct (Byte.eqb c a) eqn:Hca.
    + apply Byte.byte_dec_bl in Hca. subst. exfalso. apply Hpre. now left.
    + cbn [andb]. f_equal. apply IH. intros Hin. apply Hpre. now right.
Qed.

Lemma first_occurrence (c : byte) (l : list byte) :
  In c l -> exists pre rest, l = pre ++ c :: rest /\ ~ In c pre.
Proof.
  induction l as [|a l IH]; [contradiction |]. intros Hin.
  destruct (Byte.eqb c a) eqn:Hca.
  - apply Byte.byte_dec_bl in Hca. subst. exists [], l. auto.
  - assert (Hne : a <> c).
    { intros ->. rewrite (Byte.byte_dec_lb (eq_refl c)) in Hca. discriminate. }
    destruct Hin as [-> | Hin]; [congruence |].
    destruct (IH Hin) as (pre & rest & -> & Hpre).
    exists (a :: pre), rest. split; [reflexivity |].
    intros [Ha | Ha]; [congruence | contradiction].
Qed.

Lemma first_occurrence_unique (c : byte) (p q r1 r2 : list byte) :
  p ++ c :: r1 = q ++ c :: r2 -> ~ In c p -> ~ In c q -> p = q /\ r1 = r2.
Proof.
  revert q. induction p as [|a p IH]; intros [|b q] Hsplit Hp Hq.
  - now injection Hsplit as <-.
  - injection Hsplit as <- _. exfalso. apply Hq. now left.
  - injection Hsplit as -> _. exfalso. apply Hp. now left.
  - injection Hsplit as <- Hsplit.
    destruct (IH q Hsplit) as [-> ->];
      [intros ?; apply Hp; now right | intros ?; apply Hq; now right |].
    auto.
Qed.

(** X29: [getCurrentBaseURI] does not return the base URI.  With a base
    URI that holds the placeholder once it replaces the first [1] of the
    URI of token 1 by the placeholder, which gives a string 63 bytes
    longer than the base URI: when no [1] comes before the placeholder,
    the base URI with 63 zeros put in front of the placeholder. *)
Theorem getCurrentBaseURI_is_not_the_base_URI s :
  count_placeholder (_baseURI s) = 1%nat -> isActive (info s 1) = true ->
  exists pre post r,
    _baseURI s = pre ++ placeholder ++ post /\
    getCurrentBaseURI s = inr r /\
    length r = (length (_baseURI s) + 63)%nat /\
    r <> _baseURI s /\
    (~ In "1"%byte pre ->
     r = pre ++ replicate 63 "0"%byte ++ placeholder ++ post).
Proof.
  intros Hcount Hact.
  destruct (substitute_once (hex_digits 64 1) (_baseURI s) Hcount)
    as (pre & post & Ht & Hsubst).
  assert (Hhex : hex_digits 64 1 = replicate 63 "0"%byte ++ ["1"%byte])
    by (vm_compute; reflexivity).
  assert (Huri : call (uri 1) s = (Ok (pre ++ hex_digits 64 1 ++ post), s)).
  { unfold call. rewrite uri_run, Hact. unfold resolve_outcome.
    destruct (_baseURI s) as [|c0 [|c1 [|c2 t']]] eqn:Hbase; try discriminate.
    rewrite Hcount. cbn [Nat.leb]. now rewrite Hsubst. }
  assert (Hin : In "1"%byte (pre ++ hex_digits 64 1 ++ post)).
  { rewrite Hhex, !in_app_iff. right. left. right. now left. }
  destruct (first_occurrence _ _ Hin) as (pre' & rest & Hsplit & Hpre').
  assert (Hlen : length (pre' ++ placeholder ++ rest) = (length (_baseURI s) + 63)%nat).
  { apply (f_equal (@length byte)) in Hsplit.
    rewrite Ht. rewrite !length_app, length_hex_digits in *. cbn [length] in *.
    unfold placeholder. cbn [length]. lia. }
  exists pre, post, (pre' ++ placeholder ++ rest).
  split; [exact Ht |]. split.
  { unfold getCurrentBaseURI. rewrite Huri, Hsplit.
    now rewrite (replace_first "1"%byte _ pre' rest Hpre'). }
  split; [exact Hlen |]. split.
  { intros Heq. rewrite Heq in Hlen. lia. }
  intros Hpre. rewrite Hhex in Hsplit.
  assert (Hfirst : ~ In "1"%byte (pre ++ replicate 63 "0"%byte)).
  { rewrite in_app_iff. intros [Hp | Hz]; [contradiction |].
    apply list_elem_of_In, elem_of_replicate in Hz as [Hz _]. discriminate. }
  rewrite <- !app_assoc in Hsplit. cbn [app] in Hsplit. rewrite app_assoc in Hsplit.
  destruct (first_occurrence_unique _ _ _ _ _ Hsplit Hfirst Hpre') as [<- <-].
  now rewrite <- !app_assoc.
Qed.

End ScriptFacts.

(** * The further properties at the sample states *)
Section MoreSamples.
Import Sample.
#[local] Existing Instance plain_accounts.

Lemma mint_then_burn_restores_witness :
  exists s2,
    call (burn holder holder 3 10) minted = (Ok tt, s2) /\
    (forall id', info s2 id' = info deployed id') /\
    (forall a id', balanceOf s2 a id' = balanceOf deployed a id').
Proof.
  apply (mint_then_burn_restores deployed minted deployer holder holder 3 10).
  - vm_compute. reflexivity.
  - left. reflexivity.
Defined.

Lemma burn_of_held_tokens_succeeds_witness :
  exists s', call (burn holder holder 3 4) minted = (Ok tt, s') /\
             balanceOf s' holder 3 = balanceOf minted holder 3 - 4.
Proof.
  destruct (burn_of_held_tokens_succeeds minted holder holder 3 4)
    as (s' & Hcall & Hbal & _).
  - exact minted_reachable.
  - left. reflexivity.
  - vm_compute. discriminate.
  - vm_compute. discriminate.
  - exists s'. split; [exact Hcall | exact Hbal].
Defined.

Lemma mint_within_cap_succeeds_witness :
  exists s', call (mint deployer other 1 5) minted = (Ok tt, s') /\
             balanceOf s' other 1 = balanceOf minted other 1 + 5.
Proof.
  destruct (mint_within_cap_succeeds minted other 1 5) as (s' & Hcall & Hbal & _).
  - exact minted_reachable.
  - vm_compute. reflexivity.
  - vm_compute. discriminate.
  - vm_compute. discriminate.
  - vm_compute. discriminate.
  - reflexivity.
  - exists s'. split; [exact Hcall | exact Hbal].
Defined.

Lemma mint_rejections_witness :
  call (mint deployer holder 9 1) deployed = (Reverted (Revert "Token does not exist"), deployed).
Proof.
  apply (proj1 (mint_rejections deployed holder 9 1)). vm_compute. reflexivity.
Defined.

Lemma payback_burns_like_burn_witness :
  exists sb l',
    call (burn deployer holder 3 4) minted = (Ok tt, sb) /\
    transfer_usdc (this minted) holder 50000000 (usdc minted) = Some (true, l') /\
    snd (call (payback deployer holder 3 4 50000000) minted) = set_usdc l' sb.
Proof.
  apply (payback_burns_like_burn minted deployer holder 3 4 50000000).
  vm_compute. reflexivity.
Defined.

Lemma caps_are_permanent_witness :
  isActive (info minted 3) = true /\ maxSupply (info minted 3) = maxSupply (info deployed 3).
Proof.
  apply (caps_are_permanent deployed deployer (Mint holder 3 10) minted 3).
  - vm_compute. reflexivity.
  - vm_compute. reflexivity.
Defined.

Lemma deployed_caps_hold_forever_witness :
  maxSupply (info minted 1) = 25 /\ sum_balances minted 3 <= 50.
Proof.
  destruct (deployed_caps_hold_forever minted minted_reachable)
    as ((_ & Hgold & _) & _ & (_ & _ & Hbronze)).
  split; [exact Hgold | exact Hbronze].
Defined.

Lemma strangers_are_turned_away_witness :
  call (run holder (Mint holder 3 10)) deployed
    = (Reverted (OwnableUnauthorizedAccount holder), deployed) /\
  kind_of (OwnableUnauthorizedAccount holder) = Unauthorized.
Proof.
  apply (strangers_are_turned_away deployed holder (Mint holder 3 10)).
  - reflexivity.
  - vm_compute. discriminate.
Defined.

Lemma createToken_starts_empty_witness :
  exists s',
    call (createToken deployer 4 "PEARL" "Pearl" 5) minted = (Ok tt, s') /\
    info s' 4 = mkTokenInfo "PEARL" "Pearl" 5 0 true /\
    (forall a, balanceOf s' a 4 = 0).
Proof.
  destruct (createToken_starts_empty minted 4 "PEARL" "Pearl" 5)
    as (s' & Hcall & Hinfo & Hnone & _).
  - exact minted_reachable.
  - vm_compute. reflexivity.
  - vm_compute. reflexivity.
  - exists s'. auto.
Defined.

Lemma createToken_rejections_witness :
  call (createToken deployer 1 "GOLD" "Gold again" 1000) deployed
    = (Reverted (Revert "Token already exists"), deployed).
Proof.
  apply (proj1 (createToken_rejections deployed 1 "GOLD" "Gold again" 1000)).
  vm_compute. reflexivity.
Defined.

Lemma payout_above_treasury_fails_witness :
  call (withdrawUSDC deployer 100000001) deployed
    = (Reverted (Revert "Insufficient USDC balance"), deployed).
Proof.
  destruct (payout_above_treasury_fails deployed holder 100000001) as [Hcall _].
  - vm_compute. reflexivity.
  - exact Hcall.
Defined.

Lemma withdrawUSDC_pays_the_owner_witness :
  exists s',
    call (withdrawUSDC deployer 5) deployed = (Ok tt, s') /\
    treasury s' = treasury deployed - 5 /\
    ERC20.balanceOf (usdc s') deployer = ERC20.balanceOf (usdc deployed) deployer + 5.
Proof.
  destruct (withdrawUSDC_pays_the_owner deployed 5) as (s' & Hcall & Hless & Hmore & _).
  - vm_compute. reflexivity.
  - vm_compute. discriminate.
  - vm_compute. discriminate.
  - vm_compute. discriminate.
  - vm_compute. discriminate.
  - exists s'. auto.
Defined.

Lemma updateTokenInfo_then_getTokenInfo_witness :
  exists s',
    call (updateTokenInfo deployer 1 "AU" "Gold, renamed") deployed = (Ok tt, s') /\
    call (getTokenInfo 1) s' = (Ok ("AU"%string, "Gold, renamed"%string, 25, 0, true), s').
Proof.
  destruct (proj1 (updateTokenInfo_then_getTokenInfo deployed 1 "AU" "Gold, renamed"))
    as (s' & Hcall & Hget & _).
  - vm_compute. reflexivity.
  - exists s'. split; [exact Hcall | exact Hget].
Defined.

Lemma setBaseURI_accepts_unusable_templates_witness :
  exists s',
    call (setBaseURI deployer (list_byte_of_string "x")) deployed = (Ok tt, s') /\
    _baseURI s' = list_byte_of_string "x" /\
    call (uri 1) s' = (Reverted (Panic PANIC_ARITHMETIC), s').
Proof.
  apply (setBaseURI_accepts_unusable_templates deployed (list_byte_of_string "x") 1).
  - left. reflexivity.
  - vm_compute. reflexivity.
Defined.

Lemma uri_without_placeholder_is_the_template_witness :
  call (uri 2) (set_baseURI (list_byte_of_string "ipfs://collection") deployed)
  = (Ok (list_byte_of_string "ipfs://collection"),
     set_baseURI (list_byte_of_string "ipfs://collection") deployed).
Proof.
  apply (uri_without_placeholder_is_the_template
           (set_baseURI (list_byte_of_string "ipfs://collection") deployed) 2).
  - vm_compute. reflexivity.
  - split; vm_compute; discriminate.
  - vm_compute. reflexivity.
Defined.

Lemma uri_tells_tokens_apart_witness :
  exists u1 u2,
    call (uri 1) deployed = (Ok u1, deployed) /\
    call (uri 2) deployed = (Ok u2, deployed) /\ u1 <> u2.
Proof.
  apply (uri_tells_tokens_apart deployed 1 2).
  - vm_compute. reflexivity.
  - vm_compute. discriminate.
  - vm_compute. discriminate.
  - vm_compute. reflexivity.
  - vm_compute. reflexivity.
  - discriminate.
Defined.

Import Scripts.

Lemma getAllTokens_lists_every_active_token_witness :
  map tm_id (getAllTokens deployed 5) = [1; 2; 3].
Proof.
  rewrite (getAllTokens_lists_every_active_token deployed 5).
  - vm_compute. reflexivity.
  - vm_compute. lia.
  - split; vm_compute; discriminate.
Defined.

Lemma getAllTokens_finds_nothing_when_uri_fails_witness :
  getAllTokens two_placeholders 20 = [].
Proof.
  apply (getAllTokens_finds_nothing_when_uri_fails two_placeholders 20).
  left. vm_compute. lia.
Defined.

Lemma getCurrentBaseURI_is_not_the_base_URI_witness :
  exists r, getCurrentBaseURI deployed = inr r /\ r <> _baseURI deployed.
Proof.
  destruct (getCurrentBaseURI_is_not_the_base_URI deployed)
    as (pre & post & r & _ & Hrun & _ & Hne & _).
  - vm_compute. reflexivity.
  - vm_compute. reflexivity.
  - exists r. split; [exact Hrun | exact Hne].
Defined.

End MoreSamples.

Section MoreScans.
Import Scanner ScanSample FaultyRemote MixedLog.
#[local] Open Scope Z_scope.


Lemma scan_within_the_limit_is_exact_witness :
  exists events tr',
    getAllEventsInChunks 10 (mkContract (Some (rejecting 20 log 30))) (Some 1) 10 []
      = (Return events, tr') /\
    (forall e, In e events <-> In e log /\ 1 <= blockNumber e <= 30).
Proof.
  destruct (scan_within_the_limit_is_exact 10 20 log 30 10 1 [])
    as (events & tr' & Hrun & Hevents & _); try lia.
  exists events, tr'. split; [exact Hrun | exact Hevents].
Defined.

Lemma scan_from_block_zero_looks_back_100000_witness :
  exists events tr',
    getAllEventsInChunks 2000 (mkContract (Some (rejecting 1000 log 100205))) (Some 0)
                         1000 []
      = (Return events, tr') /\
    (forall e, In e events <-> In e log /\ 205 <= blockNumber e <= 100205).
Proof.
  destruct (scan_from_block_zero_looks_back_100000 2000 1000 log 100205 1000 (Some 0) [])
    as (events & tr' & Hrun & Hevents); try lia.
  - right. reflexivity.
  - exists events, tr'. split; [exact Hrun | exact Hevents].
Defined.

Lemma failing_queries_read_as_no_events_witness :
  exists tr',
    getTokenEvents 5 (mkContract (Some (failing 30))) (Some 1) []
    = (Return (mkTokenEventsInfo true None (Some (mkEventsData 0 0 0 []))), tr').
Proof.
  apply (failing_queries_read_as_no_events (failing 30) 30 1 5 []); try lia.
  - reflexivity.
  - intros n kind a b. exists down. split; reflexivity.
Defined.

Lemma scan_below_ten_blocks_never_ends_witness :
  fst (getAllEventsInChunks 1000 (mkContract (Some (rejecting 5 log 210))) (Some 1) 100 [])
  = Unfinished.
Proof. apply (scan_below_ten_blocks_never_ends 5 log 210 1 100 1000 []); lia. Defined.


Lemma summary_of_a_scan_witness :
  getTokenEventsSummary 20 mixed (Some 1) []
  = (Return (mkTokenEventsSummary false (Some "event.amounts is not iterable") None),
     [ReqBlockNumber; ReqQuery TransferSingle 1 30; ReqQuery TransferBatch 1 30;
      ReqBlock moved; ReqBlock odd; ReqBlock minted]) /\
  getTokenEventsSummary 20 singles (Some 1) []
  = (Return (mkTokenEventsSummary true None
               (Some (mkSummaryData 2 2 0 2 6
                        (mkDateRange (Some 1700000014) (Some 1700000024))))),
     [ReqBlockNumber; ReqQuery TransferSingle 1 30; ReqQuery TransferBatch 1 30;
      ReqBlock moved; ReqBlock odd]).
Proof.
  split.
  - edestruct (summary_of_a_scan 20 mixed (Some 1) []) as (summary & Hrun & Hsummary).
    + vm_compute. reflexivity.
    + vm_compute in Hsummary. rewrite Hsummary in Hrun. exact Hrun.
  - edestruct (summary_of_a_scan 20 singles (Some 1) []) as (summary & Hrun & Hsummary).
    + vm_compute. reflexivity.
    + vm_compute in Hsummary.
      destruct Hsummary as (range & Hsummary & final & Hlast & Hrange & _).
      injection Hlast as <-. rewrite Hsummary, Hrange in Hrun. exact Hrun.
Defined.

Lemma getTokenEventsForToken_is_a_view_witness :
  getTokenEventsForToken 20 mixed 1 (Some 1) []
  = (Return
       (mkTokenEventsInfo true None
          (Some (mkEventsData 2 1 1
                   [mkTokenTransferEvent batch 3 1700000006 nobody alice
                      None None (Some [1; 2]) (Some ArrayValuesMethod) "0xa1";
                    mkTokenTransferEvent single 7 1700000014 alice bob
                      (Some 1) (Some 2) None None "0xa2"]))),
     [ReqBlockNumber; ReqQuery TransferSingle 1 30; ReqQuery TransferBatch 1 30;
      ReqBlock moved; ReqBlock odd; ReqBlock minted]) /\
  getTokenEventsForToken 20 mixed 9007199254740992 (Some 1) []
  = (Return
       (mkTokenEventsInfo true None
          (Some (mkEventsData 1 1 0
                   [mkTokenTransferEvent single 12 1700000024 nobody bob
                      (Some 9007199254740992) (Some 4) None None "0xa3"]))),
     [ReqBlockNumber; ReqQuery TransferSingle 1 30; ReqQuery TransferBatch 1 30;
      ReqBlock moved; ReqBlock odd; ReqBlock minted]).
Proof.
  split.
  - edestruct (getTokenEventsForToken_is_a_view 20 mixed 1 (Some 1) [])
      as (view & Hrun & Hview).
    + vm_compute. reflexivity.
    + cbn [data] in Hview.
      destruct Hview as (d & Hview & Hevents & _ & _ & Htotal & Hsingle & Hbatch).
      destruct d as [total singles batches kept]. cbn in Hevents, Htotal, Hsingle, Hbatch.
      rewrite Hevents in Htotal, Hsingle, Hbatch. cbn in Htotal, Hsingle, Hbatch.
      rewrite Hview, Htotal, Hsingle, Hbatch, Hevents in Hrun. exact Hrun.
  - edestruct (getTokenEventsForToken_is_a_view 20 mixed 9007199254740992 (Some 1) [])
      as (view & Hrun & Hview).
    + vm_compute. reflexivity.
    + cbn [data] in Hview.
      destruct Hview as (d & Hview & Hevents & _ & _ & Htotal & Hsingle & Hbatch).
      destruct d as [total singles batches kept]. cbn in Hevents, Htotal, Hsingle, Hbatch.
      rewrite Hevents in Htotal, Hsingle, Hbatch. cbn in Htotal, Hsingle, Hbatch.
      rewrite Hview, Htotal, Hsingle, Hbatch, Hevents in Hrun. exact Hrun.
Defined.


End MoreScans.
